(** * treee: placement, morphing and gesture mapping of the 3D Christmas tree

    A shallow embedding of the numeric core of the repository
    (src/types.ts, src/App.tsx, src/components/Ornaments.tsx, Foliage.tsx,
    PhotoFrames.tsx and GestureController.tsx, and from Scene.tsx,
    TopStar.tsx, Snow.tsx and UI.tsx what moves or places something)
    together with the properties its design document states about it and
    further properties of the code.

    Conventions of the embedding.
    - A JavaScript [number] is read as a real number: IEEE rounding, NaN and
      the Float32Array narrowing are left out, so every statement below is a
      statement about the exact arithmetic the code writes down.
    - [Math.random()] is a stream [rnd : nat -> R] read through a cursor that
      advances by one per call; the code's only assumption about it is
      [0 <= rnd n < 1].
    - A thrown [TypeError] (reading a field of [undefined]) or [RangeError]
      (a typed array written past its end) is [None].
    - The GLSL of the two shaders is read over the reals as well. *)

From Stdlib Require Import Reals Lra Lia List Bool Arith Permutation.
Import ListNotations.
Open Scope R_scope.

(** ** Comparisons of numbers as booleans *)

Module Num.

Definition ltb (a b : R) : bool := if Rlt_dec a b then true else false.
Definition gtb (a b : R) : bool := ltb b a.
Definition neqb (a b : R) : bool := if Req_dec_T a b then false else true.

(** [Math.hypot] with two and with three arguments. *)
Definition hypot2 (a b : R) : R := sqrt (a * a + b * b).
Definition hypot3 (a b c : R) : R := sqrt (a * a + b * b + c * c).

(** [Math.cbrt]. *)
Definition cbrt (a : R) : R :=
  if Rlt_dec 0 a then Rpower a (/ 3)
  else if Rlt_dec a 0 then - Rpower (- a) (/ 3)
  else 0.

(** [n] applications of [f]. *)
Fixpoint iter {A : Type} (n : nat) (f : A -> A) (a : A) : A :=
  match n with
  | O => a
  | S k => f (iter k f a)
  end.

End Num.

(** ** src/types.ts *)

Module Types.

Inductive TreeState : Type := SCATTERED | TREE_SHAPE.

Definition isTreeShape (m : TreeState) : bool :=
  match m with TREE_SHAPE => true | SCATTERED => false end.

(** The fields of [THREE.Vector3] the code reads and writes. *)
Record Vector3 : Type := mkVector3 { vx : R; vy : R; vz : R }.

(** [a.distanceTo(b)] of three.js. *)
Definition distanceTo (a b : Vector3) : R :=
  sqrt ((vx a - vx b) * (vx a - vx b)
        + (vy a - vy b) * (vy a - vy b)
        + (vz a - vz b) * (vz a - vz b)).

(** The colours of [COLORS], and the white the candy canes construct. A
    [THREE.Color] is compared by identity in the code, which the
    constructors stand for. *)
Inductive Color : Type :=
| EMERALD_DEEP | EMERALD_LIGHT | GOLD_METALLIC | GOLD_ROSE
| WHITE_WARM | RED_RUBY | ICE_BLUE | PLAIN_WHITE.

Definition isGoldMetallic (c : Color) : bool :=
  match c with GOLD_METALLIC => true | _ => false end.

Inductive OrnamentType : Type :=
| box | sphere | star | icicle | candyCane | bell | snowflake.

Definition isBell (t : OrnamentType) : bool :=
  match t with bell => true | _ => false end.

Record OrnamentData : Type := mkOrnament {
  id : nat;
  type : OrnamentType;
  scatterPos : Vector3;
  treePos : Vector3;
  color : Color;
  secondaryColor : option Color;
  weight : R;
  scale : R;
  rotationSpeed : R
}.

(** A photo; [V] is what stands for its two [THREE.Vector3] fields: the
    vector itself where the photo is built, a reference to the object where
    the frame callbacks share it. [id] is the digits of [Date.now()]. *)
Record PhotoItem (V : Type) : Type := mkPhoto {
  photoId : nat;
  photoScatterPos : V;
  photoTreePos : V;
  photoRotationSpeed : R;
  aspectRatio : R
}.

Arguments mkPhoto {V}.
Arguments photoId {V}.
Arguments photoScatterPos {V}.
Arguments photoTreePos {V}.
Arguments photoRotationSpeed {V}.
Arguments aspectRatio {V}.

Definition FOLIAGE_COUNT : nat := 24 * 1000.
Definition ORNAMENT_COUNT : nat := 600.
Definition TREE_HEIGHT : R := 18.
Definition TREE_RADIUS : R := 6.5.
Definition SCATTER_RADIUS : R := 35.

End Types.

(** ** The interpolation helpers of three.js the code calls *)

Module MathUtils.

(** [THREE.MathUtils.lerp(x, y, t)] is [(1 - t) * x + t * y]. *)
Definition lerp (x y t : R) : R := (1 - t) * x + t * y.

(** The step the design document writes: [position += (target - position) * rate].
    It is how [Vector3.lerp] and [updateScale] write the same interpolation. *)
Definition smooth (position target rate : R) : R :=
  position + (target - position) * rate.

End MathUtils.

(** ** src/components/GestureController.tsx *)

Module GestureController.
Import Num Types.

(** One hand landmark, in normalised image space. *)
Record Landmark : Type := mkLandmark { x : R; y : R; z : R }.

(** A hand is the array of its landmarks (MediaPipe delivers 21). *)
Definition Hand : Type := list Landmark.

(** What the component reads and writes: the three values it publishes to
    [App] through its setters, and its two refs. *)
Record State : Type := mkState {
  treeState : TreeState;
  photoScale : R;
  rotationMod : R;
  pinchSmoother : R;
  lastVideoTime : R
}.

(** [App]'s [useState] defaults and the refs' initial values. *)
Definition initial : State :=
  {| treeState := SCATTERED; photoScale := 1.0; rotationMod := 0;
     pinchSmoother := 1.0; lastVideoTime := -1 |}.

Definition setTreeState (m : TreeState) (st : State) : State :=
  {| treeState := m; photoScale := photoScale st; rotationMod := rotationMod st;
     pinchSmoother := pinchSmoother st; lastVideoTime := lastVideoTime st |}.

Definition setPhotoScale (s : R) (st : State) : State :=
  {| treeState := treeState st; photoScale := s; rotationMod := rotationMod st;
     pinchSmoother := pinchSmoother st; lastVideoTime := lastVideoTime st |}.

Definition setRotationMod (r : R) (st : State) : State :=
  {| treeState := treeState st; photoScale := photoScale st; rotationMod := r;
     pinchSmoother := pinchSmoother st; lastVideoTime := lastVideoTime st |}.

Definition setPinchSmoother (s : R) (st : State) : State :=
  {| treeState := treeState st; photoScale := photoScale st;
     rotationMod := rotationMod st;
     pinchSmoother := s; lastVideoTime := lastVideoTime st |}.

Definition setLastVideoTime (t : R) (st : State) : State :=
  {| treeState := treeState st; photoScale := photoScale st;
     rotationMod := rotationMod st;
     pinchSmoother := pinchSmoother st; lastVideoTime := t |}.

(** The two constants of [updateScale]: "slow engage (0.1)", "fast release
    (0.4)". *)
Definition targetScale (isPinching : bool) : R := if isPinching then 10.0 else 1.0.
Definition lerpSpeed (isPinching : bool) : R := if isPinching then 0.1 else 0.4.

(** The value [pinchSmoother.current] holds after one [updateScale]. *)
Definition nextScale (isPinching : bool) (current : R) : R :=
  let current := current + (targetScale isPinching - current) * lerpSpeed isPinching in
  if negb isPinching && ltb (Rabs (current - 1.0)) 0.05 then 1.0 else current.

Definition updateScale (isPinching : bool) (st : State) : State :=
  let st := setPinchSmoother (nextScale isPinching (pinchSmoother st)) st in
  setPhotoScale (pinchSmoother st) st.

(** The locals of [processLandmarks] the loop over the hands updates. *)
Record Flags : Type := mkFlags {
  isFist : bool;
  isOpen : bool;
  isPinching : bool;
  totalX : R
}.

Definition noFlags : Flags :=
  {| isFist := false; isOpen := false; isPinching := false; totalX := 0 |}.

(** Thumb tip to index tip, in three dimensions. *)
Definition pinchDist (thumbTip indexTip : Landmark) : R :=
  hypot3 (x thumbTip - x indexTip) (y thumbTip - y indexTip) (z thumbTip - z indexTip).

(** Fingertip to wrist, in the image plane. *)
Definition tipDist (tip wrist : Landmark) : R :=
  hypot2 (x tip - x wrist) (y tip - y wrist).

(** The six landmarks the loop body reads: indices 0, 4, 8, 12, 16, 20. *)
Definition handPoints (hand : Hand)
  : option (Landmark * Landmark * Landmark * Landmark * Landmark * Landmark) :=
  match nth_error hand 0, nth_error hand 4, nth_error hand 8,
        nth_error hand 12, nth_error hand 16, nth_error hand 20 with
  | Some wrist, Some thumbTip, Some indexTip,
    Some middleTip, Some ringTip, Some pinkyTip =>
      Some (wrist, thumbTip, indexTip, middleTip, ringTip, pinkyTip)
  | _, _, _, _, _, _ => None
  end.

Definition avgDist (wrist indexTip middleTip ringTip pinkyTip : Landmark) : R :=
  let dIndex := tipDist indexTip wrist in
  let dMid := tipDist middleTip wrist in
  let dRing := tipDist ringTip wrist in
  let dPinky := tipDist pinkyTip wrist in
  (dIndex + dMid + dRing + dPinky) / 4.

(** The body of [for (const hand of landmarks)]. *)
Definition handStep (f : Flags) (hand : Hand) : option Flags :=
  match handPoints hand with
  | None => None
  | Some (wrist, thumbTip, indexTip, middleTip, ringTip, pinkyTip) =>
      let totalX := totalX f + x wrist in
      let isPinching :=
        if ltb (pinchDist thumbTip indexTip) 0.05 then true else isPinching f in
      let d := avgDist wrist indexTip middleTip ringTip pinkyTip in
      if ltb d 0.25 then
        Some {| isFist := true; isOpen := isOpen f;
                isPinching := isPinching; totalX := totalX |}
      else if gtb d 0.4 then
        Some {| isFist := isFist f; isOpen := true;
                isPinching := isPinching; totalX := totalX |}
      else
        Some {| isFist := isFist f; isOpen := isOpen f;
                isPinching := isPinching; totalX := totalX |}
  end.

Fixpoint handLoop (f : Flags) (landmarks : list Hand) : option Flags :=
  match landmarks with
  | [] => Some f
  | hand :: rest =>
      match handStep f hand with
      | None => None
      | Some f' => handLoop f' rest
      end
  end.

Definition processLandmarks (landmarks : list Hand) (st : State) : option State :=
  match landmarks with
  | [] => Some (updateScale false (setRotationMod 0 st))
  | _ :: _ =>
      match handLoop noFlags landmarks with
      | None => None
      | Some f =>
          let st :=
            if isOpen f then setTreeState SCATTERED st
            else if isFist f then setTreeState TREE_SHAPE st
            else st in
          let st := updateScale (isPinching f) st in
          let avgX := totalX f / INR (length landmarks) in
          let rotationInfluence := (0.5 - avgX) * 5.0 in
          Some (setRotationMod rotationInfluence st)
      end
  end.

(** One video frame as [predict] sees it: the video's [currentTime] and
    [results.landmarks] of the detection ([None] when the field is absent). *)
Record VideoFrame : Type := mkFrame {
  currentTime : R;
  landmarks : option (list Hand)
}.

(** [predict], once the landmarker and the video element exist. *)
Definition predict (fr : VideoFrame) (st : State) : option State :=
  if neqb (lastVideoTime st) (currentTime fr) then
    let st := setLastVideoTime (currentTime fr) st in
    match landmarks fr with
    | Some l => processLandmarks l st
    | None => Some (updateScale false (setRotationMod 0 st))
    end
  else Some st.

(** [predict] over successive frames; an exception ends the polling. *)
Fixpoint predictAll (frames : list VideoFrame) (st : State) : option State :=
  match frames with
  | [] => Some st
  | fr :: rest =>
      match predict fr st with
      | None => None
      | Some st' => predictAll rest st'
      end
  end.

(** The classification of one hand the design document names. *)
Definition handAvgDist (hand : Hand) : option R :=
  match handPoints hand with
  | Some (wrist, _, indexTip, middleTip, ringTip, pinkyTip) =>
      Some (avgDist wrist indexTip middleTip ringTip pinkyTip)
  | None => None
  end.

Definition classifiedOpen (hand : Hand) : bool :=
  match handAvgDist hand with Some d => gtb d 0.4 | None => false end.

Definition classifiedFist (hand : Hand) : bool :=
  match handAvgDist hand with Some d => ltb d 0.25 | None => false end.

(** A hand whose thumb tip and index tip are less than 0.05 apart. *)
Definition pinching (hand : Hand) : bool :=
  match handPoints hand with
  | Some (_, thumbTip, indexTip, _, _, _) => ltb (pinchDist thumbTip indexTip) 0.05
  | None => false
  end.

(** A hand with all the landmarks the code indexes. *)
Definition wellFormed (hand : Hand) : Prop := (21 <= length hand)%nat.

(** A detection that saw no hand: no [landmarks] field, or an empty one. *)
Definition noHands (fr : VideoFrame) : Prop :=
  landmarks fr = None \/ landmarks fr = Some [].

(** Successive frames of the video: each has a [currentTime] other than the
    one [predict] saw last, so each is processed. *)
Fixpoint fresh (last : R) (frames : list VideoFrame) : Prop :=
  match frames with
  | [] => True
  | fr :: rest => currentTime fr <> last /\ fresh (currentTime fr) rest
  end.

(** Thirty frames, one per second of video, in which no hand is seen. *)
Definition idleFrames : list VideoFrame :=
  map (fun k => {| currentTime := INR k; landmarks := Some [] |}) (seq 0 30).

(** A hand held open: every landmark half a unit from the wrist. *)
Definition openHand : Hand :=
  mkLandmark 0.5 0.5 0 :: repeat (mkLandmark 0.5 1 0) 20.

(** The smoother is within its bounds, and published as it is. *)
Definition published (st : State) : Prop :=
  1 <= pinchSmoother st <= 10 /\ photoScale st = pinchSmoother st.


(** [updateScale] once per entry of [steps], each pinching or not. *)
Definition updateAll (steps : list bool) (st : State) : State :=
  fold_left (fun st isPinching => updateScale isPinching st) steps st.

End GestureController.

(** ** The random source *)

Module Random.

(** The successive results of [Math.random()]. *)
Definition Stream : Type := nat -> R.

(** What [Math.random()] promises: a number in the half-open unit interval. *)
Definition inUnit (rnd : Stream) : Prop := forall n : nat, 0 <= rnd n < 1.

(** The stream that always answers [c]. *)
Definition const (c : R) : Stream := fun _ => c.

(** A computation that draws random numbers: from the cursor to a result
    and the cursor after it. *)
Definition Draw (A : Type) : Type := nat -> A * nat.

Definition ret {A : Type} (a : A) : Draw A := fun c => (a, c).

Definition bind {A B : Type} (m : Draw A) (k : A -> Draw B) : Draw B :=
  fun c => let (a, c') := m c in k a c'.

(** [Math.random()]. *)
Definition next (rnd : Stream) : Draw R := fun c => (rnd c, S c).

End Random.

(** ** The cone the tree positions are laid on *)

Module Cone.
Import Num Types.

(** The cone's radius at height [y0]: the expression each of the three
    generators computes from its [y]. *)
Definition normalizedY (y0 : R) : R := (y0 + TREE_HEIGHT / 2) / TREE_HEIGHT.
Definition coneRadius (y0 : R) : R := TREE_RADIUS * (1.0 - normalizedY y0).

(** Distance of a position from the vertical axis of the tree. *)
Definition distanceFromAxis (p : Vector3) : R := hypot2 (vx p) (vz p).

(** The position lies between [lo] and [hi] times the cone's radius at its
    height. *)
Definition within (lo hi : R) (p : Vector3) : Prop :=
  lo * coneRadius (vy p) <= distanceFromAxis p <= hi * coneRadius (vy p).

End Cone.

(** ** src/components/Ornaments.tsx: the collision-aware placer *)

Module Ornaments.
Import Num Types Cone.

(** An entry of [placedItems]. *)
Record PlacedItem : Type := mkPlaced { pos : Vector3; radius : R }.

(** What the generation threads along: how many random numbers were drawn,
    and the [placedItems] array the helpers close over. *)
Record GenState : Type := mkGen {
  cursor : nat;
  placedItems : list PlacedItem
}.

Definition Gen (A : Type) : Type := GenState -> A * GenState.

Definition ret {A : Type} (a : A) : Gen A := fun s => (a, s).

Definition bind {A B : Type} (c : Gen A) (k : A -> Gen B) : Gen B :=
  fun s => let (a, s') := c s in k a s'.

Notation "x <- c ;; k" := (bind c (fun x => k))
  (at level 61, c at next level, right associativity).

(** [placedItems.push(p)]. *)
Definition push (p : PlacedItem) : Gen unit :=
  fun s => (tt, {| cursor := cursor s; placedItems := placedItems s ++ [p] |}).

Definition getPlaced : Gen (list PlacedItem) :=
  fun s => (placedItems s, s).

Fixpoint isColliding (placed : list PlacedItem) (p : Vector3) (r : R) : bool :=
  match placed with
  | [] => false
  | other :: rest =>
      let dist := distanceTo p (pos other) in
      if ltb dist ((r + radius other) * 0.85) then true
      else isColliding rest p r
  end.

(** The locals of one attempt of [createItem]. *)
Record Candidate : Type := mkCandidate {
  c_type : OrnamentType;
  c_weight : R;
  c_scale : R;
  c_color : Color;
  c_secondaryColor : option Color;
  c_collisionRadius : R
}.

Definition chooseType (typeRand : R) (overrideY : option R) : OrnamentType :=
  let t :=
    if ltb typeRand 0.30 then sphere
    else if ltb typeRand 0.50 then box
    else if ltb typeRand 0.65 then icicle
    else if ltb typeRand 0.80 then candyCane
    else snowflake in
  match overrideY with Some _ => bell | None => t end.

Section WithRandom.

Variable rnd : Random.Stream.

(** [Math.random()]. *)
Definition random : Gen R :=
  fun s => (rnd (cursor s),
            {| cursor := S (cursor s); placedItems := placedItems s |}).

(** "Properties based on type": the defaults, then the branch of the type. *)
Definition propertiesOf (t : OrnamentType) : Gen Candidate :=
  match t with
  | box =>
      r <- random ;;
      let scale := r * 0.4 + 0.5 in
      cRand <- random ;;
      let (color, secondary) :=
        if ltb cRand 0.4 then (RED_RUBY, GOLD_METALLIC)
        else if ltb cRand 0.7 then (EMERALD_DEEP, GOLD_METALLIC)
        else (GOLD_METALLIC, RED_RUBY) in
      ret {| c_type := box; c_weight := 0.02; c_scale := scale;
             c_color := color; c_secondaryColor := Some secondary;
             c_collisionRadius := scale * 0.7 |}
  | sphere =>
      r <- random ;;
      let scale := r * 0.4 + 0.3 in
      cRand <- random ;;
      let color :=
        if ltb cRand 0.4 then GOLD_METALLIC
        else if ltb cRand 0.7 then GOLD_ROSE
        else if ltb cRand 0.9 then WHITE_WARM
        else RED_RUBY in
      t' <- (if isGoldMetallic color
             then b <- random ;; ret (if ltb b 0.4 then bell else sphere)
             else ret sphere) ;;
      ret {| c_type := t'; c_weight := 0.05; c_scale := scale;
             c_color := color; c_secondaryColor := None;
             c_collisionRadius := scale |}
  | icicle =>
      r <- random ;;
      ret {| c_type := icicle; c_weight := 0.04; c_scale := r * 0.5 + 0.6;
             c_color := ICE_BLUE; c_secondaryColor := None;
             c_collisionRadius := 0.2 |}
  | candyCane =>
      r <- random ;;
      ret {| c_type := candyCane; c_weight := 0.04; c_scale := r * 0.4 + 0.6;
             c_color := PLAIN_WHITE; c_secondaryColor := None;
             c_collisionRadius := 0.3 |}
  | snowflake =>
      r <- random ;;
      let scale := r * 0.4 + 0.5 in
      ret {| c_type := snowflake; c_weight := 0.03; c_scale := scale;
             c_color := ICE_BLUE; c_secondaryColor := None;
             c_collisionRadius := scale * 0.6 |}
  | bell | star =>
      ret {| c_type := t; c_weight := 0.04; c_scale := 1.0;
             c_color := GOLD_METALLIC; c_secondaryColor := None;
             c_collisionRadius := 0.5 |}
  end.

(** [if (type === 'bell') ...], which overrides what the branch above set. *)
Definition bellOverride (c : Candidate) : Gen Candidate :=
  if isBell (c_type c) then
    r <- random ;;
    let scale := r * 0.4 + 0.5 in
    ret {| c_type := bell; c_weight := 0.03; c_scale := scale;
           c_color := GOLD_METALLIC; c_secondaryColor := c_secondaryColor c;
           c_collisionRadius := scale * 0.6 |}
  else ret c.

(** "Tree placement calculation". *)
Definition treePlacement (overrideY : option R) : Gen Vector3 :=
  y <- (match overrideY with
        | Some oy => ret oy
        | None => r <- random ;; ret (r * TREE_HEIGHT - TREE_HEIGHT / 2)
        end) ;;
  let coneRadiusAtY := coneRadius y in
  a <- random ;;
  let angle := a * PI * 2 in
  b <- random ;;
  let rBias := 0.9 + b * 0.25 in
  let r := coneRadiusAtY * rBias in
  let tx := cos angle * r in
  let tz := sin angle * r in
  ret (mkVector3 tx y tz).

(** Steps 1 and 2 of an attempt: the candidate and its tree position. *)
Definition sample (overrideY : option R) : Gen (Candidate * Vector3) :=
  typeRand <- random ;;
  c <- propertiesOf (chooseType typeRand overrideY) ;;
  c <- bellOverride c ;;
  p <- treePlacement overrideY ;;
  ret (c, p).

(** "Valid position found!": record it, then draw the scatter placement. *)
Definition accept (id : nat) (c : Candidate) (p : Vector3) : Gen OrnamentData :=
  _ <- push {| pos := p; radius := c_collisionRadius c |} ;;
  rx <- random ;;
  let sx := (rx - 0.5) * SCATTER_RADIUS * 1.5 in
  ry <- random ;;
  let sy := (ry - 0.5) * SCATTER_RADIUS * 1.5 in
  rz <- random ;;
  let sz := (rz - 0.5) * SCATTER_RADIUS * 1.5 in
  rs <- random ;;
  ret {| id := id; type := c_type c;
         scatterPos := mkVector3 sx sy sz; treePos := p;
         color := c_color c; secondaryColor := c_secondaryColor c;
         weight := c_weight c; scale := c_scale c;
         rotationSpeed := rs * 2 |}.

Definition maxAttempts : nat := 50.

(** Whether a candidate collides with what is placed. *)
Definition collides (placed : list PlacedItem) (cp : Candidate * Vector3) : bool :=
  isColliding placed (snd cp) (c_collisionRadius (fst cp)).

(** The candidates [n] attempts in a row draw, each after the other. *)
Fixpoint candidates (n : nat) (overrideY : option R)
  : Gen (list (Candidate * Vector3)) :=
  match n with
  | O => ret []
  | S k =>
      cp <- sample overrideY ;;
      rest <- candidates k overrideY ;;
      ret (cp :: rest)
  end.

(** The [while (attempts < maxAttempts)] loop, by the attempts that remain.
    The result carries the final value of [attempts]. *)
Fixpoint attemptLoop (remaining attempts : nat) (id : nat) (overrideY : option R)
  : Gen (option OrnamentData * nat) :=
  match remaining with
  | O => ret (None, attempts)
  | S k =>
      let attempts := S attempts in
      cp <- sample overrideY ;;
      placed <- getPlaced ;;
      if isColliding placed (snd cp) (c_collisionRadius (fst cp))
      then attemptLoop k attempts id overrideY
      else item <- accept id (fst cp) (snd cp) ;; ret (Some item, attempts)
  end.

Definition createItemCounting (id : nat) (overrideY : option R)
  : Gen (option OrnamentData * nat) :=
  attemptLoop maxAttempts 0 id overrideY.

Definition createItem (id : nat) (overrideY : option R) : Gen (option OrnamentData) :=
  r <- createItemCounting id overrideY ;; ret (fst r).

(** The six arrays the generation fills. *)
Record Arrays : Type := mkArrays {
  spheres : list OrnamentData;
  boxes : list OrnamentData;
  icicles : list OrnamentData;
  candyCanes : list OrnamentData;
  bells : list OrnamentData;
  snowflakes : list OrnamentData
}.

Definition noArrays : Arrays :=
  {| spheres := []; boxes := []; icicles := []; candyCanes := [];
     bells := []; snowflakes := [] |}.

Definition pushBell (item : OrnamentData) (a : Arrays) : Arrays :=
  {| spheres := spheres a; boxes := boxes a; icicles := icicles a;
     candyCanes := candyCanes a; bells := bells a ++ [item];
     snowflakes := snowflakes a |}.

(** The chain [if (item.type === 'box') bData.push(item) else ...]. *)
Definition pushByType (item : OrnamentData) (a : Arrays) : Arrays :=
  match type item with
  | box =>
      {| spheres := spheres a; boxes := boxes a ++ [item]; icicles := icicles a;
         candyCanes := candyCanes a; bells := bells a; snowflakes := snowflakes a |}
  | sphere =>
      {| spheres := spheres a ++ [item]; boxes := boxes a; icicles := icicles a;
         candyCanes := candyCanes a; bells := bells a; snowflakes := snowflakes a |}
  | icicle =>
      {| spheres := spheres a; boxes := boxes a; icicles := icicles a ++ [item];
         candyCanes := candyCanes a; bells := bells a; snowflakes := snowflakes a |}
  | candyCane =>
      {| spheres := spheres a; boxes := boxes a; icicles := icicles a;
         candyCanes := candyCanes a ++ [item]; bells := bells a;
         snowflakes := snowflakes a |}
  | bell => pushBell item a
  | snowflake =>
      {| spheres := spheres a; boxes := boxes a; icicles := icicles a;
         candyCanes := candyCanes a; bells := bells a;
         snowflakes := snowflakes a ++ [item] |}
  | star => a
  end.

(** How many values of the integer [i] satisfy [i < count * 1.5]
    (both counts the code uses are even). *)
Definition loopBound (count : nat) : nat := (count * 3 / 2)%nat.

(** "Main Generation Loop", by the iterations that remain. *)
Fixpoint mainLoop (remaining idCounter placedCount : nat) (a : Arrays)
  : Gen (nat * Arrays) :=
  match remaining with
  | O => ret (idCounter, a)
  | S k =>
      if (placedCount <? ORNAMENT_COUNT)%nat then
        item <- createItem idCounter None ;;
        match item with
        | Some it => mainLoop k (S idCounter) (S placedCount) (pushByType it a)
        | None => mainLoop k (S idCounter) placedCount a
        end
      else ret (idCounter, a)
  end.

Definition extraCount : nat := 120.

(** What the filler loop forces on an accepted item. *)
Definition asFiller (item : OrnamentData) (c : Color) : OrnamentData :=
  {| id := id item; type := bell;
     scatterPos := scatterPos item; treePos := treePos item;
     color := c; secondaryColor := secondaryColor item;
     weight := weight item; scale := 0.7;
     rotationSpeed := rotationSpeed item |}.

(** "Bottom Filler Loop". *)
Fixpoint fillerLoop (remaining idCounter extraPlaced : nat) (a : Arrays)
  : Gen (nat * Arrays) :=
  match remaining with
  | O => ret (idCounter, a)
  | S k =>
      if (extraPlaced <? extraCount)%nat then
        r <- random ;;
        let bottomY := r * 4.0 - TREE_HEIGHT / 2 in
        item <- createItem idCounter (Some bottomY) ;;
        match item with
        | Some it =>
            rc <- random ;;
            let c := if gtb rc 0.5 then GOLD_METALLIC else GOLD_ROSE in
            fillerLoop k (S idCounter) (S extraPlaced) (pushBell (asFiller it c) a)
        | None => fillerLoop k (S idCounter) extraPlaced a
        end
      else ret (idCounter, a)
  end.

(** The body of the [useMemo] of [Ornaments]. *)
Definition generate : Gen Arrays :=
  r <- mainLoop (loopBound ORNAMENT_COUNT) 0 0 noArrays ;;
  r <- fillerLoop (loopBound extraCount) (fst r) 0 (snd r) ;;
  ret (snd r).

End WithRandom.

(** What one iteration of either generation loop can do to the arrays and
    to the generation state: place an item of the main loop, place a filler
    at a drawn height of the bottom band, drop an item, or draw a number. *)
Inductive Step (rnd : Random.Stream) : Arrays * GenState -> Arrays * GenState -> Prop :=
| step_main (a : Arrays) (s s' : GenState) (id0 : nat) (item : OrnamentData) :
    createItem rnd id0 None s = (Some item, s') ->
    Step rnd (a, s) (pushByType item a, s')
| step_filler (a : Arrays) (s s' : GenState) (id0 k : nat)
              (item : OrnamentData) (c : Color) :
    createItem rnd id0 (Some (rnd k * 4.0 - TREE_HEIGHT / 2)) s = (Some item, s') ->
    Step rnd (a, s) (pushBell (asFiller item c) a, s')
| step_dropped (a : Arrays) (s s' : GenState) (id0 : nat) (oy : option R) :
    createItem rnd id0 oy s = (None, s') ->
    Step rnd (a, s) (a, s')
| step_draw (a : Arrays) (s : GenState) :
    Step rnd (a, s) (a, snd (random rnd s)).

Inductive Steps (rnd : Random.Stream) : Arrays * GenState -> Arrays * GenState -> Prop :=
| steps_done (x : Arrays * GenState) : Steps rnd x x
| steps_next (x y z : Arrays * GenState) :
    Step rnd x y -> Steps rnd y z -> Steps rnd x z.

(** Two placements are apart when their distance is at least 0.85 times the
    sum of their radii. *)
Definition apart (a b : PlacedItem) : Prop :=
  0.85 * (radius a + radius b) <= distanceTo (pos a) (pos b).

(** What an accepted item takes from its candidate [cp], and what the
    acceptance does to [placedItems]. *)
Definition acceptedFrom (id0 : nat) (cp : Candidate * Vector3)
           (placed placed' : list PlacedItem) (item : OrnamentData) : Prop :=
  collides placed cp = false
  /\ placed' = placed ++ [{| pos := snd cp; radius := c_collisionRadius (fst cp) |}]
  /\ treePos item = snd cp
  /\ weight item = c_weight (fst cp)
  /\ type item = c_type (fst cp)
  /\ id item = id0.

(** What a stream of zeros draws: a golden sphere turned bell, at the foot
    of the cone, at angle 0 and 90% of the radius. *)
Definition zeroCandidate : Candidate :=
  {| c_type := bell; c_weight := 0.03; c_scale := 0.5;
     c_color := GOLD_METALLIC; c_secondaryColor := None;
     c_collisionRadius := 0.3 |}.

Definition zeroPosition : Vector3 := mkVector3 5.85 (-9) 0.

(** The ornament the first [createItem] of a generation returns then. *)
Definition zeroItem : OrnamentData :=
  {| id := 0; type := bell;
     scatterPos := mkVector3 ((0 - 0.5) * SCATTER_RADIUS * 1.5)
                             ((0 - 0.5) * SCATTER_RADIUS * 1.5)
                             ((0 - 0.5) * SCATTER_RADIUS * 1.5);
     treePos := zeroPosition;
     color := GOLD_METALLIC; secondaryColor := None;
     weight := 0.03; scale := 0.5; rotationSpeed := 0 * 2 |}.

(** Twelve zeros, then halves: the first item is [zeroItem]; the second
    draws an icicle half way up, at angle pi and 102.5% of the radius. *)
Definition zerosThenHalves : Random.Stream :=
  fun k => if (k <? 12)%nat then 0 else 0.5.

Definition halfCandidate : Candidate :=
  {| c_type := icicle; c_weight := 0.04; c_scale := 0.85;
     c_color := ICE_BLUE; c_secondaryColor := None;
     c_collisionRadius := 0.2 |}.

Definition halfPosition : Vector3 := mkVector3 (-3.33125) 0 0.

(** A state in which something so large is placed that nothing else fits. *)
Definition crowded : GenState :=
  {| cursor := 0; placedItems := [{| pos := mkVector3 0 0 0; radius := 100 |}] |}.

(** Every two placements of a list are apart, whichever comes first. *)
Definition spaced (placed : list PlacedItem) : Prop :=
  ForallOrdPairs (fun a b => apart a b /\ apart b a) placed.

(** Every ornament of the six arrays. *)
Definition allItems (a : Arrays) : list OrnamentData :=
  spheres a ++ boxes a ++ icicles a ++ candyCanes a ++ bells a ++ snowflakes a.

(** The state the generation starts from: nothing placed yet. *)
Definition start (c : nat) : GenState := {| cursor := c; placedItems := [] |}.

End Ornaments.

(** ** Typed arrays *)

Module Float32Array.

(** [arr[i]]; the code never reads outside the array, where the model
    answers [0]. *)
Definition get (arr : list R) (i : nat) : R := nth i arr 0.

(** [arr[i] = v]; a write outside a typed array is ignored. *)
Fixpoint set (arr : list R) (i : nat) (v : R) : list R :=
  match arr, i with
  | [], _ => []
  | _ :: rest, O => v :: rest
  | a :: rest, S k => a :: set rest k v
  end.

(** The array that stores the vectors of [l] one after the other, three
    numbers each. *)
Fixpoint ofVectors (l : list Types.Vector3) : list R :=
  match l with
  | [] => []
  | v :: rest => Types.vx v :: Types.vy v :: Types.vz v :: ofVectors rest
  end.

(** The vector stored at index [i * 3]. *)
Definition vectorAt (arr : list R) (i : nat) : Types.Vector3 :=
  Types.mkVector3 (get arr (i * 3)) (get arr (i * 3 + 1)) (get arr (i * 3 + 2)).

End Float32Array.

(** ** src/components/Foliage.tsx *)

Module Foliage.
Import Num Types.

Notation "x <- c ;; k" := (Random.bind c (fun x => k))
  (at level 61, c at next level, right associativity).

(** What one iteration of the generation loop computes for particle [i]. *)
Record Particle : Type := mkParticle {
  p_tree : Vector3;
  p_scatter : Vector3;
  p_random : R;
  p_size : R
}.

Section WithRandom.

Variable rnd : Random.Stream.

Definition particle (i : nat) : Random.Draw Particle :=
  r <- Random.next rnd ;;
  let y := r * TREE_HEIGHT - TREE_HEIGHT / 2 in
  let normalizedY := (y + TREE_HEIGHT / 2) / TREE_HEIGHT in
  let maxRadiusAtY := TREE_RADIUS * (1.0 - normalizedY) in
  r <- Random.next rnd ;;
  let rBias := 0.4 + 0.6 * sqrt r in
  let radius := maxRadiusAtY * rBias in
  r <- Random.next rnd ;;
  let angle := INR i * 2.39996 + r * 0.1 in
  let tx := cos angle * radius in
  let tz := sin angle * radius in
  let ty := y in
  u <- Random.next rnd ;;
  v <- Random.next rnd ;;
  let theta := 2 * PI * u in
  let phi := acos (2 * v - 1) in
  r <- Random.next rnd ;;
  let r := SCATTER_RADIUS * (0.5 + 0.5 * cbrt r) in
  let scat := mkVector3 (r * sin phi * cos theta)
                        (r * sin phi * sin theta)
                        (r * cos phi) in
  rand <- Random.next rnd ;;
  r <- Random.next rnd ;;
  let sizeBase := 0.15 + r * 0.25 in
  Random.ret {| p_tree := mkVector3 tx ty tz; p_scatter := scat;
                p_random := rand;
                p_size := sizeBase * (1.2 - normalizedY * 0.4) |}.

(** [for (let i = 0; i < count; i++)], by the particles that remain. *)
Fixpoint particles (remaining i : nat) : Random.Draw (list Particle) :=
  match remaining with
  | O => Random.ret []
  | S k =>
      p <- particle i ;;
      rest <- particles k (S i) ;;
      Random.ret (p :: rest)
  end.

End WithRandom.

(** The four attribute arrays the [useMemo] returns. *)
Record Geometry : Type := mkGeometry {
  positions : list R;
  scatterPositions : list R;
  randoms : list R;
  sizes : list R
}.

Definition geometryOf (ps : list Particle) : Geometry :=
  {| positions := Float32Array.ofVectors (map p_tree ps);
     scatterPositions := Float32Array.ofVectors (map p_scatter ps);
     randoms := map p_random ps;
     sizes := map p_size ps |}.

Definition generate (rnd : Random.Stream) (count : nat) : Random.Draw Geometry :=
  ps <- particles rnd count 0 ;; Random.ret (geometryOf ps).

(** The component after its [useMemo]: the geometry and the two uniforms
    the frame callback writes. *)
Record State : Type := mkState {
  geometry : Geometry;
  uTime : R;
  uMorphFactor : R
}.

Definition mount (g : Geometry) : State :=
  {| geometry := g; uTime := 0; uMorphFactor := 0 |}.

(** The [useFrame] callback, once the shader material exists. *)
Definition frame (time : R) (treeState : TreeState) (st : State) : State :=
  let targetFactor := if isTreeShape treeState then 1.0 else 0.0 in
  {| geometry := geometry st;
     uTime := time;
     uMorphFactor := MathUtils.lerp (uMorphFactor st) targetFactor 0.03 |}.

(** The callback over successive frames, each with its elapsed time and
    the Mode it is rendered in. *)
Fixpoint run (history : list (R * TreeState)) (st : State) : State :=
  match history with
  | [] => st
  | (time, treeState) :: rest => run rest (frame time treeState st)
  end.

(** The vertex shader's blend of a particle: [easeOutCubic] of the morph
    factor mixes the scatter and the tree position. *)
Definition easeOutCubic (t : R) : R := 1.0 - (1.0 - t) ^ 3.

Definition mix (a b t : R) : R := a * (1 - t) + b * t.

Definition blended (st : State) (i : nat) : Vector3 :=
  let t := easeOutCubic (uMorphFactor st) in
  let tree := Float32Array.vectorAt (positions (geometry st)) i in
  let scat := Float32Array.vectorAt (scatterPositions (geometry st)) i in
  mkVector3 (mix (vx scat) (vx tree) t)
            (mix (vy scat) (vy tree) t)
            (mix (vz scat) (vz tree) t).

End Foliage.

(** ** src/App.tsx *)

Module App.
Import Num Types.

Notation "x <- c ;; k" := (Random.bind c (fun x => k))
  (at level 61, c at next level, right associativity).

Section WithRandom.

Variable rnd : Random.Stream.

Definition calculateTreePos (index : nat) : Random.Draw Vector3 :=
  let h := TREE_HEIGHT in
  r <- Random.next rnd ;;
  let y := r * (h - 4) - (h / 2 - 2) in
  let normalizedY := (y + h / 2) / h in
  let rBase := TREE_RADIUS * (1.0 - normalizedY) in
  let r := rBase * 1.25 in
  t <- Random.next rnd ;;
  let theta := t * PI * 2 in
  Random.ret (mkVector3 (cos theta * r) y (sin theta * r)).

(** The [newPhoto] literal of [handlePhotoUpload]: [now] is [Date.now()],
    [width] and [height] the decoded image's. *)
Definition newPhoto (now : nat) (width height : R)
           (photos : list (PhotoItem Vector3)) : Random.Draw (PhotoItem Vector3) :=
  let aspectRatio := width / height in
  rx <- Random.next rnd ;;
  ry <- Random.next rnd ;;
  rz <- Random.next rnd ;;
  let scatter := mkVector3 ((rx - 0.5) * SCATTER_RADIUS)
                           ((ry - 0.5) * SCATTER_RADIUS)
                           ((rz - 0.5) * SCATTER_RADIUS) in
  tree <- calculateTreePos (length photos) ;;
  rs <- Random.next rnd ;;
  Random.ret {| photoId := now; photoScatterPos := scatter;
                photoTreePos := tree; photoRotationSpeed := rs * 2 + 1;
                aspectRatio := aspectRatio |}.


End WithRandom.

End App.

(** ** src/components/Ornaments.tsx: the frame callback *)

Module OrnamentsFrame.
Import Num Types.

Inductive RotationMode : Type := none | vertical | flat | spinZ.

(** The orientation [tempObject] has when its matrix is taken: Euler angles,
    or "look at the axis at height [targetY], turn by pi, spin by [spin]". *)
Inductive Rotation : Type :=
| Euler (rx ry rz : R)
| FaceOutSpin (targetY spin : R).

(** What [tempObject.updateMatrix()] composes into an instance matrix. *)
Record Transform : Type := mkTransform {
  t_position : Vector3;
  t_scale : R;
  t_rotation : Rotation
}.

(** The arguments of one [updateMesh] call: an instanced mesh ([None] while
    its ref is null), the items, their live positions and, for the boxes,
    the ribbon mesh. *)
Record Batch : Type := mkBatch {
  mesh : option (list Transform);
  items : list OrnamentData;
  posArr : list R;
  rotationMode : RotationMode;
  secondaryMesh : option (list Transform)
}.

Section Frame.

Variable time : R.
Variable isTree : bool.

(** "Rotation Logic". *)
Definition rotationOf (mode : RotationMode) (item : OrnamentData) : Rotation :=
  let id := INR (id item) in
  if isTree then
    match mode with
    | vertical =>
        Euler (if isBell (type item) then sin (time * 3 + id) * 0.1 else 0)
              (time * 0.5 + id)
              (sin (time * 2 + id) * 0.1)
    | spinZ => FaceOutSpin (vy (treePos item)) (time + id)
    | none | flat => Euler 0 (time * 0.5 + id) 0
    end
  else
    Euler (time * rotationSpeed item * 0.5) (time * rotationSpeed item) (time * 0.2).

(** "Lerp Position": the three writes into [posArr] for item [i]. *)
Definition lerpPosition (i : nat) (item : OrnamentData) (posArr : list R) : list R :=
  let target := if isTree then treePos item else scatterPos item in
  let idx := (i * 3)%nat in
  let speed := if isTree then weight item else weight item * 2.5 in
  let posArr :=
    Float32Array.set posArr idx
      (MathUtils.lerp (Float32Array.get posArr idx) (vx target) speed) in
  let posArr :=
    Float32Array.set posArr (idx + 1)
      (MathUtils.lerp (Float32Array.get posArr (idx + 1)) (vy target) speed) in
  Float32Array.set posArr (idx + 2)
    (MathUtils.lerp (Float32Array.get posArr (idx + 2)) (vz target) speed).

(** The matrix written for item [i], from the position just stored. *)
Definition matrixOf (mode : RotationMode) (i : nat) (item : OrnamentData)
           (posArr : list R) : Transform :=
  {| t_position := Float32Array.vectorAt posArr i;
     t_scale := scale item;
     t_rotation := rotationOf mode item |}.

(** The ribbon's matrix: the same transform with the pulsing scale. *)
Definition ribbonOf (mode : RotationMode) (i : nat) (item : OrnamentData)
           (posArr : list R) : Transform :=
  let pulse := 1.0 + 0.015 * (1.0 + sin (time * 2.5 + INR (id item))) in
  {| t_position := Float32Array.vectorAt posArr i;
     t_scale := scale item * pulse;
     t_rotation := rotationOf mode item |}.

(** [for (let i = 0; i < items.length; i++)] over the items from index [i]
    on: the positions after the loop, and the matrices it wrote. *)
Fixpoint meshLoop (mode : RotationMode) (rest : list OrnamentData) (i : nat)
         (posArr : list R) : list R * list Transform * list Transform :=
  match rest with
  | [] => (posArr, [], [])
  | item :: rest' =>
      let posArr := lerpPosition i item posArr in
      let m := matrixOf mode i item posArr in
      let r := ribbonOf mode i item posArr in
      let '(posArr', ms, rs) := meshLoop mode rest' (S i) posArr in
      (posArr', m :: ms, r :: rs)
  end.

Definition updateMesh (b : Batch) : Batch :=
  match mesh b with
  | None => b
  | Some _ =>
      let '(posArr', ms, rs) := meshLoop (rotationMode b) (items b) 0 (posArr b) in
      {| mesh := Some ms;
         items := items b;
         posArr := posArr';
         rotationMode := rotationMode b;
         secondaryMesh :=
           match secondaryMesh b with Some _ => Some rs | None => None end |}
  end.

End Frame.

(** The component after its [useMemo] and [useLayoutEffect]. *)
Record State : Type := mkState {
  sphereBatch : Batch;
  boxBatch : Batch;
  icicleBatch : Batch;
  candyCaneBatch : Batch;
  bellBatch : Batch;
  snowflakeBatch : Batch
}.

(** [initPositions]: every item starts at its scatter position. *)
Definition initPositions (items : list OrnamentData) : list R :=
  Float32Array.ofVectors (map scatterPos items).

(** A mounted mesh holds one matrix per item. *)
Definition mounted (items : list OrnamentData) : option (list Transform) :=
  Some (map (fun item =>
               {| t_position := mkVector3 0 0 0; t_scale := 1;
                  t_rotation := Euler 0 0 0 |}) items).

Definition batchOf (mode : RotationMode) (ribbon : bool)
           (items : list OrnamentData) : Batch :=
  {| mesh := mounted items; items := items; posArr := initPositions items;
     rotationMode := mode;
     secondaryMesh := if ribbon then mounted items else None |}.

Definition mount (a : Ornaments.Arrays) : State :=
  {| sphereBatch := batchOf none false (Ornaments.spheres a);
     boxBatch := batchOf none true (Ornaments.boxes a);
     icicleBatch := batchOf vertical false (Ornaments.icicles a);
     candyCaneBatch := batchOf vertical false (Ornaments.candyCanes a);
     bellBatch := batchOf vertical false (Ornaments.bells a);
     snowflakeBatch := batchOf spinZ false (Ornaments.snowflakes a) |}.

(** The [useFrame] callback: the six [updateMesh] calls. *)
Definition frame (time : R) (treeState : TreeState) (st : State) : State :=
  let isTree := isTreeShape treeState in
  {| sphereBatch := updateMesh time isTree (sphereBatch st);
     boxBatch := updateMesh time isTree (boxBatch st);
     icicleBatch := updateMesh time isTree (icicleBatch st);
     candyCaneBatch := updateMesh time isTree (candyCaneBatch st);
     bellBatch := updateMesh time isTree (bellBatch st);
     snowflakeBatch := updateMesh time isTree (snowflakeBatch st) |}.

(** The callback of one batch over successive frames, each with its
    elapsed time and the Mode it is rendered in. *)
Fixpoint run (history : list (R * TreeState)) (b : Batch) : Batch :=
  match history with
  | [] => b
  | (time, treeState) :: rest =>
      run rest (updateMesh time (isTreeShape treeState) b)
  end.

(** [n] frames rendered in Mode [m], at the times [clock 0], [clock 1], ... *)
Definition phase (m : TreeState) (clock : nat -> R) (n : nat)
  : list (R * TreeState) :=
  map (fun k => (clock k, m)) (seq 0 n).

(** The live position of item [i] of a batch. *)
Definition currentPosition (b : Batch) (i : nat) : Vector3 :=
  Float32Array.vectorAt (posArr b) i.

(** The target and the speed of an item in a Mode, and one smoothing step of
    a position: what [lerpPosition] does to the three numbers of an item. *)
Definition targetOf (isTree : bool) (item : OrnamentData) : Vector3 :=
  if isTree then treePos item else scatterPos item.

Definition speedOf (isTree : bool) (item : OrnamentData) : R :=
  if isTree then weight item else weight item * 2.5.

Definition lerpVector (v target : Vector3) (speed : R) : Vector3 :=
  mkVector3 (MathUtils.lerp (vx v) (vx target) speed)
            (MathUtils.lerp (vy v) (vy target) speed)
            (MathUtils.lerp (vz v) (vz target) speed).

Fixpoint moveAll (isTree : bool) (items : list OrnamentData) (vs : list Vector3)
  : list Vector3 :=
  match items, vs with
  | item :: items', v :: vs' =>
      lerpVector v (targetOf isTree item) (speedOf isTree item)
      :: moveAll isTree items' vs'
  | _, _ => vs
  end.

(** A batch whose mesh is mounted and whose array holds three numbers per
    item. *)
Definition wellShaped (b : Batch) : Prop :=
  mesh b <> None /\ length (posArr b) = (3 * length (items b))%nat.

(** The bell batch of a scene whose only ornament is [Ornaments.zeroItem]. *)
Definition zeroBatch : Batch := batchOf vertical false [Ornaments.zeroItem].

(** A mounted batch whose live positions are the targets of Mode [isTree]. *)
Definition atRest (isTree : bool) (mode : RotationMode)
           (its : list OrnamentData) : Batch :=
  {| mesh := mounted its; items := its;
     posArr := Float32Array.ofVectors (map (targetOf isTree) its);
     rotationMode := mode; secondaryMesh := None |}.

(** Every item of the six batches, in the order of [Ornaments.allItems]. *)
Definition allItems (st : State) : list OrnamentData :=
  items (sphereBatch st) ++ items (boxBatch st) ++ items (icicleBatch st)
  ++ items (candyCaneBatch st) ++ items (bellBatch st)
  ++ items (snowflakeBatch st).

End OrnamentsFrame.

(** ** src/components/PhotoFrames.tsx *)

Module PhotoFrames.
Import Num Types.

(** The [THREE.Vector3] objects the frames share, by reference: a method
    call writes the object it is called on and only reads its argument. *)
Definition Ref : Type := nat.
Definition Heap : Type := Ref -> Vector3.

Definition write (h : Heap) (r : Ref) (v : Vector3) : Heap :=
  fun r' => if Nat.eqb r' r then v else h r'.

(** The objects allocated so far. *)
Record Store : Type := mkStore { next : Ref; heap : Heap }.

(** [new THREE.Vector3(...)]. *)
Definition alloc (v : Vector3) (s : Store) : Ref * Store :=
  (next s, {| next := S (next s); heap := write (heap s) (next s) v |}).

(** [this.lerp(v, alpha)]: [this.x += (v.x - this.x) * alpha], and so on. *)
Definition lerp (this : Ref) (v : Vector3) (alpha : R) (h : Heap) : Heap :=
  write h this
    (mkVector3 (MathUtils.smooth (vx (h this)) (vx v) alpha)
               (MathUtils.smooth (vy (h this)) (vy v) alpha)
               (MathUtils.smooth (vz (h this)) (vz v) alpha)).

(** [this.y += d]. *)
Definition addY (this : Ref) (d : R) (h : Heap) : Heap :=
  write h this (mkVector3 (vx (h this)) (vy (h this) + d) (vz (h this))).

Section WithOrientation.

(** The orientation of an object and the three.js operations on it that the
    callback uses; their arithmetic plays no part in the positions. *)
Variable Orientation : Type.
Variable identity : Orientation.
Variable slerp : Orientation -> Orientation -> R -> Orientation.
Variable lookAt : Vector3 -> Vector3 -> Orientation.
Variable tumble : Orientation -> R -> R -> R -> Orientation.

(** The parent of a frame's group: its inverse world matrix applied to a
    point, and the inverse of its world quaternion. *)
Record Parent : Type := mkParent {
  toLocal : Vector3 -> Vector3;
  inverseWorldQuaternion : Orientation
}.

(** The [THREE.Group] of a frame: its position object, its uniform scale
    (only [setScalar] writes it) and its orientation. *)
Record Group : Type := mkGroup {
  position : Ref;
  scale : R;
  orientation : Orientation
}.

(** A [FrameMesh]: its photo and its group ([None] while the ref is null). *)
Record FrameMesh : Type := mkFrameMesh {
  photo : PhotoItem Ref;
  group : option Group
}.

(** What a frame callback reads from outside the component. *)
Record Input : Type := mkInput {
  time : R;
  treeState : TreeState;
  globalScale : R;
  parent : option Parent
}.

(** The smoothing step of the standard mode:
    [position.lerp(targetPos, isTree ? 0.08 : 0.02)]. *)
Definition approach (isTree : bool) (p : PhotoItem Ref) (g : Group) (h : Heap)
  : Heap :=
  let targetPos := if isTree then photoTreePos p else photoScatterPos p in
  lerp (position g) (h targetPos) (if isTree then 0.08 else 0.02) h.

(** Smoothing steps in a row, one per Mode of the list. *)
Fixpoint approaches (modes : list bool) (p : PhotoItem Ref) (g : Group) (h : Heap)
  : Heap :=
  match modes with
  | [] => h
  | isTree :: rest => approaches rest p g (approach isTree p g h)
  end.

(** The [useFrame] callback of one [FrameMesh]. *)
Definition frameMesh (inp : Input) (fm : FrameMesh) (h : Heap) : FrameMesh * Heap :=
  match group fm with
  | None => (fm, h)
  | Some g =>
      let p := photo fm in
      let isTree := isTreeShape (treeState inp) in
      let isZooming := gtb (globalScale inp) 2.0 in
      let nextScale := MathUtils.lerp (scale g) (globalScale inp) 0.1 in
      match (if isZooming then parent inp else None) with
      | Some parent =>
          let offset := INR ((photoId p mod 1000) mod 10) in
          let targetWorldPos := mkVector3 0 4 (25 + offset * 0.05) in
          let targetLocalPos := toLocal parent targetWorldPos in
          let h := lerp (position g) targetLocalPos 0.2 h in
          let targetLocalQuat := inverseWorldQuaternion parent in
          ({| photo := p;
              group := Some {| position := position g; scale := nextScale;
                               orientation :=
                                 slerp (orientation g) targetLocalQuat 0.2 |} |},
           h)
      | None =>
          let h := approach isTree p g h in
          if isTree then
            let lookTarget := mkVector3 0 (vy (h (photoTreePos p))) 0 in
            let dummy := lookAt (h (position g)) lookTarget in
            let h := addY (position g)
                          (sin (time inp * 2 + INR (photoId p)) * 0.002) h in
            ({| photo := p;
                group := Some {| position := position g; scale := nextScale;
                                 orientation := slerp (orientation g) dummy 0.1 |} |},
             h)
          else
            let rs := photoRotationSpeed p in
            ({| photo := p;
                group := Some {| position := position g; scale := nextScale;
                                 orientation :=
                                   tumble (orientation g)
                                          (rs * 0.01) (rs * 0.02) (rs * 0.005) |} |},
             h)
      end
  end.

(** The callbacks of all the frames, one after the other. *)
Fixpoint frameAll (inp : Input) (fms : list FrameMesh) (h : Heap)
  : list FrameMesh * Heap :=
  match fms with
  | [] => ([], h)
  | fm :: rest =>
      let (fm', h1) := frameMesh inp fm h in
      let (rest', h2) := frameAll inp rest h1 in
      (fm' :: rest', h2)
  end.

(** A photo enters the scene: its two vectors are objects of their own, and
    the group [FrameMesh] renders brings its position object, at the origin. *)
Definition mountPhoto (p : PhotoItem Vector3) (s : Store) : FrameMesh * Store :=
  let (rs, s) := alloc (photoScatterPos p) s in
  let (rt, s) := alloc (photoTreePos p) s in
  let (rg, s) := alloc (mkVector3 0 0 0) s in
  ({| photo := {| photoId := photoId p; photoScatterPos := rs;
                  photoTreePos := rt;
                  photoRotationSpeed := photoRotationSpeed p;
                  aspectRatio := aspectRatio p |};
      group := Some {| position := rg; scale := 1; orientation := identity |} |},
   s).

(** The objects a frame refers to: those of its photo, and its group's
    position. *)
Definition refsOf (fm : FrameMesh) : PhotoItem Ref * option Ref :=
  (photo fm, option_map position (group fm)).

(** No group's position object is one of the photos' vectors. *)
Definition separated (fms : list FrameMesh) : Prop :=
  forall fm fm' g, In fm fms -> In fm' fms -> group fm = Some g ->
    position g <> photoTreePos (photo fm')
    /\ position g <> photoScatterPos (photo fm').

End WithOrientation.

Arguments photo {Orientation}.
Arguments group {Orientation}.
Arguments position {Orientation}.
Arguments scale {Orientation}.
Arguments orientation {Orientation}.
Arguments time {Orientation}.
Arguments treeState {Orientation}.
Arguments globalScale {Orientation}.
Arguments parent {Orientation}.
Arguments separated {Orientation}.
Arguments approach {Orientation}.
Arguments approaches {Orientation}.
Arguments refsOf {Orientation}.

End PhotoFrames.

(** ** src/components/Scene.tsx and src/App.tsx: the life of the scene *)

Module Scene.
Import Num Types.

Section WithOrientation.

Variable Orientation : Type.
Variable identity : Orientation.
Variable slerp : Orientation -> Orientation -> R -> Orientation.
Variable lookAt : Vector3 -> Vector3 -> Orientation.
Variable tumble : Orientation -> R -> R -> R -> Orientation.

(** Everything the frame loop animates: the ornaments, the foliage, and the
    photo frames with the vector objects they share. *)
Record World : Type := mkWorld {
  ornaments : OrnamentsFrame.State;
  foliage : Foliage.State;
  frames : list (PhotoFrames.FrameMesh Orientation);
  store : PhotoFrames.Store
}.

(** What happens to the scene: a frame is rendered, or an uploaded photo
    arrives from [handlePhotoUpload]. *)
Inductive Event : Type :=
| Render (inp : PhotoFrames.Input Orientation)
| Upload (p : PhotoItem Vector3).

(** One rendered frame: the callbacks of the foliage, of the ornaments and
    of the photo frames. *)
Definition frame (inp : PhotoFrames.Input Orientation) (w : World) : World :=
  let time := PhotoFrames.time inp in
  let treeState := PhotoFrames.treeState inp in
  let (fms, h) :=
    PhotoFrames.frameAll Orientation slerp lookAt tumble inp (frames w)
                         (PhotoFrames.heap (store w)) in
  {| ornaments := OrnamentsFrame.frame time treeState (ornaments w);
     foliage := Foliage.frame time treeState (foliage w);
     frames := fms;
     store := {| PhotoFrames.next := PhotoFrames.next (store w);
                 PhotoFrames.heap := h |} |}.

(** [setPhotos(prev => [...prev, newPhoto])] and the [FrameMesh] it mounts. *)
Definition upload (p : PhotoItem Vector3) (w : World) : World :=
  let (fm, s) := PhotoFrames.mountPhoto Orientation identity p (store w) in
  {| ornaments := ornaments w;
     foliage := foliage w;
     frames := frames w ++ [fm];
     store := s |}.

Definition step (e : Event) (w : World) : World :=
  match e with
  | Render inp => frame inp w
  | Upload p => upload p w
  end.

Fixpoint run (events : list Event) (w : World) : World :=
  match events with
  | [] => w
  | e :: rest => run rest (step e w)
  end.

(** The scene as it starts: the generated ornaments and foliage, no photo. *)
Definition create (a : Ornaments.Arrays) (g : Foliage.Geometry) : World :=
  {| ornaments := OrnamentsFrame.mount a;
     foliage := Foliage.mount g;
     frames := [];
     store := {| PhotoFrames.next := 0%nat;
                 PhotoFrames.heap := fun _ => mkVector3 0 0 0 |} |}.

(** The photos uploaded in the course of some events, in their order. *)
Fixpoint uploaded (events : list Event) : list (PhotoItem Vector3) :=
  match events with
  | [] => []
  | Render _ :: rest => uploaded rest
  | Upload p :: rest => p :: uploaded rest
  end.

(** The scatter and the tree position of every photo, read through the
    store. *)
Definition photoTargets (w : World) : list (Vector3 * Vector3) :=
  map (fun fm =>
         (PhotoFrames.heap (store w) (photoScatterPos (PhotoFrames.photo fm)),
          PhotoFrames.heap (store w) (photoTreePos (PhotoFrames.photo fm))))
      (frames w).

(** The scatter and the tree position of every ornament. *)
Definition ornamentTargets (w : World) : list (Vector3 * Vector3) :=
  map (fun item => (scatterPos item, treePos item))
      (OrnamentsFrame.allItems (ornaments w)).

(** The scatter and the tree positions of the foliage particles. *)
Definition foliageTargets (w : World) : list R * list R :=
  (Foliage.scatterPositions (Foliage.geometry (foliage w)),
   Foliage.positions (Foliage.geometry (foliage w))).

(** The objects of the frames are allocated, and no group's position is
    one of the photos' vectors. *)
Definition sound (w : World) : Prop :=
  PhotoFrames.separated (frames w)
  /\ forall fm, In fm (frames w) ->
       (photoScatterPos (PhotoFrames.photo fm) < PhotoFrames.next (store w))%nat
       /\ (photoTreePos (PhotoFrames.photo fm) < PhotoFrames.next (store w))%nat
       /\ forall g, PhotoFrames.group fm = Some g ->
                    (PhotoFrames.position g < PhotoFrames.next (store w))%nat.

End WithOrientation.

Arguments ornaments {Orientation}.
Arguments foliage {Orientation}.
Arguments frames {Orientation}.
Arguments store {Orientation}.
Arguments Render {Orientation}.
Arguments Upload {Orientation}.
Arguments uploaded {Orientation}.
Arguments photoTargets {Orientation}.
Arguments ornamentTargets {Orientation}.
Arguments foliageTargets {Orientation}.
Arguments sound {Orientation}.

End Scene.

(** ** src/components/UI.tsx *)

Module UI.
Import Num.

(** [toggleZoom]: the value the zoom button passes to [setPhotoScale]. *)
Definition toggleZoom (photoScale : R) : R :=
  if gtb photoScale 1.5 then 1.0 else 10.0.

(** The zoom button is drawn active when [photoScale > 1.5]. *)
Definition zoomShown (photoScale : R) : bool := gtb photoScale 1.5.

End UI.

(** ** src/components/Scene.tsx: the rotating group *)

Module TreeGroup.
Import Types.

(** "If SCATTERED: no automatic rotation; if TREE_SHAPE: 0.15". *)
Definition baseSpeed (treeState : TreeState) : R :=
  match treeState with SCATTERED => 0 | TREE_SHAPE => 0.15 end.

(** What one frame callback reads: the frame's [delta] and the two props. *)
Record Tick : Type := mkTick {
  delta : R;
  treeState : TreeState;
  rotationMod : R
}.

(** The [useFrame] callback, once the group is mounted: the new
    [rotation.y]. *)
Definition frame (t : Tick) (rotationY : R) : R :=
  rotationY + delta t * (baseSpeed (treeState t) + rotationMod t).

Fixpoint run (ticks : list Tick) (rotationY : R) : R :=
  match ticks with
  | [] => rotationY
  | t :: rest => run rest (frame t rotationY)
  end.

(** The time the ticks span, and the part of it spent in Mode TREE_SHAPE. *)
Fixpoint elapsed (ticks : list Tick) : R :=
  match ticks with
  | [] => 0
  | t :: rest => delta t + elapsed rest
  end.

Fixpoint elapsedAsTree (ticks : list Tick) : R :=
  match ticks with
  | [] => 0
  | t :: rest =>
      (if isTreeShape (treeState t) then delta t else 0) + elapsedAsTree rest
  end.

End TreeGroup.

(** ** What the gesture controller's signals mean to their readers *)

Module Signals.
Import Num.



(** [isZooming] of [FrameMesh]: the photo frames are pinned to the screen
    when the scale they are given exceeds 2. *)
Definition isZooming (globalScale : R) : bool := gtb globalScale 2.0.

(** No hand of the frame is classified open or fist. *)
Definition undecided (fr : GestureController.VideoFrame) : Prop :=
  forall hands hand,
    GestureController.landmarks fr = Some hands -> In hand hands ->
    GestureController.classifiedOpen hand = false
    /\ GestureController.classifiedFist hand = false.

End Signals.

(** ** What a generated set of ornaments looks like *)

Module Layout.
Import Num Types Cone.

(** Each array holds the ornaments of its own type. *)
Definition sorted (a : Ornaments.Arrays) : Prop :=
  Forall (fun item => type item = sphere) (Ornaments.spheres a)
  /\ Forall (fun item => type item = box) (Ornaments.boxes a)
  /\ Forall (fun item => type item = icicle) (Ornaments.icicles a)
  /\ Forall (fun item => type item = candyCane) (Ornaments.candyCanes a)
  /\ Forall (fun item => type item = bell) (Ornaments.bells a)
  /\ Forall (fun item => type item = snowflake) (Ornaments.snowflakes a).

(** Every coordinate of [v] is at most [d] in absolute value. *)
Definition inCube (d : R) (v : Vector3) : Prop :=
  - d <= vx v <= d /\ - d <= vy v <= d /\ - d <= vz v <= d.

(** The ranges of an ornament's fields: on the cone between its foot and
    its apex, scattered in a cube, with the scale and the spin the code
    draws. *)
Definition inBounds (item : OrnamentData) : Prop :=
  - (TREE_HEIGHT / 2) <= vy (treePos item) < TREE_HEIGHT / 2
  /\ distanceFromAxis (treePos item) <= 1.15 * TREE_RADIUS
  /\ inCube (0.5 * SCATTER_RADIUS * 1.5) (scatterPos item)
  /\ 0.3 <= scale item < 1.1
  /\ 0 <= rotationSpeed item < 2.


End Layout.

(** ** src/components/Foliage.tsx: the vertex shader *)

Module FoliageShader.
Import Num Types.

(** The per-vertex inputs: the tree position of the geometry and the two
    attributes the shader reads. *)
Record Vertex : Type := mkVertex {
  position : Vector3;
  aScatterPos : Vector3;
  aRandom : R
}.

Section Main.

Variable uTime : R.
Variable uMorphFactor : R.
Variable v : Vertex.

Definition t : R := Foliage.easeOutCubic uMorphFactor.

(** [mix(startPos, targetPos, t)]. *)
Definition mixed : Vector3 :=
  mkVector3 (Foliage.mix (vx (aScatterPos v)) (vx (position v)) t)
            (Foliage.mix (vy (aScatterPos v)) (vy (position v)) t)
            (Foliage.mix (vz (aScatterPos v)) (vz (position v)) t).

Definition breath : R :=
  sin (uTime * 1.0 + vy mixed * 0.5) * 0.05 + sin (uTime * 2.5 + aRandom v * 15.0) * 0.03.

(** [finalPos] after the breathing and the wobble of the scattered mode. *)
Definition finalPos : Vector3 :=
  let breathIntensity := t in
  let x := vx mixed + breath * breathIntensity in
  let z := vz mixed + breath * breathIntensity in
  let y := vy mixed + breath * 0.3 * breathIntensity in
  if ltb t 0.9 then
    let y := y + sin (uTime + aRandom v * 100.0) * 0.2 * (1.0 - t) in
    let x := x + cos (uTime * 0.5 + aRandom v * 50.0) * 0.2 * (1.0 - t) in
    mkVector3 x y z
  else mkVector3 x y z.

Definition vAlpha : R := 0.7 + 0.3 * sin (uTime + aRandom v * 10.0).

End Main.

(** The vertex of particle [i] of a geometry. *)
Definition vertexOf (g : Foliage.Geometry) (i : nat) : Vertex :=
  {| position := Float32Array.vectorAt (Foliage.positions g) i;
     aScatterPos := Float32Array.vectorAt (Foliage.scatterPositions g) i;
     aRandom := Float32Array.get (Foliage.randoms g) i |}.

(** What the shader draws for particle [i] in a state of the component. *)
Definition drawn (st : Foliage.State) (i : nat) : Vector3 :=
  finalPos (Foliage.uTime st) (Foliage.uMorphFactor st)
           (vertexOf (Foliage.geometry st) i).

End FoliageShader.

(** What the generation loop of the foliage draws for one particle. *)

Module FoliageLayout.
Import Num Types.

Definition inRange (p : Foliage.Particle) : Prop :=
  - (TREE_HEIGHT / 2) <= vy (Foliage.p_tree p) < TREE_HEIGHT / 2
  /\ 0.5 * SCATTER_RADIUS
     <= hypot3 (vx (Foliage.p_scatter p)) (vy (Foliage.p_scatter p))
               (vz (Foliage.p_scatter p))
     < SCATTER_RADIUS
  /\ 0 <= Foliage.p_random p < 1
  /\ 0.12 < Foliage.p_size p < 0.48.

End FoliageLayout.

(** ** src/components/PhotoFrames.tsx: the frame around a photo, and the
    callback frame after frame *)

Module FrameGeometry.

Definition width : R := 0.7.
Definition height (aspectRatio : R) : R := width / aspectRatio.
Definition frameThickness : R := 0.03.
Definition borderSize : R := 0.05.

(** The arguments of a [boxGeometry] or, with depth 0, a [planeGeometry]. *)
Record Size : Type := mkSize { sizeX : R; sizeY : R; sizeZ : R }.

(** "Gold Frame Container", "Photo Plane" and "Backing". *)
Definition goldFrame (aspectRatio : R) : Size :=
  {| sizeX := width + borderSize * 2; sizeY := height aspectRatio + borderSize * 2;
     sizeZ := frameThickness |}.

Definition photoPlane (aspectRatio : R) : Size :=
  {| sizeX := width; sizeY := height aspectRatio; sizeZ := 0 |}.

Definition backing (aspectRatio : R) : Size :=
  {| sizeX := width + borderSize; sizeY := height aspectRatio + borderSize;
     sizeZ := frameThickness |}.

End FrameGeometry.

Module PhotoRun.
Import Types.

Section WithOrientation.

Variable Orientation : Type.
Variable slerp : Orientation -> Orientation -> R -> Orientation.
Variable lookAt : Vector3 -> Vector3 -> Orientation.
Variable tumble : Orientation -> R -> R -> R -> Orientation.

(** The callback of one frame mesh over successive frames, each with what
    it reads from outside at that frame. *)
Fixpoint frames (inputs : list (PhotoFrames.Input Orientation))
         (fm : PhotoFrames.FrameMesh Orientation) (h : PhotoFrames.Heap)
  : PhotoFrames.FrameMesh Orientation * PhotoFrames.Heap :=
  match inputs with
  | [] => (fm, h)
  | inp :: rest =>
      let (fm', h') := PhotoFrames.frameMesh Orientation slerp lookAt tumble inp fm h in
      frames rest fm' h'
  end.

(** A frame rendered in Mode TREE_SHAPE outside the presentation: the
    signal is not above 2, or the group has no parent. *)
Definition onTree (inp : PhotoFrames.Input Orientation) : Prop :=
  PhotoFrames.treeState inp = TREE_SHAPE
  /\ (PhotoFrames.globalScale inp <= 2 \/ PhotoFrames.parent inp = None).

End WithOrientation.

End PhotoRun.

(** A frame mesh to run the callback on: a mounted photo whose three
    vectors are the objects 0, 1 and 2 of a heap of zero vectors, under
    orientations without content, and a frame on the tree with the neutral
    scale signal. *)

Module PhotoSample.
Import Types.

Definition heap : PhotoFrames.Heap := fun _ => mkVector3 0 0 0.

Definition group : PhotoFrames.Group unit :=
  PhotoFrames.mkGroup unit 2%nat 1 tt.

Definition frameMesh : PhotoFrames.FrameMesh unit :=
  PhotoFrames.mkFrameMesh unit
    {| photoId := 0; photoScatterPos := 0%nat; photoTreePos := 1%nat;
       photoRotationSpeed := 1; aspectRatio := 1 |}
    (Some group).

Definition input : PhotoFrames.Input unit :=
  PhotoFrames.mkInput unit 0 TREE_SHAPE 1 None.

Definition slerp (a b : unit) (t : R) : unit := tt.
Definition lookAt (a b : Vector3) : unit := tt.
Definition tumble (a : unit) (x y z : R) : unit := tt.

End PhotoSample.

(** ** src/components/TopStar.tsx *)

Module TopStar.
Import Num Types.

Notation "x <- c ;; k" := (Random.bind c (fun x => k))
  (at level 61, c at next level, right associativity).

Definition outerRadius : R := 1.2.
Definition innerRadius : R := 0.5.
Definition numPoints : nat := 5.

(** The point the loop of the star shape computes for [i]. *)
Definition shapePoint (i : nat) : R * R :=
  let angle := INR i / INR (numPoints * 2) * PI * 2 in
  let r := if Nat.even i then outerRadius else innerRadius in
  (cos (angle + PI / 2) * r, sin (angle + PI / 2) * r).

(** The outline: [moveTo] the first point, [lineTo] the others, then
    [closePath]. *)
Definition starShape : list (R * R) := map shapePoint (seq 0 (numPoints * 2)).

Definition treePos : Vector3 := mkVector3 0 (TREE_HEIGHT / 2 + 2.5) 0.

Definition scatterPos (rnd : Random.Stream) : Random.Draw Vector3 :=
  rx <- Random.next rnd ;;
  ry <- Random.next rnd ;;
  rz <- Random.next rnd ;;
  Random.ret (mkVector3 ((rx - 0.5) * 30) (25 + ry * 8) (12 + rz * 8)).

(** The mesh: its position and the Euler angles of its rotation. *)
Record State : Type := mkState {
  position : Vector3;
  rotX : R;
  rotY : R;
  rotZ : R
}.

(** The [useFrame] callback, once the mesh exists. *)
Definition frame (scatter : Vector3) (time : R) (treeState : TreeState)
           (st : State) : State :=
  let isTree := isTreeShape treeState in
  let target := if isTree then treePos else scatter in
  let alpha := if isTree then 0.05 else 0.015 in
  let p := position st in
  let p := mkVector3 (MathUtils.smooth (vx p) (vx target) alpha)
                     (MathUtils.smooth (vy p) (vy target) alpha)
                     (MathUtils.smooth (vz p) (vz target) alpha) in
  let p := mkVector3 (vx p) (vy p + sin (time * 2.0) * 0.005) (vz p) in
  if isTree then
    {| position := p;
       rotX := MathUtils.lerp (rotX st) (sin (time * 0.5) * 0.1) 0.05;
       rotY := rotY st + 0.01;
       rotZ := MathUtils.lerp (rotZ st) 0 0.05 |}
  else
    {| position := p;
       rotX := rotX st + 0.005;
       rotY := rotY st + 0.005;
       rotZ := rotZ st + 0.002 |}.

(** The callback over successive frames, each with its elapsed time and
    the Mode it is rendered in. *)
Fixpoint run (scatter : Vector3) (history : list (R * TreeState)) (st : State)
  : State :=
  match history with
  | [] => st
  | (time, treeState) :: rest => run scatter rest (frame scatter time treeState st)
  end.

End TopStar.

(** ** GLSL built-ins the shaders use *)

Module GLSL.

Definition floor (x : R) : R := IZR (Int_part x).

(** [mod(x, y)] is [x - y * floor(x / y)]. *)
Definition mod_ (x y : R) : R := x - y * floor (x / y).

Definition clamp (x lo hi : R) : R := Rmin (Rmax x lo) hi.

Definition smoothstep (edge0 edge1 x : R) : R :=
  let t := clamp ((x - edge0) / (edge1 - edge0)) 0.0 1.0 in
  t * t * (3.0 - 2.0 * t).

End GLSL.

(** ** src/components/Snow.tsx *)

Module Snow.
Import Num Types.

Notation "x <- c ;; k" := (Random.bind c (fun x => k))
  (at level 61, c at next level, right associativity).

(** The uniforms that never change. *)
Definition uHeight : R := 60.
Definition uRange : R := 50.
Definition uSpeed : R := 3.0.
Definition uWind : R := 0.5.

(** The attributes of one flake. *)
Record Flake : Type := mkFlake {
  position : Vector3;
  aSpeed : R;
  aRandom : R;
  aSize : R;
  aVelocity : Vector3
}.

Section Shader.

Variable uTime : R.
Variable f : Flake.

(** "Vertical Fall with Wrapping". *)
Definition fallenY : R :=
  let fallOffset := uTime * uSpeed * aSpeed f in
  let y := vy (position f) - fallOffset in
  GLSL.mod_ (y + uHeight / 2.0) uHeight - uHeight / 2.0.

(** [pos] when the vertex shader transforms it. *)
Definition shaded : Vector3 :=
  let y := fallenY in
  let t := uTime * 0.5 in
  let swayX := sin (y * 0.1 + t) * 1.5 in
  let swayZ := cos (y * 0.15 + t * 0.8) * 1.5 in
  let flutterX := sin (t * 3.0 + aRandom f * 100.0) * 0.3 in
  let flutterZ := cos (t * 2.5 + aRandom f * 50.0) * 0.3 in
  let driftX := vx (aVelocity f) * uTime * 0.5 + swayX * uWind + flutterX in
  let driftZ := vz (aVelocity f) * uTime * 0.5 + swayZ * uWind + flutterZ in
  let x := vx (position f) + driftX in
  let z := vz (position f) + driftZ in
  let x := GLSL.mod_ (x + uRange / 2.0) uRange - uRange / 2.0 in
  let z := GLSL.mod_ (z + uRange / 2.0) uRange - uRange / 2.0 in
  mkVector3 x y z.

(** "Fading Logic"; [mvz] is [mvPosition.z]. *)
Definition vAlpha (mvz : R) : R :=
  let edgeFade := 1.0 - GLSL.smoothstep 0.4 0.5 (Rabs (fallenY / uHeight)) in
  let distFade := 1.0 - GLSL.smoothstep 20.0 70.0 (- mvz) in
  edgeFade * distFade.

End Shader.

Definition count : nat := 2500.
Definition range : R := 50.

Section WithRandom.

Variable rnd : Random.Stream.

(** What one iteration of the generation loop draws. *)
Definition flake : Random.Draw Flake :=
  px <- Random.next rnd ;;
  py <- Random.next rnd ;;
  pz <- Random.next rnd ;;
  spd <- Random.next rnd ;;
  r <- Random.next rnd ;;
  sz <- Random.next rnd ;;
  velx <- Random.next rnd ;;
  velz <- Random.next rnd ;;
  Random.ret {| position := mkVector3 ((px - 0.5) * range) ((py - 0.5) * 60)
                                      ((pz - 0.5) * range);
                aSpeed := 0.5 + spd * 0.8;
                aRandom := r;
                aSize := sz * 2.5 + 1.5;
                aVelocity := mkVector3 ((velx - 0.5) * 2.0) 0 ((velz - 0.5) * 2.0) |}.

Fixpoint flakes (remaining : nat) : Random.Draw (list Flake) :=
  match remaining with
  | O => Random.ret []
  | S k =>
      fl <- flake ;;
      rest <- flakes k ;;
      Random.ret (fl :: rest)
  end.

End WithRandom.

(** The five attribute arrays the [useMemo] returns. *)
Record Geometry : Type := mkGeometry {
  positions : list R;
  speeds : list R;
  randoms : list R;
  sizes : list R;
  velocities : list R
}.

Definition geometryOf (fs : list Flake) : Geometry :=
  {| positions := Float32Array.ofVectors (map position fs);
     speeds := map aSpeed fs;
     randoms := map aRandom fs;
     sizes := map aSize fs;
     velocities := Float32Array.ofVectors (map aVelocity fs) |}.

Definition generate (rnd : Random.Stream) : Random.Draw Geometry :=
  fs <- flakes rnd count ;; Random.ret (geometryOf fs).

(** The flake the shader reads at index [i] of a geometry. *)
Definition flakeAt (g : Geometry) (i : nat) : Flake :=
  {| position := Float32Array.vectorAt (positions g) i;
     aSpeed := Float32Array.get (speeds g) i;
     aRandom := Float32Array.get (randoms g) i;
     aSize := Float32Array.get (sizes g) i;
     aVelocity := Float32Array.vectorAt (velocities g) i |}.

(** The box the snow falls in. *)
Definition inBox (p : Vector3) : Prop :=
  - (uRange / 2) <= vx p < uRange / 2
  /\ - (uHeight / 2) <= vy p < uHeight / 2
  /\ - (uRange / 2) <= vz p < uRange / 2.

(** What the generation loop draws for a flake. *)
Definition inRange (fl : Flake) : Prop :=
  inBox (position fl)
  /\ 0.5 <= aSpeed fl < 1.3
  /\ 0 <= aRandom fl < 1
  /\ 1.5 <= aSize fl < 4
  /\ -1 <= vx (aVelocity fl) < 1
  /\ vy (aVelocity fl) = 0
  /\ -1 <= vz (aVelocity fl) < 1.

End Snow.

(** ** src/components/Ornaments.tsx: [merge], the helper that joins the
    boxes of the ribbon and of the snowflake *)

Module TypedArray.

(** [arr[i] = v]; a write outside a typed array is ignored. *)
Fixpoint store {A : Type} (arr : list A) (i : nat) (v : A) : list A :=
  match arr, i with
  | [], _ => []
  | _ :: rest, O => v :: rest
  | a :: rest, S k => a :: store rest k v
  end.

(** [arr.set(src, offset)]; a source that does not fit throws a
    [RangeError]. *)
Definition set {A : Type} (arr src : list A) (offset : nat) : option (list A) :=
  if (offset + length src <=? length arr)%nat
  then Some (firstn offset arr ++ src ++ skipn (offset + length src) arr)
  else None.

(** What a [Uint16Array] keeps of a number. *)
Definition toUint16 (v : nat) : nat := (v mod 2 ^ 16)%nat.

End TypedArray.

Module Merge.
Import Types.

(** The attributes of a [THREE.BufferGeometry] that [merge] reads. *)
Record BufferGeometry : Type := mkBufferGeometry {
  position : list R;
  normal : list R;
  uv : list R;
  index : option (list nat)
}.

(** [g.attributes.position.count]: the length of the array over the item
    size 3. The arrays the code merges hold three numbers per vertex; for
    another length the quotient of the code is not an integer, which the
    model leaves out. *)
Definition count (g : BufferGeometry) : nat := (length (position g) / 3)%nat.

(** The four counts of the first [forEach]. *)
Definition posCount (geoms : list BufferGeometry) : nat :=
  fold_left (fun n g => (n + length (position g))%nat) geoms 0%nat.
Definition normCount (geoms : list BufferGeometry) : nat :=
  fold_left (fun n g => (n + length (normal g))%nat) geoms 0%nat.
Definition uvCount (geoms : list BufferGeometry) : nat :=
  fold_left (fun n g => (n + length (uv g))%nat) geoms 0%nat.
Definition indexCount (geoms : list BufferGeometry) : nat :=
  fold_left (fun n g => match index g with
                        | Some idx => (n + length idx)%nat
                        | None => n
                        end) geoms 0%nat.

(** The variables of the second [forEach]. *)
Record Acc : Type := mkAcc {
  pOffset : nat;
  nOffset : nat;
  uOffset : nat;
  iOffset : nat;
  vOffset : nat;
  posArray : list R;
  normArray : list R;
  uvArray : list R;
  indexArray : list nat
}.

(** [for (let i = 0; i < g.index.array.length; i++)], from [i] on, over the
    entries that remain. *)
Fixpoint indexLoop (src : list nat) (i iOff vOff : nat) (indexArray : list nat)
  : list nat :=
  match src with
  | [] => indexArray
  | v :: rest =>
      indexLoop rest (S i) iOff vOff
        (TypedArray.store indexArray (iOff + i)%nat
           (TypedArray.toUint16 (v + vOff)))
  end.

(** The body of the second [forEach]. *)
Definition step (acc : Acc) (g : BufferGeometry) : option Acc :=
  match TypedArray.set (posArray acc) (position g) (pOffset acc),
        TypedArray.set (normArray acc) (normal g) (nOffset acc),
        TypedArray.set (uvArray acc) (uv g) (uOffset acc) with
  | Some pa, Some na, Some ua =>
      let ia := match index g with
                | Some idx => indexLoop idx 0 (iOffset acc) (vOffset acc) (indexArray acc)
                | None => indexArray acc
                end in
      let io := match index g with
                | Some idx => (iOffset acc + length idx)%nat
                | None => iOffset acc
                end in
      Some {| pOffset := (pOffset acc + length (position g))%nat;
              nOffset := (nOffset acc + length (normal g))%nat;
              uOffset := (uOffset acc + length (uv g))%nat;
              iOffset := io;
              vOffset := (vOffset acc + count g)%nat;
              posArray := pa; normArray := na; uvArray := ua;
              indexArray := ia |}
  | _, _, _ => None
  end.

Fixpoint steps (acc : Acc) (geoms : list BufferGeometry) : option Acc :=
  match geoms with
  | [] => Some acc
  | g :: rest =>
      match step acc g with
      | Some acc' => steps acc' rest
      | None => None
      end
  end.

(** [merge]; [None] stands for a thrown [RangeError]. *)
Definition merge (geoms : list BufferGeometry) : option BufferGeometry :=
  let acc := {| pOffset := 0; nOffset := 0; uOffset := 0; iOffset := 0;
                vOffset := 0;
                posArray := repeat 0 (posCount geoms);
                normArray := repeat 0 (normCount geoms);
                uvArray := repeat 0 (uvCount geoms);
                indexArray := repeat 0%nat (indexCount geoms) |} in
  match steps acc geoms with
  | Some acc' =>
      Some {| position := posArray acc'; normal := normArray acc';
              uv := uvArray acc';
              index := if (0 <? indexCount geoms)%nat
                       then Some (indexArray acc') else None |}
  | None => None
  end.

(** The indices of the geometries one after the other, each shifted by the
    number of vertices before its geometry and kept to 16 bits. *)
Fixpoint shifted (vOff : nat) (geoms : list BufferGeometry) : list nat :=
  match geoms with
  | [] => []
  | g :: rest =>
      match index g with
      | Some idx => map (fun v => TypedArray.toUint16 (v + vOff)) idx
      | None => []
      end ++ shifted (vOff + count g) rest
  end.

(** The corners of the triangles of a geometry: the vertex each index
    names. *)
Definition corners (g : BufferGeometry) : list Vector3 :=
  match index g with
  | Some idx => map (Float32Array.vectorAt (position g)) idx
  | None => []
  end.

(** Three numbers per vertex, and every index names a vertex. *)
Definition wellFormed (g : BufferGeometry) : Prop :=
  length (position g) = (3 * count g)%nat
  /\ match index g with
     | Some idx => Forall (fun v => (v < count g)%nat) idx
     | None => True
     end.

Definition vertices (geoms : list BufferGeometry) : nat :=
  list_sum (map count geoms).

(** A geometry of one triangle. *)
Definition triangle : BufferGeometry :=
  {| position := [0; 0; 0; 1; 0; 0; 0; 1; 0];
     normal := [0; 0; 1; 0; 0; 1; 0; 0; 1];
     uv := [0; 0; 1; 0; 0; 1];
     index := Some [0; 1; 2]%nat |}.

End Merge.

(** The look the code gives to each type of ornament. *)

Module Style.
Import Num Types.

Definition styled (item : OrnamentData) : Prop :=
  match type item with
  | box =>
      weight item = 0.02 /\ 0.5 <= scale item < 0.9
      /\ exists ribbon, secondaryColor item = Some ribbon /\ ribbon <> color item
  | sphere =>
      weight item = 0.05 /\ 0.3 <= scale item < 0.7
      /\ secondaryColor item = None
      /\ In (color item) [GOLD_METALLIC; GOLD_ROSE; WHITE_WARM; RED_RUBY]
  | icicle =>
      weight item = 0.04 /\ 0.6 <= scale item < 1.1
      /\ secondaryColor item = None /\ color item = ICE_BLUE
  | candyCane =>
      weight item = 0.04 /\ 0.6 <= scale item < 1.0
      /\ secondaryColor item = None /\ color item = PLAIN_WHITE
  | snowflake =>
      weight item = 0.03 /\ 0.5 <= scale item < 0.9
      /\ secondaryColor item = None /\ color item = ICE_BLUE
  | bell =>
      weight item = 0.03 /\ 0.5 <= scale item < 0.9
      /\ secondaryColor item = None
      /\ In (color item) [GOLD_METALLIC; GOLD_ROSE]
  | star => False
  end.

(** The ids below [idCounter], each used once at most. *)
Definition numbered (idCounter : nat) (items : list OrnamentData) : Prop :=
  NoDup (map id items) /\ Forall (fun item => (id item < idCounter)%nat) items.

End Style.

(** ** src/components/Ornaments.tsx: the colours of the instances *)

Module OrnamentColors.
Import Types.

(** [items.forEach((d, i) => mesh.setColorAt(i, d.color))]. *)
Definition bodyColors (items : list OrnamentData) : list Color :=
  map color items.

(** [boxes.forEach((d, i) => ribbon.setColorAt(i, d.secondaryColor ||
    COLORS.GOLD_METALLIC))]. *)
Definition ribbonColors (boxes : list OrnamentData) : list Color :=
  map (fun d => match secondaryColor d with
                | Some c => c
                | None => GOLD_METALLIC
                end) boxes.

End OrnamentColors.

(** * Properties *)

(** ** Numbers *)

Lemma ltb_true (a b : R) : a < b -> Num.ltb a b = true.
Proof.
  intros H. unfold Num.ltb. destruct (Rlt_dec a b) as [_ | n]; [reflexivity | contradiction].
Qed.

Lemma ltb_false (a b : R) : b <= a -> Num.ltb a b = false.
Proof.
  intros H. unfold Num.ltb. destruct (Rlt_dec a b) as [l | _]; [lra | reflexivity].
Qed.

Lemma ltb_lt (a b : R) : Num.ltb a b = true <-> a < b.
Proof.
  unfold Num.ltb. destruct (Rlt_dec a b); split; intros; (assumption || discriminate || reflexivity || contradiction).
Qed.

Lemma ltb_ge (a b : R) : Num.ltb a b = false <-> b <= a.
Proof.
  unfold Num.ltb. destruct (Rlt_dec a b); split; intros; (discriminate || lra || reflexivity).
Qed.

Lemma neqb_true (a b : R) : a <> b -> Num.neqb a b = true.
Proof.
  intros H. unfold Num.neqb. destruct (Req_dec_T a b); [contradiction | reflexivity].
Qed.

Lemma iter_fixed {A : Type} (f : A -> A) (a : A) (n : nat) :
  f a = a -> Num.iter n f a = a.
Proof.
  intros H. induction n as [| n IH]; simpl; [reflexivity | rewrite IH; exact H].
Qed.

Lemma iter_succ {A : Type} (f : A -> A) (a : A) (n : nat) :
  Num.iter (S n) f a = f (Num.iter n f a).
Proof. reflexivity. Qed.

Lemma iter_plus {A : Type} (f : A -> A) (a : A) (n m : nat) :
  Num.iter (n + m) f a = Num.iter n f (Num.iter m f a).
Proof.
  induction n as [| n IH]; simpl; [reflexivity | rewrite IH; reflexivity].
Qed.

(** The two ways the code writes an interpolation agree. *)
Lemma lerp_smooth (x y t : R) : MathUtils.lerp x y t = MathUtils.smooth x y t.
Proof. unfold MathUtils.lerp, MathUtils.smooth. ring. Qed.

(** [n] smoothing steps leave the [n]-th power of [1 - rate] of the gap. *)
Lemma smooth_iter (target rate p : R) (n : nat) :
  Num.iter n (fun q => MathUtils.smooth q target rate) p - target
  = (1 - rate) ^ n * (p - target).
Proof.
  induction n as [| n IH]; simpl.
  - ring.
  - unfold MathUtils.smooth at 1.
    replace (Num.iter n (fun q => MathUtils.smooth q target rate) p
             + (target - Num.iter n (fun q => MathUtils.smooth q target rate) p) * rate
             - target)
      with ((1 - rate)
            * (Num.iter n (fun q => MathUtils.smooth q target rate) p - target))
      by ring.
    rewrite IH. ring.
Qed.

(** A sequence whose gap to [l] is a fixed multiple of the powers of a
    ratio below one in absolute value converges to [l]. *)
Lemma geometric_cv (u : nat -> R) (l q c : R) :
  Rabs q < 1 -> (forall n, u n - l = q ^ n * c) -> Un_cv u l.
Proof.
  intros Hq Hu eps Heps.
  destruct (pow_lt_1_zero q Hq (eps / (Rabs c + 1))) as [N HN].
  { apply Rdiv_lt_0_compat; [exact Heps | pose proof (Rabs_pos c); lra]. }
  exists N. intros n Hn. unfold R_dist. rewrite Hu, Rabs_mult.
  specialize (HN n Hn).
  pose proof (Rabs_pos c) as Hc. pose proof (Rabs_pos (q ^ n)) as Hq'.
  assert (Hmul : Rabs (q ^ n) * (Rabs c + 1) < eps).
  { apply (Rmult_lt_compat_r (Rabs c + 1)) in HN; [| lra].
    unfold Rdiv in HN. rewrite Rmult_assoc, Rinv_l in HN; lra. }
  nra.
Qed.

(** ** The scale signal of the gesture controller *)

Section ScaleSignal.
Import GestureController.

Lemma nextScale_pinch (s : R) : nextScale true s = MathUtils.smooth s 10 0.1.
Proof. unfold nextScale, targetScale, lerpSpeed, MathUtils.smooth. simpl. lra. Qed.

(** Without a pinch the value eases towards 1, and is set to 1 once the
    eased value is within 0.05 of it. *)
Lemma nextScale_release (s : R) :
  nextScale false s
  = if Num.ltb (Rabs (MathUtils.smooth s 1 0.4 - 1)) 0.05 then 1
    else MathUtils.smooth s 1 0.4.
Proof.
  unfold nextScale, targetScale, lerpSpeed, MathUtils.smooth. simpl.
  replace 1.0 with 1 by lra. reflexivity.
Qed.

Lemma nextScale_range (b : bool) (s : R) :
  1 <= s <= 10 -> 1 <= nextScale b s <= 10.
Proof.
  intros Hs. destruct b.
  - rewrite nextScale_pinch. unfold MathUtils.smooth. lra.
  - rewrite nextScale_release. unfold MathUtils.smooth.
    destruct (Num.ltb _ _); lra.
Qed.

Lemma updateScale_smoother (b : bool) (st : State) :
  pinchSmoother (updateScale b st) = nextScale b (pinchSmoother st).
Proof. reflexivity. Qed.

Lemma updateScale_photoScale (b : bool) (st : State) :
  photoScale (updateScale b st) = nextScale b (pinchSmoother st).
Proof. reflexivity. Qed.

Lemma updateScale_published (b : bool) (st : State) :
  1 <= pinchSmoother st <= 10 -> published (updateScale b st).
Proof.
  intros H. split; [rewrite updateScale_smoother; apply nextScale_range; exact H | reflexivity].
Qed.

Lemma initial_published : published initial.
Proof. unfold published, initial; simpl. split; [lra | reflexivity]. Qed.

Lemma updateAll_published (steps : list bool) (st : State) :
  published st -> published (updateAll steps st).
Proof.
  unfold updateAll. revert st.
  induction steps as [| b steps IH]; intros st H; simpl; [exact H |].
  apply IH, updateScale_published, H.
Qed.

Lemma processLandmarks_published (hands : list Hand) (st st' : State) :
  published st -> processLandmarks hands st = Some st' -> published st'.
Proof.
  intros [Hr He] H. unfold processLandmarks in H. destruct hands as [| hand rest].
  - injection H as <-. apply (updateScale_published false (setRotationMod 0 st)). exact Hr.
  - destruct (handLoop noFlags (hand :: rest)) as [f |]; [| discriminate].
    injection H as <-.
    set (st1 := if isOpen f then setTreeState Types.SCATTERED st
                else if isFist f then setTreeState Types.TREE_SHAPE st else st).
    assert (H1 : 1 <= pinchSmoother st1 <= 10).
    { unfold st1. destruct (isOpen f); [exact Hr |]. destruct (isFist f); exact Hr. }
    apply (updateScale_published (isPinching f)) in H1. exact H1.
Qed.

Lemma predict_published (fr : VideoFrame) (st st' : State) :
  published st -> predict fr st = Some st' -> published st'.
Proof.
  intros Hp H. unfold predict in H.
  destruct (Num.neqb (lastVideoTime st) (currentTime fr)).
  - destruct (landmarks fr) as [l |].
    + apply (processLandmarks_published l (setLastVideoTime (currentTime fr) st)); [exact Hp | exact H].
    + injection H as <-.
      apply (updateScale_published false
               (setRotationMod 0 (setLastVideoTime (currentTime fr) st))).
      exact (proj1 Hp).
  - injection H as <-. exact Hp.
Qed.

Lemma predictAll_published (frames : list VideoFrame) (st st' : State) :
  published st -> predictAll frames st = Some st' -> published st'.
Proof.
  revert st. induction frames as [| fr rest IH]; intros st Hp H; simpl in H.
  - injection H as <-. exact Hp.
  - destruct (predict fr st) as [st1 |] eqn:E; [| discriminate].
    apply (IH st1); [exact (predict_published fr st st1 Hp E) | exact H].
Qed.

(** C10. From its initial value 1.0, the pinch smoother stays within
    [[1, 10]] under every finite sequence of scale updates, pinching or
    not, and so does the [photoScale] the controller publishes: after any
    updates, and after any frames [predict] has processed. *)
Theorem scale_signal_within_bounds (steps : list bool) (frames : list VideoFrame) :
  pinchSmoother initial = 1.0
  /\ (1 <= pinchSmoother (updateAll steps initial) <= 10
   /\ 1 <= photoScale (updateAll steps initial) <= 10)
  /\ match predictAll frames initial with
     | Some st => 1 <= pinchSmoother st <= 10 /\ 1 <= photoScale st <= 10
     | None => True
     end.
Proof.
  split; [reflexivity |]. split.
  - destruct (updateAll_published steps initial initial_published) as [Hr He].
    rewrite He. split; exact Hr.
  - destruct (predictAll frames initial) as [st |] eqn:E; [| exact I].
    destruct (predictAll_published frames initial st initial_published E) as [Hr He].
    rewrite He. split; exact Hr.
Qed.

(** *** A pinch held *)





End ScaleSignal.

(** ** No hand in sight *)

Section NoHands.
Import GestureController.

Lemma iter_shift {A : Type} (f : A -> A) (a : A) (n : nat) :
  Num.iter n f (f a) = f (Num.iter n f a).
Proof.
  induction n as [| n IH]; simpl; [reflexivity | rewrite IH; reflexivity].
Qed.

Lemma release_fixed : nextScale false 1 = 1.
Proof.
  rewrite nextScale_release. unfold MathUtils.smooth.
  destruct (Num.ltb _ _); lra.
Qed.

(** The eased value is set to 1 as soon as it is within 0.05 of it. *)
Lemma release_snaps (s : R) :
  Rabs (MathUtils.smooth s 1 0.4 - 1) < 0.05 -> nextScale false s = 1.
Proof.
  intros H. rewrite nextScale_release, (ltb_true _ _ H). reflexivity.
Qed.

Lemma release_bound (s : R) (k : nat) :
  1 <= s <= 10 ->
  1 <= Num.iter k (nextScale false) s <= 1 + 9 * 0.6 ^ k.
Proof.
  intros Hs. induction k as [| k IH]; simpl.
  - lra.
  - rewrite nextScale_release. unfold MathUtils.smooth.
    assert (Hp : 0 < 0.6 ^ k) by (apply pow_lt; lra).
    destruct (Num.ltb _ _); nra.
Qed.

(** Eleven frames are enough from anywhere in [[1, 10]]. *)
Lemma release_settles (s : R) (n : nat) :
  1 <= s <= 10 -> (11 <= n)%nat -> Num.iter n (nextScale false) s = 1.
Proof.
  intros Hs Hn.
  replace n with ((n - 11) + 11)%nat by lia.
  rewrite iter_plus.
  assert (H11 : Num.iter 11 (nextScale false) s = 1).
  { rewrite (iter_succ (nextScale false) s 10).
    pose proof (release_bound s 10 Hs) as Hb.
    apply release_snaps. unfold MathUtils.smooth.
    simpl pow in Hb.
    rewrite Rabs_pos_eq; lra. }
  rewrite H11. apply iter_fixed, release_fixed.
Qed.

Lemma predict_noHands (fr : VideoFrame) (st : State) :
  noHands fr -> currentTime fr <> lastVideoTime st ->
  predict fr st
  = Some (updateScale false (setRotationMod 0 (setLastVideoTime (currentTime fr) st))).
Proof.
  intros Hn Ht. unfold predict.
  rewrite neqb_true by (intros E; apply Ht; symmetry; exact E).
  destruct Hn as [-> | ->]; reflexivity.
Qed.

Lemma predictAll_noHands (frames : list VideoFrame) (st : State) :
  Forall noHands frames -> fresh (lastVideoTime st) frames ->
  exists st',
    predictAll frames st = Some st'
    /\ pinchSmoother st'
       = Num.iter (length frames) (nextScale false) (pinchSmoother st)
    /\ (frames <> [] ->
        photoScale st' = pinchSmoother st' /\ rotationMod st' = 0).
Proof.
  revert st. induction frames as [| fr rest IH]; intros st Hall Hfresh.
  - exists st. split; [reflexivity |]. split; [reflexivity |].
    intros Hne. contradiction.
  - inversion Hall as [| ? ? Hfr Hrest]; subst. destruct Hfresh as [Ht Hfresh].
    simpl predictAll. rewrite (predict_noHands fr st Hfr Ht).
    set (st1 := updateScale false
                  (setRotationMod 0 (setLastVideoTime (currentTime fr) st))).
    destruct (IH st1 Hrest Hfresh) as (st' & Hrun & Hs & Hlast).
    exists st'. split; [exact Hrun |]. split.
    + rewrite Hs. simpl length. cbn [Num.iter]. rewrite <- iter_shift. reflexivity.
    + intros _. destruct rest as [| fr' rest'].
      * simpl in Hrun. injection Hrun as <-. split; reflexivity.
      * apply Hlast. discriminate.
Qed.

(** C6. When thirty consecutive video frames show no hand, then from any
    scale in [[1, 10]] the scale signal ends at exactly 1.0, hence within
    0.05 of it, and the rotation bias ends at 0; the update sets the signal
    to 1.0 as soon as the eased value is within 0.05 of 1.0. *)
Theorem no_hands_settle_to_neutral (frames : list VideoFrame) (st : State) :
  1 <= pinchSmoother st <= 10 ->
  length frames = 30%nat ->
  Forall noHands frames ->
  fresh (lastVideoTime st) frames ->
  (exists st',
      predictAll frames st = Some st'
      /\ pinchSmoother st' = 1
      /\ photoScale st' = 1
      /\ Rabs (photoScale st' - 1) < 0.05
      /\ rotationMod st' = 0)
  /\ (forall s : R,
         Rabs (MathUtils.smooth s 1 0.4 - 1) < 0.05 -> nextScale false s = 1).
Proof.
  intros Hs Hlen Hall Hfresh. split; [| exact release_snaps].
  destruct (predictAll_noHands frames st Hall Hfresh) as (st' & Hrun & Hp & Hlast).
  assert (Hne : frames <> []) by (intros ->; discriminate Hlen).
  destruct (Hlast Hne) as [Hphoto Hrot].
  assert (H1 : pinchSmoother st' = 1).
  { rewrite Hp, Hlen. apply release_settles; [exact Hs | lia]. }
  exists st'. repeat split; try assumption.
  - rewrite Hphoto. exact H1.
  - rewrite Hphoto, H1. rewrite Rminus_diag, Rabs_R0. lra.
Qed.

Lemma idleFrames_noHands : Forall noHands idleFrames.
Proof.
  unfold idleFrames. apply Forall_forall. intros fr Hin.
  apply in_map_iff in Hin. destruct Hin as (k & <- & _). right. reflexivity.
Qed.

Lemma idleFrames_fresh_from (k n : nat) (last : R) :
  last < INR k ->
  fresh last
    (map (fun k => {| currentTime := INR k; landmarks := Some [] |}) (seq k n)).
Proof.
  revert k last. induction n as [| n IH]; intros k last Hlt; simpl; [exact I |].
  split; [lra |]. apply IH. rewrite S_INR. lra.
Qed.

Lemma no_hands_settle_to_neutral_witness :
  (exists st',
      predictAll idleFrames initial = Some st'
      /\ pinchSmoother st' = 1
      /\ photoScale st' = 1
      /\ Rabs (photoScale st' - 1) < 0.05
      /\ rotationMod st' = 0)
  /\ (forall s : R,
         Rabs (MathUtils.smooth s 1 0.4 - 1) < 0.05 -> nextScale false s = 1).
Proof.
  apply (no_hands_settle_to_neutral idleFrames initial).
  - simpl. lra.
  - reflexivity.
  - exact idleFrames_noHands.
  - apply idleFrames_fresh_from. simpl. lra.
Defined.

End NoHands.

(** ** From the hands to the Mode *)

Section ModeFromHands.
Import GestureController.





(** The scale update of a frame with hands pinches exactly when some hand
    does. *)
Lemma handStep_pinch (f : Flags) (hand : Hand) (f' : Flags) :
  handStep f hand = Some f' -> isPinching f' = pinching hand || isPinching f.
Proof.
  unfold handStep, pinching.
  destruct (handPoints hand)
    as [[[[[[wrist thumbTip] indexTip] middleTip] ringTip] pinkyTip] |];
    [| discriminate].
  intros H.
  destruct (Num.ltb (avgDist wrist indexTip middleTip ringTip pinkyTip) 0.25);
    [| destruct (Num.gtb (avgDist wrist indexTip middleTip ringTip pinkyTip) 0.4)];
    injection H as <-; simpl;
    destruct (Num.ltb (pinchDist thumbTip indexTip) 0.05); reflexivity.
Qed.

Lemma handLoop_pinch (hands : list Hand) (f f' : Flags) :
  handLoop f hands = Some f' ->
  isPinching f' = existsb pinching hands || isPinching f.
Proof.
  revert f. induction hands as [| hand rest IH]; intros f H; simpl in H.
  - injection H as <-. reflexivity.
  - destruct (handStep f hand) as [f1 |] eqn:E; [| discriminate].
    rewrite (IH f1 H), (handStep_pinch f hand f1 E). simpl.
    destruct (pinching hand), (existsb pinching rest), (isPinching f); reflexivity.
Qed.

Lemma processLandmarks_scale (hands : list Hand) (st st' : State) :
  hands <> [] ->
  processLandmarks hands st = Some st' ->
  pinchSmoother st' = nextScale (existsb pinching hands) (pinchSmoother st)
  /\ photoScale st' = pinchSmoother st'.
Proof.
  intros Hne H. destruct hands as [| hand rest]; [contradiction |].
  unfold processLandmarks in H.
  destruct (handLoop noFlags (hand :: rest)) as [f |] eqn:E; [| discriminate].
  injection H as <-. rewrite (handLoop_pinch _ _ _ E), orb_false_r.
  destruct (isOpen f); [split; reflexivity |].
  destruct (isFist f); split; reflexivity.
Qed.



(** The open hand of the example is classified open. *)
Lemma openHand_classified : classifiedOpen openHand = true.
Proof.
  unfold classifiedOpen, handAvgDist, openHand. simpl.
  unfold Num.gtb. apply ltb_true.
  unfold avgDist, tipDist, Num.hypot2. simpl.
  replace ((0.5 - 0.5) * (0.5 - 0.5) + (1 - 0.5) * (1 - 0.5)) with (0.5 * 0.5) by lra.
  rewrite sqrt_square by lra. lra.
Qed.

End ModeFromHands.

(** ** Typed arrays of vectors *)

Section Arrays.
Import Types.

Lemma ofVectors_length (l : list Vector3) :
  length (Float32Array.ofVectors l) = (3 * length l)%nat.
Proof. induction l as [| v l IH]; simpl; [reflexivity | rewrite IH; lia]. Qed.

Lemma ofVectors_app (l1 l2 : list Vector3) :
  Float32Array.ofVectors (l1 ++ l2)
  = Float32Array.ofVectors l1 ++ Float32Array.ofVectors l2.
Proof. induction l1 as [| v l1 IH]; simpl; [reflexivity | rewrite IH; reflexivity]. Qed.

Lemma get_app_right (l1 l2 : list R) (k : nat) :
  Float32Array.get (l1 ++ l2) (length l1 + k) = Float32Array.get l2 k.
Proof. unfold Float32Array.get. apply app_nth2_plus. Qed.

Lemma set_app_right (l1 l2 : list R) (k : nat) (v : R) :
  Float32Array.set (l1 ++ l2) (length l1 + k) v = l1 ++ Float32Array.set l2 k v.
Proof.
  induction l1 as [| a l1 IH]; simpl; [reflexivity |].
  destruct (l1 ++ l2) eqn:E; rewrite IH; reflexivity.
Qed.

Lemma set_length (l : list R) (k : nat) (v : R) :
  length (Float32Array.set l k v) = length l.
Proof.
  revert k. induction l as [| a l IH]; intros k; destruct k; simpl; auto.
Qed.

(** An array of [3 * n] numbers stores [n] vectors. *)
Lemma ofVectors_onto (n : nat) (arr : list R) :
  length arr = (3 * n)%nat ->
  exists vs, length vs = n /\ arr = Float32Array.ofVectors vs.
Proof.
  revert arr. induction n as [| n IH]; intros arr Hlen.
  - exists []. destruct arr; [split; reflexivity | discriminate].
  - destruct arr as [| a [| b [| c rest]]]; simpl in Hlen; try lia.
    destruct (IH rest) as (vs & Hvs & ->); [lia |].
    exists (mkVector3 a b c :: vs). simpl. rewrite Hvs. split; reflexivity.
Qed.

Lemma vectorAt_ofVectors (pre : list Vector3) (v : Vector3) (rest : list Vector3) :
  Float32Array.vectorAt (Float32Array.ofVectors (pre ++ v :: rest)) (length pre) = v.
Proof.
  unfold Float32Array.vectorAt. rewrite ofVectors_app.
  replace (length pre * 3)%nat with (length (Float32Array.ofVectors pre) + 0)%nat
    by (rewrite ofVectors_length; lia).
  rewrite <- !Nat.add_assoc, !get_app_right. destruct v; reflexivity.
Qed.

Lemma vectorAt_nth (vs : list Vector3) (i : nat) (v : Vector3) :
  nth_error vs i = Some v ->
  Float32Array.vectorAt (Float32Array.ofVectors vs) i = v.
Proof.
  intros H. destruct (nth_error_split vs i H) as (pre & rest & -> & <-).
  apply vectorAt_ofVectors.
Qed.

End Arrays.

(** ** The positions of a batch, frame after frame *)

Section BatchPositions.
Import Types OrnamentsFrame.

Variable time : R.
Variable isTree : bool.

(** The three writes of [lerpPosition] move the vector of item [i]. *)
Lemma lerpPosition_vector (pre : list Vector3) (item : OrnamentData)
      (v : Vector3) (rest : list Vector3) :
  lerpPosition isTree (length pre) item (Float32Array.ofVectors (pre ++ v :: rest))
  = Float32Array.ofVectors
      (pre ++ lerpVector v (targetOf isTree item) (speedOf isTree item) :: rest).
Proof.
  unfold lerpPosition. rewrite !ofVectors_app.
  replace (length pre * 3)%nat with (length (Float32Array.ofVectors pre) + 0)%nat
    by (rewrite ofVectors_length; lia).
  rewrite <- !Nat.add_assoc.
  simpl Float32Array.ofVectors.
  repeat (progress (rewrite ?get_app_right, ?set_app_right;
                    cbn [Float32Array.get Float32Array.set nth Nat.add])).
  reflexivity.
Qed.

Lemma meshLoop_vectors (mode : RotationMode) (its : list OrnamentData)
      (pre vs : list Vector3) :
  length vs = length its ->
  fst (fst (meshLoop time isTree mode its (length pre)
                     (Float32Array.ofVectors (pre ++ vs))))
  = Float32Array.ofVectors (pre ++ moveAll isTree its vs).
Proof.
  revert pre vs. induction its as [| item its IH]; intros pre vs Hlen.
  - destruct vs; [reflexivity | discriminate].
  - destruct vs as [| v vs]; [discriminate |]. simpl in Hlen.
    cbn [meshLoop moveAll]. rewrite lerpPosition_vector.
    set (v' := lerpVector v (targetOf isTree item) (speedOf isTree item)).
    specialize (IH (pre ++ [v']) vs ltac:(lia)).
    rewrite <- !app_assoc in IH. simpl app in IH.
    replace (length (pre ++ [v'])) with (S (length pre)) in IH
      by (rewrite length_app; simpl; lia).
    destruct (meshLoop time isTree mode its (S (length pre))
                (Float32Array.ofVectors (pre ++ v' :: vs))) as [[p ms] rs].
    simpl in IH. simpl. exact IH.
Qed.

Lemma moveAll_length (its : list OrnamentData) (vs : list Vector3) :
  length (moveAll isTree its vs) = length vs.
Proof.
  revert vs. induction its as [| item its IH]; intros [| v vs]; simpl; auto.
Qed.

Lemma moveAll_nth (its : list OrnamentData) (vs : list Vector3)
      (i : nat) (item : OrnamentData) (v : Vector3) :
  nth_error its i = Some item -> nth_error vs i = Some v ->
  nth_error (moveAll isTree its vs) i
  = Some (lerpVector v (targetOf isTree item) (speedOf isTree item)).
Proof.
  revert vs i. induction its as [| it its IH]; intros vs i Hi Hv.
  - destruct i; discriminate.
  - destruct vs as [| w vs]; [destruct i; discriminate |].
    destruct i as [| i]; simpl in *.
    + injection Hi as <-. injection Hv as <-. reflexivity.
    + apply IH; assumption.
Qed.

(** A mounted batch keeps its items and its shape, and moves its vectors. *)
Lemma updateMesh_vectors (b : Batch) (vs : list Vector3) :
  mesh b <> None ->
  posArr b = Float32Array.ofVectors vs ->
  length vs = length (items b) ->
  let b' := updateMesh time isTree b in
  mesh b' <> None
  /\ items b' = items b
  /\ posArr b' = Float32Array.ofVectors (moveAll isTree (items b) vs).
Proof.
  intros Hm Hp Hlen. unfold updateMesh.
  destruct (mesh b) as [m |] eqn:E; [| contradiction].
  pose proof (meshLoop_vectors (rotationMode b) (items b) [] vs Hlen) as H.
  simpl in H. rewrite <- Hp in H.
  destruct (meshLoop time isTree (rotationMode b) (items b) 0 (posArr b)) as [[p ms] rs].
  simpl in H. simpl. repeat split; [discriminate | exact H].
Qed.

End BatchPositions.

(** ** One attempt of the placer *)

Section Attempt.
Import Types Cone Ornaments.

Variable rnd : Random.Stream.

Ltac run_gen :=
  unfold sample, treePlacement, bellOverride, propertiesOf, accept, push,
    getPlaced, random, bind, ret in *; simpl in *.

(** Drawing numbers leaves [placedItems] alone. *)
Lemma sample_placed (oy : option R) (s : GenState) :
  placedItems (snd (sample rnd oy s)) = placedItems s.
Proof.
  run_gen.
  destruct (chooseType (rnd (cursor s)) oy); simpl;
    repeat match goal with
           | |- context [if ?b then _ else _] => destruct b; simpl
           | |- context [match ?o with Some _ => _ | None => _ end] =>
               destruct o; simpl
           end; reflexivity.
Qed.


(** No candidate is a star: the draw never yields one. *)
Lemma chooseType_not_star (typeRand : R) (oy : option R) :
  chooseType typeRand oy <> star.
Proof.
  unfold chooseType. destruct oy; [discriminate |].
  repeat match goal with
         | |- context [if ?b then _ else _] => destruct b
         end; discriminate.
Qed.

Lemma sample_not_star (oy : option R) (s : GenState) :
  c_type (fst (fst (sample rnd oy s))) <> star.
Proof.
  pose proof (chooseType_not_star (rnd (cursor s)) oy) as Hns.
  run_gen.
  destruct (chooseType (rnd (cursor s)) oy); simpl; try contradiction;
    repeat match goal with
           | |- context [if ?b then _ else _] => destruct b; simpl
           | |- context [match ?o with Some _ => _ | None => _ end] =>
               destruct o; simpl
           end; discriminate.
Qed.

(** A point at angle [a] and radius [r] around the axis is [r] away from it. *)
Lemma axis_distance (a r y0 : R) :
  0 <= r -> distanceFromAxis (mkVector3 (cos a * r) y0 (sin a * r)) = r.
Proof.
  intros Hr. unfold distanceFromAxis, Num.hypot2. simpl.
  replace (cos a * r * (cos a * r) + sin a * r * (sin a * r))
    with (r * r * ((sin a)² + (cos a)²)) by (unfold Rsqr; ring).
  rewrite sin2_cos2, Rmult_1_r. apply sqrt_square, Hr.
Qed.

Lemma coneRadius_drawn (r : R) :
  coneRadius (r * TREE_HEIGHT - TREE_HEIGHT / 2) = TREE_RADIUS * (1 - r).
Proof. unfold coneRadius, normalizedY, TREE_HEIGHT, TREE_RADIUS. lra. Qed.

Lemma coneRadius_nonneg (y0 : R) : y0 <= TREE_HEIGHT / 2 -> 0 <= coneRadius y0.
Proof. unfold coneRadius, normalizedY, TREE_HEIGHT, TREE_RADIUS. intros H. lra. Qed.

(** "Place ornaments between 90% and 115% of cone radius." *)
Lemma treePlacement_within (oy : option R) (s : GenState) :
  Random.inUnit rnd ->
  (forall y0, oy = Some y0 -> y0 <= TREE_HEIGHT / 2) ->
  within 0.9 1.15 (fst (treePlacement rnd oy s)).
Proof.
  intros Hu Hoy. unfold treePlacement, random, bind, ret.
  assert (Hgen : forall y0 a b,
             0 <= coneRadius y0 -> 0 <= b < 1 ->
             within 0.9 1.15
               (mkVector3 (cos a * (coneRadius y0 * (0.9 + b * 0.25))) y0
                          (sin a * (coneRadius y0 * (0.9 + b * 0.25))))).
  { intros y0 a b Hc Hb. unfold within. simpl vy.
    rewrite axis_distance by nra. nra. }
  destruct oy as [y0 |]; simpl.
  - apply Hgen; [apply coneRadius_nonneg, Hoy; reflexivity | apply Hu].
  - apply Hgen; [| apply Hu].
    rewrite coneRadius_drawn. pose proof (Hu (cursor s)). unfold TREE_RADIUS. lra.
Qed.

(** The position of a candidate is a tree placement. *)
Lemma sample_position (oy : option R) (s : GenState) :
  exists s1, snd (fst (sample rnd oy s)) = fst (treePlacement rnd oy s1).
Proof.
  unfold sample, bind, ret.
  destruct (random rnd s) as [typeRand s1].
  destruct (propertiesOf rnd (chooseType typeRand oy) s1) as [c s2].
  destruct (bellOverride rnd c s2) as [c' s3].
  exists s3. destruct (treePlacement rnd oy s3) as [p s4]. reflexivity.
Qed.

Lemma sample_within (oy : option R) (s : GenState) :
  Random.inUnit rnd ->
  (forall y0, oy = Some y0 -> y0 <= TREE_HEIGHT / 2) ->
  within 0.9 1.15 (snd (fst (sample rnd oy s))).
Proof.
  intros Hu Hoy. destruct (sample_position oy s) as (s1 & ->).
  apply treePlacement_within; assumption.
Qed.

End Attempt.

(** ** The attempts of one [createItem] *)

Section CreateItem.
Import Types Cone Ornaments.

Variable rnd : Random.Stream.

Lemma accept_spec (id0 : nat) (c : Candidate) (p : Vector3) (s : GenState) :
  let (item, s') := accept rnd id0 c p s in
  placedItems s' = placedItems s ++ [{| pos := p; radius := c_collisionRadius c |}]
  /\ treePos item = p /\ weight item = c_weight c
  /\ type item = c_type c /\ id item = id0.
Proof.
  unfold accept, push, random, bind, ret. simpl. repeat split.
Qed.

Lemma attemptLoop_spec (id0 : nat) (oy : option R) (remaining : nat) :
  forall (attempts : nat) (s : GenState) res n s',
    attemptLoop rnd remaining attempts id0 oy s = ((res, n), s') ->
    (n <= attempts + remaining)%nat
    /\ match res with
       | None =>
           n = (attempts + remaining)%nat
           /\ placedItems s' = placedItems s
           /\ Forall (fun cp => collides (placedItems s) cp = true)
                     (fst (candidates rnd remaining oy s))
       | Some item =>
           Exists (fun cp => collides (placedItems s) cp = false)
                  (fst (candidates rnd remaining oy s))
           /\ exists s0,
               acceptedFrom id0 (fst (sample rnd oy s0))
                            (placedItems s) (placedItems s') item
       end.
Proof.
  induction remaining as [| k IH]; intros attempts s res n s' H.
  - simpl in H. unfold ret in H. injection H as <- <- <-.
    split; [lia |]. repeat split; [lia | constructor].
  - cbn [attemptLoop candidates] in *. unfold bind in *.
    pose proof (sample_placed rnd oy s) as Hpl.
    destruct (sample rnd oy s) as [cp s1] eqn:Es. simpl in Hpl.
    unfold getPlaced in H. rewrite Hpl in H.
    destruct (candidates rnd k oy s1) as [rest s2] eqn:Ec. unfold ret. simpl.
    destruct (isColliding (placedItems s) (snd cp) (c_collisionRadius (fst cp)))
      eqn:Ecol.
    + specialize (IH (S attempts) s1 res n s' H). rewrite Ec, Hpl in IH.
      simpl in IH. destruct IH as [Hn Hres]. split; [lia |].
      destruct res as [item |].
      * destruct Hres as [Hex Hacc]. split; [right; exact Hex | exact Hacc].
      * destruct Hres as (-> & Hsame & Hall).
        repeat split; [lia | exact Hsame | constructor; [exact Ecol | exact Hall]].
    + pose proof (accept_spec id0 (fst cp) (snd cp) s1) as Hacc.
      destruct (accept rnd id0 (fst cp) (snd cp) s1) as [item s3].
      unfold ret in H. injection H as <- <- <-.
      split; [lia |]. split; [left; exact Ecol |].
      exists s. rewrite Es. simpl. rewrite Hpl in Hacc.
      destruct Hacc as (Hp & Ht & Hw & Hty & Hid).
      unfold acceptedFrom, collides. repeat split; assumption.
Qed.

Lemma createItem_counting (id0 : nat) (oy : option R) (s : GenState) :
  createItem rnd id0 oy s
  = (fst (fst (createItemCounting rnd id0 oy s)),
     snd (createItemCounting rnd id0 oy s)).
Proof.
  unfold createItem, bind, ret.
  destruct (createItemCounting rnd id0 oy s) as [[res n] s']. reflexivity.
Qed.

(** What the callers of [createItem] can rely on. *)
Lemma createItem_spec (id0 : nat) (oy : option R) (s : GenState) res s' :
  createItem rnd id0 oy s = (res, s') ->
  match res with
  | None => placedItems s' = placedItems s
  | Some item =>
      exists s0,
        acceptedFrom id0 (fst (sample rnd oy s0)) (placedItems s) (placedItems s') item
  end.
Proof.
  rewrite createItem_counting. intros H.
  destruct (createItemCounting rnd id0 oy s) as [[res0 n] s0] eqn:E.
  simpl in H. injection H as <- <-.
  destruct (attemptLoop_spec id0 oy maxAttempts 0 s res0 n s0 E) as [_ Hres].
  destruct res0 as [item |]; [exact (proj2 Hres) | exact (proj1 (proj2 Hres))].
Qed.

End CreateItem.

(** ** The attempt budget *)

Section Budget.
Import Types Cone Ornaments.

(** The attempts of [createItem], counted. *)
Lemma createItem_counted (rnd : Random.Stream) (id0 : nat)
      (oy : option R) (s : GenState) :
  let r := createItemCounting rnd id0 oy s in
  (snd (fst r) <= 50)%nat
  /\ (fst (fst r) = None
      <-> Forall (fun cp => collides (placedItems s) cp = true)
                 (fst (candidates rnd 50 oy s)))
  /\ (fst (fst r) = None ->
      snd (fst r) = 50%nat /\ placedItems (snd r) = placedItems s).
Proof.
  cbv zeta.
  destruct (createItemCounting rnd id0 oy s) as [[res n] s'] eqn:E.
  destruct (attemptLoop_spec rnd id0 oy maxAttempts 0 s res n s' E) as [Hn Hres].
  simpl. split; [exact Hn |].
  destruct res as [item |].
  - destruct Hres as [Hex _]. split; [split |]; try discriminate.
    intros Hall. exfalso. apply Exists_exists in Hex.
    destruct Hex as (cp & Hin & Hfree).
    rewrite Forall_forall in Hall. rewrite (Hall cp Hin) in Hfree. discriminate.
  - destruct Hres as (Hn' & Hsame & Hall). split; [split; auto |].
    intros _. split; [exact Hn' | exact Hsame].
Qed.

(** C3. [createItem] samples at most 50 candidates. It returns null exactly
    when each of the 50 candidates it draws collides with an item already
    placed; it then has used the 50 attempts and leaves [placedItems] as it
    was. The function is total: nothing is raised. *)
Theorem createItem_attempt_budget (rnd : Random.Stream) (id0 : nat)
        (oy : option R) (s : GenState) :
  let r := createItemCounting rnd id0 oy s in
  createItem rnd id0 oy s = (fst (fst r), snd r)
  /\ (snd (fst r) <= 50)%nat
  /\ (fst (fst r) = None
      <-> Forall (fun cp => collides (placedItems s) cp = true)
                 (fst (candidates rnd 50 oy s)))
  /\ (fst (fst r) = None ->
      snd (fst r) = 50%nat /\ placedItems (snd r) = placedItems s).
Proof.
  cbv zeta. split; [apply createItem_counting | apply createItem_counted].
Qed.

(** *** The stream of zeros *)

Lemma sample_zero (s : GenState) :
  sample (Random.const 0) None s
  = ((zeroCandidate, zeroPosition),
     {| cursor := 8 + cursor s; placedItems := placedItems s |}).
Proof.
  unfold sample, treePlacement, bellOverride, propertiesOf, chooseType,
    random, bind, ret, Random.const. simpl.
  rewrite !(ltb_true 0) by lra. simpl.
  replace (0 * PI * 2) with 0 by ring. rewrite cos_0, sin_0.
  unfold zeroCandidate, zeroPosition, coneRadius, normalizedY,
    TREE_HEIGHT, TREE_RADIUS.
  replace (0 * 0.4 + 0.5) with 0.5 by lra.
  replace (0.5 * 0.6) with 0.3 by lra.
  replace (0 * 18 - 18 / 2) with (-9) by lra.
  replace (1 * (6.5 * (1.0 - (-9 + 18 / 2) / 18) * (0.9 + 0 * 0.25)))
    with 5.85 by lra.
  replace (0 * (6.5 * (1.0 - (-9 + 18 / 2) / 18) * (0.9 + 0 * 0.25)))
    with 0 by lra.
  reflexivity.
Qed.

Lemma candidates_zero (n : nat) (s : GenState) :
  fst (candidates (Random.const 0) n None s) = repeat (zeroCandidate, zeroPosition) n.
Proof.
  revert s. induction n as [| n IH]; intros s; [reflexivity |].
  cbn [candidates repeat]. unfold bind at 1. rewrite sample_zero.
  unfold bind, ret. specialize (IH {| cursor := 8 + cursor s; placedItems := placedItems s |}).
  destruct (candidates (Random.const 0) n None _) as [rest s2].
  simpl in *. rewrite IH. reflexivity.
Qed.

Lemma zero_collides_crowded :
  collides (placedItems crowded) (zeroCandidate, zeroPosition) = true.
Proof.
  unfold collides, crowded, zeroCandidate, zeroPosition, distanceTo. simpl.
  rewrite ltb_true; [reflexivity |].
  replace ((0.3 + 100) * 0.85) with (sqrt (85.255 * 85.255))
    by (rewrite sqrt_square; lra).
  apply sqrt_lt_1; cbn [vx vy vz]; lra.
Qed.

(** In the crowded state every attempt collides: the item is dropped after
    50 attempts and nothing is placed. *)
Example createItem_exhausted :
  fst (createItemCounting (Random.const 0) 7 None crowded) = (None, 50%nat)
  /\ placedItems (snd (createItemCounting (Random.const 0) 7 None crowded))
     = placedItems crowded.
Proof.
  destruct (createItem_counted (Random.const 0) 7 None crowded)
    as (_ & Hiff & Hnone).
  assert (Hn : fst (fst (createItemCounting (Random.const 0) 7 None crowded)) = None).
  { apply Hiff. rewrite candidates_zero. apply Forall_forall.
    intros cp Hin. apply repeat_spec in Hin. subst cp. exact zero_collides_crowded. }
  destruct (Hnone Hn) as [H50 Hsame]. clear Hiff Hnone.
  split; [| exact Hsame].
  destruct (createItemCounting (Random.const 0) 7 None crowded) as [[res n] s'].
  cbn [fst snd] in Hn, H50 |- *. rewrite Hn, H50. reflexivity.
Qed.

End Budget.

(** ** The generation loops, step by step *)

Section Generation.
Import Types Cone Ornaments.

Variable rnd : Random.Stream.

Lemma steps_trans (x y z : Arrays * GenState) :
  Steps rnd x y -> Steps rnd y z -> Steps rnd x z.
Proof.
  intros Hxy Hyz. induction Hxy as [x | x w y Hstep Hwy IH]; [exact Hyz |].
  apply (steps_next rnd x w z Hstep), IH, Hyz.
Qed.

Lemma steps_one (x y : Arrays * GenState) : Step rnd x y -> Steps rnd x y.
Proof. intros H. apply (steps_next rnd x y y H), steps_done. Qed.

(** An invariant of the steps is an invariant of the loops. *)
Lemma steps_invariant (J : Arrays * GenState -> Prop) :
  (forall x y, Step rnd x y -> J x -> J y) ->
  forall x z, Steps rnd x z -> J x -> J z.
Proof.
  intros Hstep x z Hxz. induction Hxz as [x | x y z Hxy Hyz IH]; intros Hx;
    [exact Hx | apply IH, (Hstep x y Hxy Hx)].
Qed.

Lemma mainLoop_steps (k : nat) :
  forall (idCounter placedCount : nat) (a : Arrays) (s : GenState),
    Steps rnd (a, s)
          (snd (fst (mainLoop rnd k idCounter placedCount a s)),
           snd (mainLoop rnd k idCounter placedCount a s)).
Proof.
  induction k as [| k IH]; intros idCounter placedCount a s; cbn [mainLoop].
  - apply steps_done.
  - destruct (placedCount <? ORNAMENT_COUNT)%nat; [| apply steps_done].
    unfold bind. destruct (createItem rnd idCounter None s) as [[item |] s'] eqn:E.
    + apply (steps_next rnd _ (pushByType item a, s')); [| apply IH].
      apply (step_main rnd a s s' idCounter item E).
    + apply (steps_next rnd _ (a, s')); [| apply IH].
      apply (step_dropped rnd a s s' idCounter None E).
Qed.

Lemma fillerLoop_steps (k : nat) :
  forall (idCounter extraPlaced : nat) (a : Arrays) (s : GenState),
    Steps rnd (a, s)
          (snd (fst (fillerLoop rnd k idCounter extraPlaced a s)),
           snd (fillerLoop rnd k idCounter extraPlaced a s)).
Proof.
  induction k as [| k IH]; intros idCounter extraPlaced a s; cbn [fillerLoop].
  - apply steps_done.
  - destruct (extraPlaced <? extraCount)%nat; [| apply steps_done].
    unfold bind, random. cbn [fst snd].
    set (s1 := {| cursor := S (cursor s); placedItems := placedItems s |}).
    apply (steps_next rnd _ (a, s1)); [apply (step_draw rnd a s) |].
    destruct (createItem rnd idCounter
                (Some (rnd (cursor s) * 4.0 - TREE_HEIGHT / 2)) s1)
      as [[item |] s'] eqn:E.
    + set (c := if Num.gtb (rnd (cursor s')) 0.5 then GOLD_METALLIC else GOLD_ROSE).
      set (s2 := {| cursor := S (cursor s'); placedItems := placedItems s' |}).
      apply (steps_next rnd _ (pushBell (asFiller item c) a, s')).
      { apply (step_filler rnd a s1 s' idCounter (cursor s) item c E). }
      apply (steps_next rnd _ (pushBell (asFiller item c) a, s2));
        [apply (step_draw rnd _ s') | apply IH].
    + apply (steps_next rnd _ (a, s')); [| apply IH].
      apply (step_dropped rnd a s1 s' idCounter _ E).
Qed.

Lemma generate_steps (s : GenState) :
  Steps rnd (noArrays, s) (generate rnd s).
Proof.
  unfold generate, bind, ret.
  pose proof (mainLoop_steps (loopBound ORNAMENT_COUNT) 0 0 noArrays s) as Hm.
  destruct (mainLoop rnd (loopBound ORNAMENT_COUNT) 0 0 noArrays s) as [[idc a] s1].
  cbn [fst snd] in *.
  pose proof (fillerLoop_steps (loopBound extraCount) idc 0 a s1) as Hf.
  destruct (fillerLoop rnd (loopBound extraCount) idc 0 a s1) as [[idc' a'] s2].
  cbn [fst snd] in *. exact (steps_trans _ _ _ Hm Hf).
Qed.

End Generation.

(** ** What the loops maintain *)

Section Invariants.
Import Types Cone Ornaments.

Variable rnd : Random.Stream.

Lemma distanceTo_sym (a b : Vector3) : distanceTo a b = distanceTo b a.
Proof. unfold distanceTo. f_equal. ring. Qed.

Lemma apart_sym (a b : PlacedItem) : apart a b -> apart b a.
Proof. unfold apart. rewrite (distanceTo_sym (pos b)). intros H. lra. Qed.

(** A candidate that does not collide is apart from everything placed. *)
Lemma free_apart (placed : list PlacedItem) (p : Vector3) (r : R) :
  isColliding placed p r = false ->
  Forall (fun o => apart o {| pos := p; radius := r |}
                   /\ apart {| pos := p; radius := r |} o) placed.
Proof.
  induction placed as [| o placed IH]; intros H; [constructor |].
  simpl in H.
  destruct (Num.ltb (distanceTo p (pos o)) ((r + radius o) * 0.85)) eqn:E;
    [discriminate |].
  apply ltb_ge in E.
  assert (Ha : apart {| pos := p; radius := r |} o) by (unfold apart; simpl; lra).
  constructor; [split; [apply apart_sym, Ha | exact Ha] | apply IH, H].
Qed.

Lemma ordPairs_snoc {A : Type} (Rel : A -> A -> Prop) (l : list A) (x : A) :
  ForallOrdPairs Rel l -> Forall (fun o => Rel o x) l ->
  ForallOrdPairs Rel (l ++ [x]).
Proof.
  intros Hl Hx. induction Hl as [| a l Ha Hl IH]; simpl.
  - constructor; constructor.
  - inversion Hx as [| ? ? Hax Hlx]; subst. constructor.
    + apply Forall_app. split; [exact Ha | constructor; [exact Hax | constructor]].
    + apply IH, Hlx.
Qed.

Lemma accepted_spaced (id0 : nat) (cp : Candidate * Vector3)
      (placed placed' : list PlacedItem) (item : OrnamentData) :
  acceptedFrom id0 cp placed placed' item -> spaced placed -> spaced placed'.
Proof.
  intros (Hfree & -> & _) Hs. unfold spaced.
  apply ordPairs_snoc; [exact Hs |].
  apply free_apart in Hfree.
  eapply Forall_impl; [| exact Hfree]. intros o [H1 H2]. split; assumption.
Qed.

Lemma step_spaced (x y : Arrays * GenState) :
  Step rnd x y -> spaced (placedItems (snd x)) -> spaced (placedItems (snd y)).
Proof.
  intros Hstep Hs. destruct Hstep as [a s s' id0 item E | a s s' id0 k item c E
                                     | a s s' id0 oy E | a s]; simpl in *.
  - destruct (createItem_spec rnd id0 None s _ _ E) as (s0 & Hacc).
    exact (accepted_spaced _ _ _ _ _ Hacc Hs).
  - destruct (createItem_spec rnd id0 _ s _ _ E) as (s0 & Hacc).
    exact (accepted_spaced _ _ _ _ _ Hacc Hs).
  - rewrite (createItem_spec rnd id0 oy s _ _ E). exact Hs.
  - exact Hs.
Qed.

(** *** Items and placements *)

(** Appending [x] to one of the lists of a concatenation inserts it. *)
Lemma inserted_perm {A : Type} (x : A) (l1 l2 l l' : list A) :
  l = l1 ++ l2 -> l' = l1 ++ x :: l2 -> Permutation l' (x :: l).
Proof.
  intros -> ->. symmetry. apply Permutation_cons_app. reflexivity.
Qed.

Lemma allItems_pushBell (item : OrnamentData) (a : Arrays) :
  Permutation (allItems (pushBell item a)) (item :: allItems a).
Proof.
  apply (inserted_perm item
           (spheres a ++ boxes a ++ icicles a ++ candyCanes a ++ bells a)
           (snowflakes a));
    unfold allItems, pushBell; simpl; rewrite <- ?app_assoc; reflexivity.
Qed.

Lemma allItems_pushByType (item : OrnamentData) (a : Arrays) :
  type item <> star ->
  Permutation (allItems (pushByType item a)) (item :: allItems a).
Proof.
  intros Hns. unfold pushByType.
  destruct (type item); try contradiction.
  - apply (inserted_perm item (spheres a ++ boxes a)
             (icicles a ++ candyCanes a ++ bells a ++ snowflakes a));
      unfold allItems; simpl; rewrite <- ?app_assoc; reflexivity.
  - apply (inserted_perm item (spheres a)
             (boxes a ++ icicles a ++ candyCanes a ++ bells a ++ snowflakes a));
      unfold allItems; simpl; rewrite <- ?app_assoc; reflexivity.
  - apply (inserted_perm item (spheres a ++ boxes a ++ icicles a)
             (candyCanes a ++ bells a ++ snowflakes a));
      unfold allItems; simpl; rewrite <- ?app_assoc; reflexivity.
  - apply (inserted_perm item (spheres a ++ boxes a ++ icicles a ++ candyCanes a)
             (bells a ++ snowflakes a));
      unfold allItems; simpl; rewrite <- ?app_assoc; reflexivity.
  - apply allItems_pushBell.
  - apply (inserted_perm item
             (spheres a ++ boxes a ++ icicles a ++ candyCanes a ++ bells a
              ++ snowflakes a) []);
      unfold allItems; simpl; rewrite <- ?app_assoc, ?app_nil_r; reflexivity.
Qed.

(** The item a successful [createItem] returns. *)
Lemma accepted_not_star (id0 : nat) (oy : option R) (s0 : GenState)
      (placed placed' : list PlacedItem) (item : OrnamentData) :
  acceptedFrom id0 (fst (sample rnd oy s0)) placed placed' item ->
  type item <> star.
Proof.
  intros (_ & _ & _ & _ & Hty & _). rewrite Hty. apply sample_not_star.
Qed.

(** A property of the items that every accepted item has, and that the
    filler loop's rewriting keeps, holds of every item of the arrays. *)
Lemma step_items (P : OrnamentData -> Prop) :
  (forall id0 oy s s' item,
      (oy = None \/ exists k, oy = Some (rnd k * 4.0 - TREE_HEIGHT / 2)) ->
      createItem rnd id0 oy s = (Some item, s') -> P item) ->
  (forall item c, P item -> P (asFiller item c)) ->
  forall x y, Step rnd x y ->
    Forall P (allItems (fst x)) -> Forall P (allItems (fst y)).
Proof.
  intros Hnew Hfill x y Hstep Hx.
  destruct Hstep as [a s s' id0 item E | a s s' id0 k item c E
                    | a s s' id0 oy E | a s]; simpl in *; try exact Hx.
  - destruct (createItem_spec rnd id0 None s _ _ E) as (s0 & Hacc).
    apply (Permutation_Forall
             (Permutation_sym (allItems_pushByType item a
                                 (accepted_not_star _ _ _ _ _ _ Hacc)))).
    constructor; [| exact Hx]. apply (Hnew id0 None s s' item); [left; reflexivity | exact E].
  - apply (Permutation_Forall (Permutation_sym (allItems_pushBell _ a))).
    constructor; [| exact Hx]. apply Hfill.
    apply (Hnew id0 (Some (rnd k * 4.0 - TREE_HEIGHT / 2)) s s' item);
      [right; exists k; reflexivity | exact E].
Qed.

(** The tree positions of the items are the positions placed. *)
Lemma step_placements (x y : Arrays * GenState) :
  Step rnd x y ->
  Permutation (map treePos (allItems (fst x))) (map pos (placedItems (snd x))) ->
  Permutation (map treePos (allItems (fst y))) (map pos (placedItems (snd y))).
Proof.
  intros Hstep Hx.
  assert (Hadd : forall its its' placed placed' item id0 cp,
             Permutation its' (item :: its) ->
             acceptedFrom id0 cp placed placed' item ->
             Permutation (map treePos its) (map pos placed) ->
             Permutation (map treePos its') (map pos placed')).
  { intros its its' placed placed' item id0 cp Hp (_ & -> & Ht & _) Hperm.
    rewrite (Permutation_map treePos Hp). simpl.
    rewrite map_app. simpl. rewrite Ht.
    apply Permutation_cons_app. rewrite app_nil_r. exact Hperm. }
  destruct Hstep as [a s s' id0 item E | a s s' id0 k item c E
                    | a s s' id0 oy E | a s]; simpl in *.
  - destruct (createItem_spec rnd id0 None s _ _ E) as (s0 & Hacc).
    apply (Hadd _ _ _ _ item id0 _
             (allItems_pushByType item a (accepted_not_star _ _ _ _ _ _ Hacc))
             Hacc Hx).
  - destruct (createItem_spec rnd id0 _ s _ _ E) as (s0 & Hacc).
    pose proof (allItems_pushBell (asFiller item c) a) as Hp.
    rewrite (Permutation_map treePos Hp). simpl.
    destruct Hacc as (_ & -> & Ht & _). rewrite map_app. simpl. rewrite Ht.
    apply Permutation_cons_app. rewrite app_nil_r. exact Hx.
  - rewrite (createItem_spec rnd id0 oy s _ _ E). exact Hx.
  - exact Hx.
Qed.

End Invariants.

(** ** The placements keep their distance *)

Section Spacing.
Import Types Cone Ornaments.

(** C2. After the generation (the bottom filler pass included) every two
    distinct placements are at least 0.85 times the sum of their recorded
    collision radii apart, and the positions placed are exactly the tree
    positions of the ornaments generated. *)
Theorem accepted_placements_are_spaced (rnd : Random.Stream) (c : nat) :
  spaced (placedItems (snd (generate rnd (start c))))
  /\ Permutation (map treePos (allItems (fst (generate rnd (start c)))))
                 (map pos (placedItems (snd (generate rnd (start c))))).
Proof.
  pose proof (generate_steps rnd (start c)) as Hsteps.
  revert Hsteps. generalize (generate rnd (start c)). intros g Hsteps. split.
  - apply (steps_invariant rnd (fun x => spaced (placedItems (snd x)))
             (step_spaced rnd) _ _ Hsteps).
    constructor.
  - apply (steps_invariant rnd
             (fun x => Permutation (map treePos (allItems (fst x)))
                                   (map pos (placedItems (snd x))))
             (step_placements rnd) _ _ Hsteps).
    constructor.
Qed.

(** The same, by the indices of the two placements. *)
Lemma spaced_by_index (placed : list PlacedItem) (i j : nat) (a b : PlacedItem) :
  spaced placed -> i <> j ->
  nth_error placed i = Some a -> nth_error placed j = Some b -> apart a b.
Proof.
  intros Hs. revert i j. induction Hs as [| o l Ho Hl IH]; intros i j Hij Hi Hj.
  - destruct i; discriminate.
  - rewrite Forall_forall in Ho.
    destruct i as [| i], j as [| j]; simpl in Hi, Hj.
    + contradiction.
    + injection Hi as <-. apply (Ho b), (nth_error_In _ _ Hj).
    + injection Hj as <-. apply (Ho a), (nth_error_In _ _ Hi).
    + apply (IH i j); [lia | assumption | assumption].
Qed.

End Spacing.

(** ** The positions hug the cone *)

Section Surface.
Import Types Cone.

Variable rnd : Random.Stream.
Hypothesis rnd_unit : Random.inUnit rnd.

Lemma createItem_within (id0 : nat) (oy : option R) (s s' : Ornaments.GenState)
      (item : OrnamentData) :
  (oy = None \/ exists k, oy = Some (rnd k * 4.0 - TREE_HEIGHT / 2)) ->
  Ornaments.createItem rnd id0 oy s = (Some item, s') ->
  within 0.9 1.15 (treePos item).
Proof.
  intros Hoy E.
  destruct (createItem_spec rnd id0 oy s _ _ E) as (s0 & _ & _ & -> & _).
  apply sample_within; [exact rnd_unit |].
  intros y0 Hy. destruct Hoy as [-> | (k & ->)]; [discriminate |].
  injection Hy as <-. pose proof (rnd_unit k). unfold TREE_HEIGHT. lra.
Qed.

Lemma ornaments_within (c : nat) :
  Forall (fun item => within 0.9 1.15 (treePos item))
         (Ornaments.allItems (fst (Ornaments.generate rnd (Ornaments.start c)))).
Proof.
  pose proof (generate_steps rnd (Ornaments.start c)) as Hsteps.
  revert Hsteps. generalize (Ornaments.generate rnd (Ornaments.start c)).
  intros g Hsteps.
  apply (steps_invariant rnd
           (fun x => Forall (fun item => within 0.9 1.15 (treePos item))
                            (Ornaments.allItems (fst x)))
           (step_items rnd _ createItem_within (fun item c H => H)) _ _ Hsteps).
  constructor.
Qed.

(** "Bias towards the surface": between 40% and 100% of the radius. *)
Lemma particle_within (i c : nat) :
  within 0.4 1 (Foliage.p_tree (fst (Foliage.particle rnd i c))).
Proof.
  unfold Foliage.particle, Random.bind, Random.next, Random.ret. simpl.
  set (r := rnd c). set (q := rnd (S c)).
  assert (Hr : 0 <= r < 1) by apply rnd_unit.
  assert (Hq : 0 <= sqrt q < 1).
  { split; [apply sqrt_pos |]. rewrite <- sqrt_1.
    apply sqrt_lt_1; [apply rnd_unit | lra | apply rnd_unit]. }
  assert (Hcone : TREE_RADIUS * (1.0 - (r * TREE_HEIGHT - TREE_HEIGHT / 2 + TREE_HEIGHT / 2)
                                       / TREE_HEIGHT)
                  = coneRadius (r * TREE_HEIGHT - TREE_HEIGHT / 2)) by reflexivity.
  rewrite Hcone. unfold within. simpl vy.
  assert (H0 : 0 <= coneRadius (r * TREE_HEIGHT - TREE_HEIGHT / 2)).
  { rewrite coneRadius_drawn. unfold TREE_RADIUS. lra. }
  rewrite axis_distance by nra. nra.
Qed.

Lemma particles_within (n : nat) :
  forall i c,
    Forall (fun p => within 0.4 1 (Foliage.p_tree p))
           (fst (Foliage.particles rnd n i c))
    /\ length (fst (Foliage.particles rnd n i c)) = n.
Proof.
  induction n as [| n IH]; intros i c; cbn [Foliage.particles].
  - split; [constructor | reflexivity].
  - unfold Random.bind, Random.ret.
    pose proof (particle_within i c) as Hp.
    destruct (Foliage.particle rnd i c) as [p c1].
    destruct (IH (S i) c1) as [Hall Hlen].
    destruct (Foliage.particles rnd n (S i) c1) as [rest c2].
    simpl in *. split; [constructor; assumption | f_equal; exact Hlen].
Qed.

Lemma foliage_within (count c i : nat) :
  (i < count)%nat ->
  within 0.4 1
    (Float32Array.vectorAt
       (Foliage.positions (fst (Foliage.generate rnd count c))) i).
Proof.
  intros Hi. unfold Foliage.generate, Random.bind, Random.ret.
  destruct (particles_within count 0 c) as [Hall Hlen].
  destruct (Foliage.particles rnd count 0 c) as [ps c1]. simpl in *.
  destruct (nth_error ps i) as [p |] eqn:E;
    [| apply nth_error_None in E; lia].
  rewrite (vectorAt_nth (map Foliage.p_tree ps) i (Foliage.p_tree p))
    by (rewrite nth_error_map, E; reflexivity).
  rewrite Forall_forall in Hall. apply Hall, (nth_error_In _ _ E).
Qed.

(** The photos stand out: 125% of the radius. *)
Lemma photo_within (index c : nat) :
  within 1.25 1.25 (fst (App.calculateTreePos rnd index c)).
Proof.
  unfold App.calculateTreePos, Random.bind, Random.next, Random.ret. simpl.
  set (r := rnd c). assert (Hr : 0 <= r < 1) by apply rnd_unit.
  set (y0 := r * (TREE_HEIGHT - 4) - (TREE_HEIGHT / 2 - 2)).
  assert (Hcone : TREE_RADIUS * (1.0 - (y0 + TREE_HEIGHT / 2) / TREE_HEIGHT)
                  = coneRadius y0) by reflexivity.
  rewrite Hcone. unfold within. simpl vy.
  assert (H0 : 0 <= coneRadius y0).
  { apply coneRadius_nonneg. unfold y0, TREE_HEIGHT. lra. }
  rewrite axis_distance by nra. lra.
Qed.

End Surface.

(** ** The band of each generator *)

Section Bands.
Import Types Cone.

Lemma zeros_unit : Random.inUnit (Random.const 0).
Proof. intros n. unfold Random.const. lra. Qed.

(** C1, as the code has it. Every ornament the placer generates lies
    between 0.9 and 1.15 times the cone's radius at its height from the
    axis; every foliage particle lies between 0.4 and 1.0 times that radius;
    every photo lies at exactly 1.25 times that radius. *)
Theorem tree_positions_by_generator (rnd : Random.Stream) :
  Random.inUnit rnd ->
  (forall c : nat,
      Forall (fun item => within 0.9 1.15 (treePos item))
             (Ornaments.allItems (fst (Ornaments.generate rnd (Ornaments.start c)))))
  /\ (forall count c i : nat,
         (i < count)%nat ->
         within 0.4 1
           (Float32Array.vectorAt
              (Foliage.positions (fst (Foliage.generate rnd count c))) i))
  /\ (forall index c : nat,
         within 1.25 1.25 (fst (App.calculateTreePos rnd index c))).
Proof.
  intros Hu. split; [| split].
  - apply ornaments_within, Hu.
  - apply foliage_within, Hu.
  - apply photo_within, Hu.
Qed.

Lemma tree_positions_by_generator_witness :
  Random.inUnit (Random.const 0)
  /\ (forall c : nat,
         Forall (fun item => within 0.9 1.15 (treePos item))
                (Ornaments.allItems
                   (fst (Ornaments.generate (Random.const 0) (Ornaments.start c)))))
  /\ (forall count c i : nat,
         (i < count)%nat ->
         within 0.4 1
           (Float32Array.vectorAt
              (Foliage.positions (fst (Foliage.generate (Random.const 0) count c))) i))
  /\ (forall index c : nat,
         within 1.25 1.25 (fst (App.calculateTreePos (Random.const 0) index c))).
Proof.
  split; [exact zeros_unit |].
  exact (tree_positions_by_generator (Random.const 0) zeros_unit).
Defined.

(** With a stream of zeros the first photo stands at 1.25 times the radius,
    beyond 1.15, and the first foliage particle at 0.4 times the radius,
    short of 0.9: neither is within the band stated for all three
    generators. *)
Lemma photo_and_foliage_leave_the_band :
  ~ within 0.9 1.15 (fst (App.calculateTreePos (Random.const 0) 0%nat 0%nat))
  /\ ~ within 0.9 1.15
       (Float32Array.vectorAt
          (Foliage.positions (fst (Foliage.generate (Random.const 0) 1%nat 0%nat)))
          0%nat).
Proof.
  split.
  - intros [_ Hup].
    destruct (photo_within (Random.const 0) zeros_unit 0%nat 0%nat) as [Hlo _].
    revert Hup Hlo.
    unfold App.calculateTreePos, Random.bind, Random.next, Random.ret, Random.const.
    cbn [fst vy]. unfold coneRadius, normalizedY, TREE_HEIGHT, TREE_RADIUS.
    intros Hup Hlo. lra.
  - intros [Hlo _]. revert Hlo.
    unfold Foliage.generate, Foliage.particles, Foliage.particle, Foliage.geometryOf,
      Random.bind, Random.next, Random.ret, Random.const, Float32Array.vectorAt,
      Float32Array.get.
    cbn [fst snd map Foliage.positions Foliage.p_tree Float32Array.ofVectors
         vx vy vz nth Nat.mul Nat.add].
    rewrite sqrt_0.
    set (r := TREE_RADIUS
              * (1.0 - (0 * TREE_HEIGHT - TREE_HEIGHT / 2 + TREE_HEIGHT / 2) / TREE_HEIGHT)
              * (0.4 + 0.6 * 0)).
    assert (Hr : r = 2.6) by (unfold r, TREE_HEIGHT, TREE_RADIUS; lra).
    unfold within. cbn [vy]. rewrite axis_distance by lra.
    unfold coneRadius, normalizedY, TREE_HEIGHT, TREE_RADIUS. lra.
Qed.

End Bands.

(** ** Morphing back to the tree *)

Section Morph.
Import Types OrnamentsFrame.


Lemma phase_succ (m : TreeState) (clock : nat -> R) (n : nat) :
  phase m clock (S n) = phase m clock n ++ [(clock n, m)].
Proof. unfold phase. rewrite seq_S, map_app. reflexivity. Qed.




Lemma lerpVector_iter (target : Vector3) (w : R) (v : Vector3) (n : nat) :
  Num.iter n (fun u => lerpVector u target w) v
  = mkVector3 (Num.iter n (fun q => MathUtils.smooth q (vx target) w) (vx v))
              (Num.iter n (fun q => MathUtils.smooth q (vy target) w) (vy v))
              (Num.iter n (fun q => MathUtils.smooth q (vz target) w) (vz v)).
Proof.
  induction n as [| n IH]; simpl; [destruct v; reflexivity |].
  rewrite IH. unfold lerpVector. simpl. rewrite !lerp_smooth. reflexivity.
Qed.

(** Smoothing at a rate strictly between 0 and 2 converges to its target. *)
Lemma smooth_converges (target rate p : R) :
  0 < rate < 2 ->
  Un_cv (fun n => Num.iter n (fun q => MathUtils.smooth q target rate) p) target.
Proof.
  intros Hr. apply (geometric_cv _ target (1 - rate) (p - target)).
  - apply Rabs_def1; lra.
  - intros n. apply smooth_iter.
Qed.


End Morph.

(** ** Every ornament of a generation *)

Section Generated.
Import Types Ornaments.


Lemma attemptLoop_succ (rnd : Random.Stream) (k attempts id0 : nat)
      (oy : option R) (s : GenState) :
  attemptLoop rnd (S k) attempts id0 oy s
  = (let (cp, s1) := sample rnd oy s in
     if isColliding (placedItems s1) (snd cp) (c_collisionRadius (fst cp))
     then attemptLoop rnd k (S attempts) id0 oy s1
     else let (item, s2) := accept rnd id0 (fst cp) (snd cp) s1 in
          ((Some item, S attempts), s2)).
Proof.
  cbn [attemptLoop]. unfold bind, getPlaced, ret.
  destruct (sample rnd oy s) as [cp s1].
  destruct (isColliding (placedItems s1) (snd cp) (c_collisionRadius (fst cp)));
    [reflexivity |].
  destruct (accept rnd id0 (fst cp) (snd cp) s1). reflexivity.
Qed.


Lemma mainLoop_succ (rnd : Random.Stream) (k idCounter placedCount : nat)
      (a : Arrays) (s : GenState) :
  (placedCount < ORNAMENT_COUNT)%nat ->
  mainLoop rnd (S k) idCounter placedCount a s
  = (let (item, s') := createItem rnd idCounter None s in
     match item with
     | Some it => mainLoop rnd k (S idCounter) (S placedCount) (pushByType it a) s'
     | None => mainLoop rnd k (S idCounter) placedCount a s'
     end).
Proof.
  intros Hlt. cbn [mainLoop].
  apply Nat.ltb_lt in Hlt. rewrite Hlt. unfold bind.
  destruct (createItem rnd idCounter None s) as [[it |] s']; reflexivity.
Qed.

(** Once in the arrays, an item stays. *)
Lemma step_keeps (rnd : Random.Stream) (item : OrnamentData)
      (x y : Arrays * GenState) :
  Step rnd x y -> In item (allItems (fst x)) -> In item (allItems (fst y)).
Proof.
  intros Hstep Hin.
  destruct Hstep as [a s s' id0 it E | a s s' id0 k it c E
                    | a s s' id0 oy E | a s]; simpl in *; try exact Hin.
  - destruct (createItem_spec rnd id0 None s _ _ E) as (s0 & Hacc).
    apply (Permutation_in _
             (Permutation_sym (allItems_pushByType it a
                                 (accepted_not_star _ _ _ _ _ _ _ Hacc)))).
    right. exact Hin.
  - apply (Permutation_in _ (Permutation_sym (allItems_pushBell _ a))).
    right. exact Hin.
Qed.


End Generated.

(** ** Toggling the Mode *)

Section Toggling.
Import Types OrnamentsFrame.


Lemma zeroBatch_wellShaped : wellShaped zeroBatch.
Proof. split; [discriminate | reflexivity]. Qed.


End Toggling.

(** ** The fixed point of the smoothing step *)

Section FixedPoint.
Import Types OrnamentsFrame.

Lemma smooth_at_target (target rate : R) :
  MathUtils.smooth target target rate = target.
Proof. unfold MathUtils.smooth. ring. Qed.

Lemma lerp_at_target (target rate : R) : MathUtils.lerp target target rate = target.
Proof. rewrite lerp_smooth. apply smooth_at_target. Qed.

Lemma nextScale_at_target (isPinching : bool) :
  GestureController.nextScale isPinching (GestureController.targetScale isPinching)
  = GestureController.targetScale isPinching.
Proof.
  unfold GestureController.nextScale, GestureController.targetScale,
    GestureController.lerpSpeed.
  destruct isPinching; simpl.
  - lra.
  - destruct (Num.ltb _ _); lra.
Qed.

Lemma moveAll_at_rest (isTree : bool) (its : list OrnamentData) :
  moveAll isTree its (map (targetOf isTree) its) = map (targetOf isTree) its.
Proof.
  induction its as [| item its IH]; simpl; [reflexivity |].
  rewrite IH. unfold lerpVector. rewrite !lerp_at_target.
  destruct (targetOf isTree item); reflexivity.
Qed.

Lemma updateMesh_at_rest (time : R) (isTree : bool) (mode : RotationMode)
      (its : list OrnamentData) (b : Batch) :
  mesh b <> None -> items b = its ->
  posArr b = Float32Array.ofVectors (map (targetOf isTree) its) ->
  mesh (updateMesh time isTree b) <> None
  /\ items (updateMesh time isTree b) = its
  /\ posArr (updateMesh time isTree b)
     = Float32Array.ofVectors (map (targetOf isTree) its).
Proof.
  intros Hm Hi Hp.
  destruct (updateMesh_vectors time isTree b (map (targetOf isTree) its) Hm Hp)
    as (Hm' & Hi' & Hp').
  { rewrite length_map, Hi. reflexivity. }
  rewrite Hi, moveAll_at_rest in Hp'. rewrite Hi in Hi'.
  repeat split; assumption.
Qed.

(** C8. The smoothing step is idle at its fixed point: from a position
    equal to the target, any number of steps at any rate leave the position
    where it is. This holds of the step as the design document writes it,
    of [MathUtils.lerp], of the scale update at its target, of the step of a
    photo's position, and of [updateMesh] on a batch at rest. *)
Theorem smoothing_idle_at_target :
  (forall (target rate : R) (n : nat),
      Num.iter n (fun p => MathUtils.smooth p target rate) target = target)
  /\ (forall (target rate : R) (n : nat),
         Num.iter n (fun p => MathUtils.lerp p target rate) target = target)
  /\ (forall (isPinching : bool) (n : nat),
         Num.iter n (GestureController.nextScale isPinching)
                  (GestureController.targetScale isPinching)
         = GestureController.targetScale isPinching)
  /\ (forall (h : PhotoFrames.Heap) (this : PhotoFrames.Ref) (alpha : R)
             (r : PhotoFrames.Ref),
         PhotoFrames.lerp this (h this) alpha h r = h r)
  /\ (forall (time : R) (isTree : bool) (mode : RotationMode)
             (its : list OrnamentData) (n : nat),
         posArr (Num.iter n (updateMesh time isTree) (atRest isTree mode its))
         = Float32Array.ofVectors (map (targetOf isTree) its)).
Proof.
  split; [| split; [| split; [| split]]].
  - intros target rate n. apply iter_fixed, smooth_at_target.
  - intros target rate n. apply iter_fixed, lerp_at_target.
  - intros isPinching n. apply iter_fixed, nextScale_at_target.
  - intros h this alpha r. unfold PhotoFrames.lerp, PhotoFrames.write.
    destruct (Nat.eqb r this) eqn:E; [| reflexivity].
    apply Nat.eqb_eq in E. subst r. rewrite !smooth_at_target.
    destruct (h this); reflexivity.
  - intros time isTree mode its n.
    assert (H : mesh (Num.iter n (updateMesh time isTree) (atRest isTree mode its))
                <> None
                /\ items (Num.iter n (updateMesh time isTree) (atRest isTree mode its))
                   = its
                /\ posArr (Num.iter n (updateMesh time isTree) (atRest isTree mode its))
                   = Float32Array.ofVectors (map (targetOf isTree) its)).
    { induction n as [| n IH]; cbn [Num.iter].
      - repeat split. discriminate.
      - destruct IH as (Hm & Hi & Hp). apply updateMesh_at_rest; assumption. }
    exact (proj2 (proj2 H)).
Qed.

End FixedPoint.

(** ** What a frame writes *)

Section FrameEffect.
Import Types.

Variable Orientation : Type.
Variable identity : Orientation.
Variable slerp : Orientation -> Orientation -> R -> Orientation.
Variable lookAt : Vector3 -> Vector3 -> Orientation.
Variable tumble : Orientation -> R -> R -> R -> Orientation.

Let FrameMesh : Type := PhotoFrames.FrameMesh Orientation.
Let Input : Type := PhotoFrames.Input Orientation.
Let frameMesh := PhotoFrames.frameMesh Orientation slerp lookAt tumble.
Let frameAll := PhotoFrames.frameAll Orientation slerp lookAt tumble.

Lemma write_other (h : PhotoFrames.Heap) (this r : PhotoFrames.Ref) (v : Vector3) :
  r <> this -> PhotoFrames.write h this v r = h r.
Proof.
  intros Hne. unfold PhotoFrames.write.
  destruct (Nat.eqb r this) eqn:E; [apply Nat.eqb_eq in E; contradiction | reflexivity].
Qed.

Lemma write_same (h : PhotoFrames.Heap) (this : PhotoFrames.Ref) (v : Vector3) :
  PhotoFrames.write h this v this = v.
Proof. unfold PhotoFrames.write. rewrite Nat.eqb_refl. reflexivity. Qed.

(** A frame's callback keeps the frame's photo and position object, and
    writes no object but that position. *)
Lemma frameMesh_effect (inp : Input) (fm : FrameMesh) (h : PhotoFrames.Heap) :
  PhotoFrames.refsOf (fst (frameMesh inp fm h)) = PhotoFrames.refsOf fm
  /\ forall r,
       (forall g, PhotoFrames.group fm = Some g -> r <> PhotoFrames.position g) ->
       snd (frameMesh inp fm h) r = h r.
Proof.
  unfold frameMesh, PhotoFrames.frameMesh, PhotoFrames.refsOf.
  destruct (PhotoFrames.group fm) as [g |] eqn:Eg.
  - destruct (if Num.gtb (PhotoFrames.globalScale inp) 2.0
              then PhotoFrames.parent inp else None) as [parent |].
    + simpl. split; [reflexivity |].
      intros r Hr. unfold PhotoFrames.lerp.
      apply write_other, (Hr g eq_refl).
    + destruct (isTreeShape (PhotoFrames.treeState inp)); simpl;
        (split; [reflexivity |]); intros r Hr;
        unfold PhotoFrames.addY, PhotoFrames.approach, PhotoFrames.lerp;
        cbn [PhotoFrames.position];
        rewrite ?(write_other _ _ r) by exact (Hr g eq_refl); reflexivity.
  - simpl. rewrite Eg. split; reflexivity.
Qed.

Lemma frameAll_effect (inp : Input) (fms : list FrameMesh) (h : PhotoFrames.Heap) :
  map PhotoFrames.refsOf (fst (frameAll inp fms h)) = map PhotoFrames.refsOf fms
  /\ forall r,
       (forall fm g, In fm fms -> PhotoFrames.group fm = Some g ->
                     r <> PhotoFrames.position g) ->
       snd (frameAll inp fms h) r = h r.
Proof.
  unfold frameAll.
  revert h. induction fms as [| fm fms IH]; intros h; cbn [PhotoFrames.frameAll].
  - split; reflexivity.
  - destruct (frameMesh_effect inp fm h) as [Hrefs Hheap].
    unfold frameMesh in *.
    destruct (PhotoFrames.frameMesh Orientation slerp lookAt tumble inp fm h)
      as [fm' h1]. cbn [fst snd] in *.
    destruct (IH h1) as [Hrefs' Hheap'].
    destruct (PhotoFrames.frameAll Orientation slerp lookAt tumble inp fms h1)
      as [fms' h2]. cbn [fst snd map] in *.
    split; [rewrite Hrefs, Hrefs'; reflexivity |].
    intros r Hr. rewrite Hheap'.
    + apply Hheap. intros g Hg. apply (Hr fm g); [left; reflexivity | exact Hg].
    + intros fm0 g Hin Hg. apply (Hr fm0 g); [right; exact Hin | exact Hg].
Qed.

(** Frames with the same objects are related as the originals are. *)
Lemma refs_in (fms fms' : list FrameMesh) (fm' : FrameMesh) :
  map PhotoFrames.refsOf fms' = map PhotoFrames.refsOf fms ->
  In fm' fms' ->
  exists fm, In fm fms /\ PhotoFrames.refsOf fm = PhotoFrames.refsOf fm'.
Proof.
  intros Hmap Hin.
  apply (in_map PhotoFrames.refsOf) in Hin. rewrite Hmap in Hin.
  apply in_map_iff in Hin. destruct Hin as (fm & Heq & Hin).
  exists fm. split; assumption.
Qed.

Lemma refs_group (fm fm' : FrameMesh) (g' : PhotoFrames.Group Orientation) :
  PhotoFrames.refsOf fm = PhotoFrames.refsOf fm' ->
  PhotoFrames.group fm' = Some g' ->
  PhotoFrames.photo fm = PhotoFrames.photo fm'
  /\ exists g, PhotoFrames.group fm = Some g
               /\ PhotoFrames.position g = PhotoFrames.position g'.
Proof.
  unfold PhotoFrames.refsOf. intros Heq Hg'. injection Heq as Hp Ho.
  rewrite Hg' in Ho. split; [exact Hp |].
  destruct (PhotoFrames.group fm) as [g |]; [| discriminate].
  exists g. split; [reflexivity |]. simpl in Ho. congruence.
Qed.

Lemma refs_photo (fm fm' : FrameMesh) :
  PhotoFrames.refsOf fm = PhotoFrames.refsOf fm' ->
  PhotoFrames.photo fm = PhotoFrames.photo fm'.
Proof. unfold PhotoFrames.refsOf. intros Heq. injection Heq as Hp _. exact Hp. Qed.

End FrameEffect.

(** ** The targets of the entities never move *)

Section Targets.
Import Types.

Variable Orientation : Type.
Variable identity : Orientation.
Variable slerp : Orientation -> Orientation -> R -> Orientation.
Variable lookAt : Vector3 -> Vector3 -> Orientation.
Variable tumble : Orientation -> R -> R -> R -> Orientation.

Let World : Type := Scene.World Orientation.
Let frame := Scene.frame Orientation slerp lookAt tumble.
Let upload := Scene.upload Orientation identity.
Let step := Scene.step Orientation identity slerp lookAt tumble.
Let run := Scene.run Orientation identity slerp lookAt tumble.

Lemma updateMesh_items (time : R) (isTree : bool) (b : OrnamentsFrame.Batch) :
  OrnamentsFrame.items (OrnamentsFrame.updateMesh time isTree b)
  = OrnamentsFrame.items b.
Proof.
  unfold OrnamentsFrame.updateMesh.
  destruct (OrnamentsFrame.mesh b); [| reflexivity].
  destruct (OrnamentsFrame.meshLoop time isTree (OrnamentsFrame.rotationMode b)
              (OrnamentsFrame.items b) 0 (OrnamentsFrame.posArr b)) as [[p ms] rs].
  reflexivity.
Qed.

Lemma ornaments_frame_items (time : R) (m : TreeState) (st : OrnamentsFrame.State) :
  OrnamentsFrame.allItems (OrnamentsFrame.frame time m st)
  = OrnamentsFrame.allItems st.
Proof.
  unfold OrnamentsFrame.allItems, OrnamentsFrame.frame. simpl.
  rewrite !updateMesh_items. reflexivity.
Qed.

(** The photos read through two heaps that agree on their vectors. *)
Lemma targets_agree (fms fms' : list (PhotoFrames.FrameMesh Orientation))
      (h h' : PhotoFrames.Heap) :
  map PhotoFrames.refsOf fms' = map PhotoFrames.refsOf fms ->
  (forall fm, In fm fms ->
     h' (photoScatterPos (PhotoFrames.photo fm))
     = h (photoScatterPos (PhotoFrames.photo fm))
     /\ h' (photoTreePos (PhotoFrames.photo fm))
        = h (photoTreePos (PhotoFrames.photo fm))) ->
  map (fun fm => (h' (photoScatterPos (PhotoFrames.photo fm)),
                  h' (photoTreePos (PhotoFrames.photo fm)))) fms'
  = map (fun fm => (h (photoScatterPos (PhotoFrames.photo fm)),
                    h (photoTreePos (PhotoFrames.photo fm)))) fms.
Proof.
  intros Hrefs Hagree.
  transitivity
    (map (fun rf : PhotoItem PhotoFrames.Ref * option PhotoFrames.Ref =>
            (h' (photoScatterPos (fst rf)), h' (photoTreePos (fst rf))))
         (map PhotoFrames.refsOf fms')).
  { rewrite map_map. reflexivity. }
  rewrite Hrefs, map_map. apply map_ext_in.
  intros fm Hin. destruct (Hagree fm Hin) as [Hs Ht]. simpl. rewrite Hs, Ht. reflexivity.
Qed.

Lemma frame_keeps (inp : PhotoFrames.Input Orientation) (w : World) :
  Scene.sound w ->
  Scene.sound (frame inp w)
  /\ Scene.photoTargets (frame inp w) = Scene.photoTargets w
  /\ Scene.ornamentTargets (frame inp w) = Scene.ornamentTargets w
  /\ Scene.foliageTargets (frame inp w) = Scene.foliageTargets w.
Proof.
  intros [Hsep Hbound]. unfold frame, Scene.frame.
  destruct (frameAll_effect Orientation slerp lookAt tumble inp (Scene.frames w)
              (PhotoFrames.heap (Scene.store w))) as [Hrefs Hheap].
  destruct (PhotoFrames.frameAll Orientation slerp lookAt tumble inp (Scene.frames w)
              (PhotoFrames.heap (Scene.store w))) as [fms h].
  cbn [fst snd] in *.
  split; [| split; [| split]].
  - split; cbn [Scene.frames Scene.store PhotoFrames.next].
    + intros fm1 fm2 g1 H1 H2 Hg1.
      destruct (refs_in Orientation _ _ _ Hrefs H1) as (fm1' & Hin1 & Heq1).
      destruct (refs_in Orientation _ _ _ Hrefs H2) as (fm2' & Hin2 & Heq2).
      destruct (refs_group Orientation _ _ _ Heq1 Hg1) as (_ & g & Hg & Hpos).
      rewrite <- (refs_photo Orientation _ _ Heq2), <- Hpos.
      exact (Hsep fm1' fm2' g Hin1 Hin2 Hg).
    + intros fm1 H1.
      destruct (refs_in Orientation _ _ _ Hrefs H1) as (fm1' & Hin1 & Heq1).
      destruct (Hbound fm1' Hin1) as (Hs & Ht & Hg).
      rewrite <- (refs_photo Orientation _ _ Heq1).
      split; [exact Hs |]. split; [exact Ht |].
      intros g1 Hg1.
      destruct (refs_group Orientation _ _ _ Heq1 Hg1) as (_ & g & Hg' & Hpos).
      rewrite <- Hpos. exact (Hg g Hg').
  - unfold Scene.photoTargets. cbn [Scene.frames Scene.store PhotoFrames.heap].
    apply targets_agree; [exact Hrefs |].
    intros fm Hin. split; apply Hheap; intros fm0 g Hin0 Hg Heq;
      destruct (Hsep fm0 fm g Hin0 Hin Hg) as [Ht Hs]; congruence.
  - unfold Scene.ornamentTargets. cbn [Scene.ornaments].
    rewrite ornaments_frame_items. reflexivity.
  - reflexivity.
Qed.

Lemma upload_keeps (p : PhotoItem Vector3) (w : World) :
  Scene.sound w ->
  Scene.sound (upload p w)
  /\ Scene.photoTargets (upload p w)
     = Scene.photoTargets w ++ [(photoScatterPos p, photoTreePos p)]
  /\ Scene.ornamentTargets (upload p w) = Scene.ornamentTargets w
  /\ Scene.foliageTargets (upload p w) = Scene.foliageTargets w.
Proof.
  intros [Hsep Hbound]. unfold upload, Scene.upload, PhotoFrames.mountPhoto,
    PhotoFrames.alloc. cbn [fst snd PhotoFrames.next PhotoFrames.heap].
  set (n := PhotoFrames.next (Scene.store w)).
  split; [| split; [| split]]; try reflexivity.
  - split; cbn [Scene.frames Scene.store PhotoFrames.next].
    + intros fm1 fm2 g1 H1 H2 Hg1.
      apply in_app_or in H1. apply in_app_or in H2.
      destruct H1 as [H1 | [<- | []]], H2 as [H2 | [<- | []]].
      * exact (Hsep fm1 fm2 g1 H1 H2 Hg1).
      * destruct (Hbound fm1 H1) as (_ & _ & Hg). specialize (Hg g1 Hg1).
        cbn [PhotoFrames.photo photoTreePos photoScatterPos]. fold n in Hg. lia.
      * destruct (Hbound fm2 H2) as (Hs & Ht & _). fold n in Hs, Ht.
        cbn [PhotoFrames.group] in Hg1. injection Hg1 as <-.
        cbn [PhotoFrames.position]. lia.
      * cbn [PhotoFrames.group] in Hg1. injection Hg1 as <-.
        cbn [PhotoFrames.photo PhotoFrames.position photoTreePos photoScatterPos].
        lia.
    + intros fm1 H1. apply in_app_or in H1. destruct H1 as [H1 | [<- | []]].
      * destruct (Hbound fm1 H1) as (Hs & Ht & Hg). fold n in Hs, Ht, Hg.
        split; [lia |]. split; [lia |]. intros g Hg'. specialize (Hg g Hg'). lia.
      * cbn [PhotoFrames.photo PhotoFrames.group photoTreePos photoScatterPos].
        split; [lia |]. split; [lia |]. intros g Hg. injection Hg as <-.
        cbn [PhotoFrames.position]. lia.
  - unfold Scene.photoTargets.
    cbn [Scene.frames Scene.store PhotoFrames.heap]. rewrite map_app. f_equal.
    + apply map_ext_in. intros fm Hin.
      destruct (Hbound fm Hin) as (Hs & Ht & _). fold n in Hs, Ht.
      rewrite !write_other by lia. reflexivity.
    + cbn [map PhotoFrames.photo photoTreePos photoScatterPos].
      rewrite (write_other _ _ (S n)) by lia. rewrite write_same.
      rewrite !(write_other _ _ n) by lia. rewrite write_same. reflexivity.
Qed.

End Targets.

Section Lifetime.
Import Types.

Variable Orientation : Type.
Variable identity : Orientation.
Variable slerp : Orientation -> Orientation -> R -> Orientation.
Variable lookAt : Vector3 -> Vector3 -> Orientation.
Variable tumble : Orientation -> R -> R -> R -> Orientation.

Lemma run_keeps (events : list (Scene.Event Orientation)) :
  forall w : Scene.World Orientation,
    Scene.sound w ->
    let w' := Scene.run Orientation identity slerp lookAt tumble events w in
    Scene.sound w'
    /\ Scene.photoTargets w'
       = Scene.photoTargets w
         ++ map (fun p => (photoScatterPos p, photoTreePos p)) (Scene.uploaded events)
    /\ Scene.ornamentTargets w' = Scene.ornamentTargets w
    /\ Scene.foliageTargets w' = Scene.foliageTargets w.
Proof.
  induction events as [| e events IH]; intros w Hw; cbn [Scene.run Scene.uploaded].
  - cbn [map]. rewrite app_nil_r.
    split; [exact Hw |]. split; [reflexivity |]. split; reflexivity.
  - destruct e as [inp | p]; cbn [Scene.step].
    + destruct (frame_keeps Orientation slerp lookAt tumble inp w Hw)
        as (Hs & Hp & Ho & Hf).
      destruct (IH _ Hs) as (Hs' & Hp' & Ho' & Hf').
      split; [exact Hs' |]. split; [rewrite Hp', Hp; reflexivity |].
      split; [rewrite Ho', Ho; reflexivity | rewrite Hf', Hf; reflexivity].
    + destruct (upload_keeps Orientation identity p w Hw) as (Hs & Hp & Ho & Hf).
      destruct (IH _ Hs) as (Hs' & Hp' & Ho' & Hf').
      split; [exact Hs' |].
      split; [rewrite Hp', Hp, <- app_assoc; reflexivity |].
      split; [rewrite Ho', Ho; reflexivity | rewrite Hf', Hf; reflexivity].
Qed.

Lemma create_sound (a : Ornaments.Arrays) (g : Foliage.Geometry) :
  Scene.sound (Scene.create Orientation a g).
Proof.
  split; cbn [Scene.create Scene.frames].
  - intros fm fm' g0 [].
  - intros fm [].
Qed.

(** C9. Whatever frames are rendered, in whatever Modes, and whatever
    photos are uploaded in between, the scatter and the tree position of
    every ornament, of every foliage particle and of every photo are the
    ones given at creation: the callbacks write the live positions (the
    position arrays, the groups' position objects, the morph factor) and
    the orientations, never the targets. *)
Theorem targets_fixed_for_life (a : Ornaments.Arrays) (g : Foliage.Geometry)
        (events : list (Scene.Event Orientation)) :
  let w := Scene.run Orientation identity slerp lookAt tumble events
             (Scene.create Orientation a g) in
  Scene.ornamentTargets w
  = map (fun item => (scatterPos item, treePos item)) (Ornaments.allItems a)
  /\ Scene.foliageTargets w = (Foliage.scatterPositions g, Foliage.positions g)
  /\ Scene.photoTargets w
     = map (fun p => (photoScatterPos p, photoTreePos p)) (Scene.uploaded events).
Proof.
  destruct (run_keeps events (Scene.create Orientation a g) (create_sound a g))
    as (_ & Hp & Ho & Hf).
  cbv zeta. split; [| split].
  - rewrite Ho. reflexivity.
  - rewrite Hf. reflexivity.
  - rewrite Hp. reflexivity.
Qed.

End Lifetime.

(** ** The smoothing of the photos and of the foliage *)

Section OtherEntities.
Import Types.

Variable Orientation : Type.

Lemma approach_effect (isTree : bool) (p : PhotoItem PhotoFrames.Ref)
      (g : PhotoFrames.Group Orientation) (h : PhotoFrames.Heap) :
  PhotoFrames.position g <> photoTreePos p ->
  PhotoFrames.position g <> photoScatterPos p ->
  let h' := PhotoFrames.approach isTree p g h in
  h' (photoTreePos p) = h (photoTreePos p)
  /\ h' (photoScatterPos p) = h (photoScatterPos p)
  /\ h' (PhotoFrames.position g)
     = OrnamentsFrame.lerpVector
         (h (PhotoFrames.position g))
         (h (if isTree then photoTreePos p else photoScatterPos p))
         (if isTree then 0.08 else 0.02).
Proof.
  intros Ht Hs. unfold PhotoFrames.approach, PhotoFrames.lerp. cbv zeta.
  rewrite !write_other by congruence. rewrite write_same.
  unfold OrnamentsFrame.lerpVector. rewrite !lerp_smooth. repeat split.
Qed.

Lemma approaches_targets (modes : list bool) (p : PhotoItem PhotoFrames.Ref)
      (g : PhotoFrames.Group Orientation) (h : PhotoFrames.Heap) :
  PhotoFrames.position g <> photoTreePos p ->
  PhotoFrames.position g <> photoScatterPos p ->
  PhotoFrames.approaches modes p g h (photoTreePos p) = h (photoTreePos p)
  /\ PhotoFrames.approaches modes p g h (photoScatterPos p) = h (photoScatterPos p).
Proof.
  intros Ht Hs. revert h. induction modes as [| m modes IH]; intros h; simpl.
  - split; reflexivity.
  - destruct (approach_effect m p g h Ht Hs) as (Ht' & Hs' & _).
    destruct (IH (PhotoFrames.approach m p g h)) as [Ht'' Hs''].
    split; congruence.
Qed.

Lemma approaches_app (m1 m2 : list bool) (p : PhotoItem PhotoFrames.Ref)
      (g : PhotoFrames.Group Orientation) (h : PhotoFrames.Heap) :
  PhotoFrames.approaches (m1 ++ m2) p g h
  = PhotoFrames.approaches m2 p g (PhotoFrames.approaches m1 p g h).
Proof.
  revert h. induction m1 as [| m m1 IH]; intros h; simpl; [reflexivity | apply IH].
Qed.

Lemma approaches_tree (n : nat) (p : PhotoItem PhotoFrames.Ref)
      (g : PhotoFrames.Group Orientation) (h : PhotoFrames.Heap) :
  PhotoFrames.position g <> photoTreePos p ->
  PhotoFrames.position g <> photoScatterPos p ->
  PhotoFrames.approaches (repeat true n) p g h (PhotoFrames.position g)
  = Num.iter n (fun v => OrnamentsFrame.lerpVector v (h (photoTreePos p)) 0.08)
             (h (PhotoFrames.position g)).
Proof.
  intros Ht Hs. induction n as [| n IH]; [reflexivity |].
  replace (repeat true (S n)) with (repeat true n ++ [true])
    by (rewrite <- repeat_cons; reflexivity).
  rewrite approaches_app. cbn [PhotoFrames.approaches Num.iter].
  destruct (approach_effect true p g (PhotoFrames.approaches (repeat true n) p g h)
              Ht Hs) as (_ & _ & Hpos).
  cbv zeta in Hpos. rewrite Hpos, IH.
  rewrite (proj1 (approaches_targets (repeat true n) p g h Ht Hs)). reflexivity.
Qed.

(** The smoothing step of a photo, repeated in Mode TREE_SHAPE after any
    steps in any Modes, brings the group's position to the photo's tree
    position. (The callback adds a sway to [y] after the step, and pins the
    photo elsewhere while zooming; neither is part of the step.) *)
Lemma photo_smoothing_converges (modes : list bool)
      (p : PhotoItem PhotoFrames.Ref) (g : PhotoFrames.Group Orientation)
      (h : PhotoFrames.Heap) :
  PhotoFrames.position g <> photoTreePos p ->
  PhotoFrames.position g <> photoScatterPos p ->
  let after n :=
    PhotoFrames.approaches (modes ++ repeat true n) p g h (PhotoFrames.position g) in
  Un_cv (fun n => vx (after n)) (vx (h (photoTreePos p)))
  /\ Un_cv (fun n => vy (after n)) (vy (h (photoTreePos p)))
  /\ Un_cv (fun n => vz (after n)) (vz (h (photoTreePos p))).
Proof.
  intros Ht Hs after.
  assert (Hafter : forall n,
             after n
             = Num.iter n
                 (fun v => OrnamentsFrame.lerpVector v (h (photoTreePos p)) 0.08)
                 (PhotoFrames.approaches modes p g h (PhotoFrames.position g))).
  { intros n. unfold after. rewrite approaches_app, approaches_tree by assumption.
    rewrite (proj1 (approaches_targets modes p g h Ht Hs)). reflexivity. }
  repeat split; eapply Un_cv_ext;
    try (intros n; rewrite Hafter, lerpVector_iter; reflexivity);
    apply smooth_converges; lra.
Qed.

(** *** The morph factor *)

Lemma foliage_run_app (h1 h2 : list (R * TreeState)) (st : Foliage.State) :
  Foliage.run (h1 ++ h2) st = Foliage.run h2 (Foliage.run h1 st).
Proof.
  revert st. induction h1 as [| [t m] h1 IH]; intros st; simpl; [reflexivity | apply IH].
Qed.

Lemma foliage_run_geometry (history : list (R * TreeState)) (st : Foliage.State) :
  Foliage.geometry (Foliage.run history st) = Foliage.geometry st.
Proof.
  revert st. induction history as [| [t m] history IH]; intros st; simpl;
    [reflexivity | rewrite IH; reflexivity].
Qed.

(** In Mode TREE_SHAPE the factor closes 3% of its gap to 1 per frame. *)
Lemma foliage_factor (clock : nat -> R) (n : nat) (st : Foliage.State) :
  1 - Foliage.uMorphFactor
        (Foliage.run (OrnamentsFrame.phase TREE_SHAPE clock n) st)
  = 0.97 ^ n * (1 - Foliage.uMorphFactor st).
Proof.
  induction n as [| n IH]; [simpl; ring |].
  rewrite phase_succ, foliage_run_app. cbn [Foliage.run].
  unfold Foliage.frame at 1. cbn [Foliage.uMorphFactor isTreeShape].
  unfold MathUtils.lerp. simpl pow.
  set (f := Foliage.uMorphFactor
              (Foliage.run (OrnamentsFrame.phase TREE_SHAPE clock n) st)) in *.
  lra.
Qed.

(** The blend the shader computes from the smoothed morph factor converges
    to the particle's tree position (the breathing it adds aside). *)
Lemma foliage_blend_converges (history : list (R * TreeState)) (clock : nat -> R)
      (st : Foliage.State) (i : nat) :
  let after n :=
    Foliage.blended
      (Foliage.run (history ++ OrnamentsFrame.phase TREE_SHAPE clock n) st) i in
  let tree := Float32Array.vectorAt (Foliage.positions (Foliage.geometry st)) i in
  Un_cv (fun n => vx (after n)) (vx tree)
  /\ Un_cv (fun n => vy (after n)) (vy tree)
  /\ Un_cv (fun n => vz (after n)) (vz tree).
Proof.
  intros after tree.
  set (scat := Float32Array.vectorAt
                 (Foliage.scatterPositions (Foliage.geometry st)) i).
  set (d := 1 - Foliage.uMorphFactor (Foliage.run history st)).
  assert (Hq : Rabs (0.97 ^ 3) < 1) by (simpl pow; rewrite Rabs_pos_eq; lra).
  assert (Hgap : forall (proj : Vector3 -> R) n,
             (proj = vx \/ proj = vy \/ proj = vz) ->
             proj (after n) - proj tree
             = (0.97 ^ 3) ^ n * ((proj scat - proj tree) * d ^ 3)).
  { intros proj n Hproj. unfold after, Foliage.blended.
    rewrite foliage_run_app, foliage_run_geometry, foliage_run_geometry.
    fold tree scat.
    pose proof (foliage_factor clock n (Foliage.run history st)) as Hf.
    fold d in Hf. unfold Foliage.easeOutCubic, Foliage.mix.
    set (f := Foliage.uMorphFactor
                (Foliage.run (OrnamentsFrame.phase TREE_SHAPE clock n)
                             (Foliage.run history st))) in *.
    replace (1.0 - f) with (0.97 ^ n * d) by lra.
    assert (Hpow : (0.97 ^ n * d) ^ 3 = (0.97 ^ 3) ^ n * d ^ 3).
    { rewrite Rpow_mult_distr, <- !pow_mult, Nat.mul_comm. reflexivity. }
    rewrite Hpow. replace 1.0 with 1 by lra.
    destruct Hproj as [-> | [-> | ->]]; cbn [vx vy vz]; ring. }
  repeat split.
  - apply (geometric_cv _ _ _ _ Hq (fun n => Hgap vx n (or_introl eq_refl))).
  - apply (geometric_cv _ _ _ _ Hq (fun n => Hgap vy n (or_intror (or_introl eq_refl)))).
  - apply (geometric_cv _ _ _ _ Hq (fun n => Hgap vz n (or_intror (or_intror eq_refl)))).
Qed.

End OtherEntities.

(** ** A generation that places more than one ornament *)

Section TwoPlacements.
Import Types Cone Ornaments.

Lemma sample_first :
  sample zerosThenHalves None (start 0)
  = ((zeroCandidate, zeroPosition), {| cursor := 8; placedItems := [] |}).
Proof.
  unfold sample, treePlacement, bellOverride, propertiesOf, chooseType,
    random, bind, ret, zerosThenHalves, start. simpl.
  repeat (rewrite !(ltb_true 0) by lra; simpl).
  replace (0 * PI * 2) with 0 by ring. rewrite cos_0, sin_0.
  unfold zeroCandidate, zeroPosition, coneRadius, normalizedY,
    TREE_HEIGHT, TREE_RADIUS.
  replace (0 * 0.4 + 0.5) with 0.5 by lra.
  replace (0.5 * 0.6) with 0.3 by lra.
  replace (0 * 18 - 18 / 2) with (-9) by lra.
  replace (1 * (6.5 * (1.0 - (-9 + 18 / 2) / 18) * (0.9 + 0 * 0.25)))
    with 5.85 by lra.
  replace (0 * (6.5 * (1.0 - (-9 + 18 / 2) / 18) * (0.9 + 0 * 0.25)))
    with 0 by lra.
  reflexivity.
Qed.

Lemma sample_second (placed : list PlacedItem) :
  sample zerosThenHalves None {| cursor := 12; placedItems := placed |}
  = ((halfCandidate, halfPosition), {| cursor := 17; placedItems := placed |}).
Proof.
  unfold sample, treePlacement, bellOverride, propertiesOf, chooseType,
    random, bind, ret, zerosThenHalves. simpl.
  repeat (first [ rewrite (ltb_false 0.5 0.30) by lra
                | rewrite (ltb_false 0.5 0.50) by lra
                | rewrite (ltb_true 0.5 0.65) by lra ]; simpl).
  replace (0.5 * PI * 2) with PI by lra. rewrite cos_PI, sin_PI.
  unfold halfCandidate, halfPosition, coneRadius, normalizedY,
    TREE_HEIGHT, TREE_RADIUS.
  replace (0.5 * 0.5 + 0.6) with 0.85 by lra.
  replace (0.5 * 18 - 18 / 2) with 0 by lra.
  replace (-1 * (6.5 * (1.0 - (0 + 18 / 2) / 18) * (0.9 + 0.5 * 0.25)))
    with (-3.33125) by lra.
  replace (0 * (6.5 * (1.0 - (0 + 18 / 2) / 18) * (0.9 + 0.5 * 0.25)))
    with 0 by lra.
  reflexivity.
Qed.

Lemma half_clear_of_zero :
  isColliding [{| pos := zeroPosition; radius := 0.3 |}] halfPosition 0.2 = false.
Proof.
  unfold isColliding, zeroPosition, halfPosition, distanceTo. cbn [pos radius vx vy vz].
  rewrite ltb_false; [reflexivity |].
  replace ((0.2 + 0.3) * 0.85) with (sqrt (0.425 * 0.425))
    by (rewrite sqrt_square; lra).
  apply sqrt_le_1; lra.
Qed.

(** Once placed, a position stays, and in its place. *)
Lemma step_extends (rnd : Random.Stream) (x y : Arrays * GenState) :
  Step rnd x y ->
  exists more, placedItems (snd y) = placedItems (snd x) ++ more.
Proof.
  intros Hstep.
  destruct Hstep as [a s s' id0 item E | a s s' id0 k item c E
                    | a s s' id0 oy E | a s]; simpl.
  - destruct (createItem_spec rnd id0 None s _ _ E) as (s0 & _ & -> & _).
    eexists. reflexivity.
  - destruct (createItem_spec rnd id0 _ s _ _ E) as (s0 & _ & -> & _).
    eexists. reflexivity.
  - rewrite (createItem_spec rnd id0 oy s _ _ E). exists []. symmetry. apply app_nil_r.
  - exists []. symmetry. apply app_nil_r.
Qed.

Lemma steps_extend (rnd : Random.Stream) (x y : Arrays * GenState) :
  Steps rnd x y ->
  exists more, placedItems (snd y) = placedItems (snd x) ++ more.
Proof.
  intros Hsteps. induction Hsteps as [x | x y z Hxy Hyz IH].
  - exists []. symmetry. apply app_nil_r.
  - destruct (step_extends rnd x y Hxy) as (m1 & H1). destruct IH as (m2 & H2).
    exists (m1 ++ m2). rewrite H2, H1, app_assoc. reflexivity.
Qed.

(** With twelve zeros and then halves the generation places the bell at the
    foot of the cone and the icicle half way up, and possibly more; the two
    are apart, as every two placements are. *)
Example generation_with_two_placements :
  exists more,
    placedItems (snd (generate zerosThenHalves (start 0)))
    = {| pos := zeroPosition; radius := 0.3 |}
      :: {| pos := halfPosition; radius := 0.2 |} :: more
    /\ apart {| pos := zeroPosition; radius := 0.3 |}
             {| pos := halfPosition; radius := 0.2 |}.
Proof.
  assert (H1 : createItem zerosThenHalves 0 None (start 0)
               = (Some zeroItem,
                  {| cursor := 12;
                     placedItems := [{| pos := zeroPosition; radius := 0.3 |}] |})).
  { rewrite createItem_counting. unfold createItemCounting.
    replace maxAttempts with (S 49) by reflexivity.
    rewrite attemptLoop_succ, sample_first. reflexivity. }
  set (s1 := {| cursor := 12;
                placedItems := [{| pos := zeroPosition; radius := 0.3 |}] |}) in *.
  destruct (createItem zerosThenHalves 1 None s1) as [res s2] eqn:H2.
  assert (Hs2 : placedItems s2
                = [{| pos := zeroPosition; radius := 0.3 |};
                   {| pos := halfPosition; radius := 0.2 |}]
                /\ res <> None).
  { rewrite createItem_counting in H2. unfold createItemCounting in H2.
    replace maxAttempts with (S 49) in H2 by reflexivity.
    rewrite attemptLoop_succ in H2. unfold s1 in H2. rewrite sample_second in H2.
    cbn [fst snd placedItems c_collisionRadius halfCandidate] in H2.
    rewrite half_clear_of_zero in H2.
    injection H2 as <- <-. split; [reflexivity | discriminate]. }
  destruct Hs2 as [Hplaced Hres].
  assert (Hsteps : exists a2,
             Steps zerosThenHalves (a2, s2) (generate zerosThenHalves (start 0))).
  { unfold generate, bind, ret.
    replace (loopBound ORNAMENT_COUNT) with (S (S 898)) by reflexivity.
    rewrite mainLoop_succ by (unfold ORNAMENT_COUNT; lia). rewrite H1.
    rewrite mainLoop_succ by (unfold ORNAMENT_COUNT; lia). rewrite H2.
    destruct res as [item |]; [| contradiction].
    set (a2 := pushByType item (pushByType zeroItem noArrays)).
    exists a2.
    pose proof (mainLoop_steps zerosThenHalves 898 2 2 a2 s2) as Hm.
    destruct (mainLoop zerosThenHalves 898 2 2 a2 s2) as [[idc a3] s3].
    cbn [fst snd] in *.
    pose proof (fillerLoop_steps zerosThenHalves (loopBound extraCount) idc 0 a3 s3)
      as Hf.
    destruct (fillerLoop zerosThenHalves (loopBound extraCount) idc 0 a3 s3)
      as [[idc' a4] s4].
    cbn [fst snd] in *. exact (steps_trans _ _ _ _ Hm Hf). }
  destruct Hsteps as (a2 & Hsteps).
  destruct (steps_extend _ _ _ Hsteps) as (more & Hmore).
  cbn [snd] in Hmore. rewrite Hplaced in Hmore.
  exists more. split; [exact Hmore |].
  pose proof half_clear_of_zero as Hfree. apply free_apart in Hfree.
  inversion Hfree as [| ? ? [Ha _] _]; subst. exact Ha.
Qed.

End TwoPlacements.

(** * Further properties of the code *)

(** ** The signals of the gesture controller *)

Section GestureSignals.
Import GestureController.

Lemma wellFormed_wrist (hand : Hand) :
  wellFormed hand -> exists wrist, nth_error hand 0 = Some wrist.
Proof.
  unfold wellFormed. intros H.
  destruct (nth_error hand 0) as [w |] eqn:E; [exists w; reflexivity |].
  apply nth_error_None in E. lia.
Qed.






End GestureSignals.

Section GestureModes.
Import GestureController.

Lemma handStep_classes (f : Flags) (hand : Hand) (f' : Flags) :
  handStep f hand = Some f' ->
  isOpen f' = isOpen f || classifiedOpen hand
  /\ isFist f' = isFist f || classifiedFist hand.
Proof.
  unfold handStep, classifiedOpen, classifiedFist, handAvgDist.
  destruct (handPoints hand)
    as [[[[[[wrist thumbTip] indexTip] middleTip] ringTip] pinkyTip] |];
    [| discriminate].
  set (d := avgDist wrist indexTip middleTip ringTip pinkyTip). intros H.
  destruct (Num.ltb d 0.25) eqn:Efist.
  - injection H as <-. simpl. apply ltb_lt in Efist.
    unfold Num.gtb. rewrite ltb_false by lra.
    rewrite !orb_false_r, orb_true_r. split; reflexivity.
  - destruct (Num.gtb d 0.4) eqn:Eopen; injection H as <-; simpl;
      rewrite ?orb_false_r, ?orb_true_r; split; reflexivity.
Qed.

Lemma handLoop_classes (hands : list Hand) (f f' : Flags) :
  handLoop f hands = Some f' ->
  isOpen f' = isOpen f || existsb classifiedOpen hands
  /\ isFist f' = isFist f || existsb classifiedFist hands.
Proof.
  revert f. induction hands as [| hand rest IH]; intros f H; simpl in H.
  - injection H as <-. simpl. rewrite !orb_false_r. split; reflexivity.
  - destruct (handStep f hand) as [f1 |] eqn:E; [| discriminate].
    destruct (handStep_classes f hand f1 E) as [Ho Hf].
    destruct (IH f1 H) as [Ho' Hf'].
    simpl. rewrite Ho', Hf', Ho, Hf, !orb_assoc. split; reflexivity.
Qed.

Lemma undecided_none (hands : list Hand) :
  (forall hand, In hand hands ->
     classifiedOpen hand = false /\ classifiedFist hand = false) ->
  existsb classifiedOpen hands = false /\ existsb classifiedFist hands = false.
Proof.
  induction hands as [| hand rest IH]; intros H; simpl; [split; reflexivity |].
  destruct (H hand (or_introl eq_refl)) as [-> ->].
  apply IH. intros h Hin. apply H. right. exact Hin.
Qed.

Lemma predict_undecided (fr : VideoFrame) (st st' : State) :
  Signals.undecided fr -> predict fr st = Some st' -> treeState st' = treeState st.
Proof.
  intros Hu H. unfold predict in H.
  destruct (Num.neqb (lastVideoTime st) (currentTime fr));
    [| injection H as <-; reflexivity].
  destruct (landmarks fr) as [hands |] eqn:El; [| injection H as <-; reflexivity].
  destruct hands as [| hand rest]; [injection H as <-; reflexivity |].
  unfold processLandmarks in H.
  destruct (handLoop noFlags (hand :: rest)) as [f |] eqn:E; [| discriminate].
  destruct (handLoop_classes _ _ _ E) as [Ho Hf].
  destruct (undecided_none (hand :: rest) (fun h Hin => Hu _ h El Hin))
    as [Hno Hnf].
  rewrite Hno in Ho. rewrite Hnf in Hf. simpl in Ho, Hf.
  injection H as <-. rewrite Ho, Hf. reflexivity.
Qed.

(** The Mode changes only under an open hand or a fist: over any frames in
    which no hand is classified open or fist (frames without hands, skipped
    frames and frames with half-open hands alike), the Mode stays what it
    was. *)
Theorem mode_kept_without_open_or_fist (frames : list VideoFrame) (st st' : State) :
  Forall Signals.undecided frames ->
  predictAll frames st = Some st' ->
  treeState st' = treeState st.
Proof.
  revert st. induction frames as [| fr rest IH]; intros st Hall H; simpl in H.
  - injection H as <-. reflexivity.
  - inversion Hall as [| ? ? Hfr Hrest]; subst.
    destruct (predict fr st) as [st1 |] eqn:E; [| discriminate].
    rewrite (IH st1 Hrest H). exact (predict_undecided fr st st1 Hfr E).
Qed.

Lemma idleFrames_undecided : Forall Signals.undecided idleFrames.
Proof.
  unfold idleFrames. apply Forall_forall. intros fr Hin.
  apply in_map_iff in Hin. destruct Hin as (k & <- & _).
  intros hands hand Hl Hh. simpl in Hl. injection Hl as <-. destruct Hh.
Qed.

Lemma mode_kept_without_open_or_fist_witness :
  exists st',
    Forall Signals.undecided idleFrames
    /\ predictAll idleFrames initial = Some st'
    /\ treeState st' = treeState initial.
Proof.
  destruct (predictAll_noHands idleFrames initial idleFrames_noHands)
    as (st' & Hrun & _).
  { apply idleFrames_fresh_from. simpl. lra. }
  exists st'. split; [exact idleFrames_undecided |]. split; [exact Hrun |].
  exact (mode_kept_without_open_or_fist idleFrames initial st'
           idleFrames_undecided Hrun).
Defined.

(** A processed video frame publishes the smoother's value as [photoScale]
    whatever [photoScale] held: what the zoom button wrote does not survive
    the next frame the controller processes. *)
Theorem processed_frame_overrides_photoScale (fr : VideoFrame) (st : State) (v : R) :
  currentTime fr <> lastVideoTime st ->
  predict fr (setPhotoScale v st) = predict fr st
  /\ predict fr (setPhotoScale (UI.toggleZoom (photoScale st)) st) = predict fr st
  /\ forall st', predict fr st = Some st' -> photoScale st' = pinchSmoother st'.
Proof.
  intros Ht.
  assert (Hany : forall w, predict fr (setPhotoScale w st) = predict fr st).
  { intros w. unfold predict. cbn [lastVideoTime setPhotoScale].
    destruct (Num.neqb (lastVideoTime st) (currentTime fr)) eqn:E.
    - destruct (landmarks fr) as [hands |]; [| reflexivity].
      destruct hands as [| hand rest]; [reflexivity |].
      unfold processLandmarks.
      destruct (handLoop noFlags (hand :: rest)) as [f |]; [| reflexivity].
      destruct (isOpen f); [reflexivity |]. destruct (isFist f); reflexivity.
    - rewrite neqb_true in E by (intros Heq; apply Ht; symmetry; exact Heq).
      discriminate. }
  split; [apply Hany |]. split; [apply Hany |].
  intros st' H. unfold predict in H.
  rewrite neqb_true in H by (intros Heq; apply Ht; symmetry; exact Heq).
  destruct (landmarks fr) as [hands |]; [| injection H as <-; reflexivity].
  destruct hands as [| hand rest]; [injection H as <-; reflexivity |].
  apply (processLandmarks_scale (hand :: rest)
           (setLastVideoTime (currentTime fr) st) st');
    [discriminate | exact H].
Qed.

Lemma processed_frame_overrides_photoScale_witness :
  currentTime {| currentTime := 0; landmarks := Some [] |} <> lastVideoTime initial
  /\ predict {| currentTime := 0; landmarks := Some [] |} (setPhotoScale 10 initial)
     = predict {| currentTime := 0; landmarks := Some [] |} initial.
Proof.
  assert (H : currentTime {| currentTime := 0; landmarks := Some [] |}
              <> lastVideoTime initial) by (simpl; lra).
  split; [exact H |].
  exact (proj1 (processed_frame_overrides_photoScale
                  {| currentTime := 0; landmarks := Some [] |} initial 10 H)).
Defined.

(** *** The scale signal and the presentation mode *)

Lemma pinch_rises (s : R) : s <= 10 -> s <= nextScale true s <= 10.
Proof. intros H. rewrite nextScale_pinch. unfold MathUtils.smooth. lra. Qed.

Lemma release_falls (s : R) : 1 <= s -> 1 <= nextScale false s <= s.
Proof.
  intros H. rewrite nextScale_release. unfold MathUtils.smooth.
  destruct (Num.ltb _ _); lra.
Qed.

Lemma pinch_keeps_above (lo s : R) (n : nat) :
  lo <= s <= 10 -> lo <= Num.iter n (nextScale true) s <= 10.
Proof.
  intros H. induction n as [| n IH]; simpl; [exact H |].
  pose proof (pinch_rises _ (proj2 IH)). lra.
Qed.

Lemma release_keeps_below (hi s : R) (n : nat) :
  1 <= s <= hi -> 1 <= Num.iter n (nextScale false) s <= hi.
Proof.
  intros H. induction n as [| n IH]; simpl; [exact H |].
  pose proof (release_falls _ (proj1 IH)). lra.
Qed.

(** From any scale in [[1, 10]], two frames of pinch take the published
    scale above 2, where the photo frames switch to the presentation mode,
    and it stays above while the pinch lasts; five frames after the release
    it is at most 2 again, and stays so. *)
Theorem presentation_engages_and_releases (s : R) :
  1 <= s <= 10 ->
  (forall n : nat, (2 <= n)%nat ->
     Signals.isZooming (Num.iter n (nextScale true) s) = true)
  /\ (forall n : nat, (5 <= n)%nat ->
        Signals.isZooming (Num.iter n (nextScale false) s) = false).
Proof.
  intros Hs. split; intros n Hn; unfold Signals.isZooming, Num.gtb.
  - replace n with ((n - 2) + 2)%nat by lia. rewrite iter_plus.
    apply ltb_true.
    assert (H2 : 2.71 <= Num.iter 2 (nextScale true) s <= 10).
    { cbn [Num.iter]. rewrite !nextScale_pinch. unfold MathUtils.smooth. lra. }
    pose proof (pinch_keeps_above 2.71 _ (n - 2) H2). lra.
  - replace n with ((n - 5) + 5)%nat by lia. rewrite iter_plus.
    apply ltb_false.
    pose proof (release_bound s 5 Hs) as H5. simpl pow in H5.
    assert (H5' : 1 <= Num.iter 5 (nextScale false) s <= 1.7) by lra.
    pose proof (release_keeps_below 1.7 _ (n - 5) H5'). lra.
Qed.

Lemma presentation_engages_and_releases_witness :
  1 <= 1 <= 10
  /\ (forall n : nat, (2 <= n)%nat ->
        Signals.isZooming (Num.iter n (nextScale true) 1) = true)
  /\ (forall n : nat, (5 <= n)%nat ->
        Signals.isZooming (Num.iter n (nextScale false) 1) = false).
Proof.
  assert (H : 1 <= 1 <= 10) by lra.
  split; [exact H | exact (presentation_engages_and_releases 1 H)].
Defined.

(** Within [[1, 10]] a pinching update never lowers the scale and a
    releasing update never raises it; each moves it strictly unless it
    already is at its target. *)
Theorem scale_moves_towards_its_target (s : R) :
  1 <= s <= 10 ->
  (s <= nextScale true s <= 10 /\ (s < 10 -> s < nextScale true s))
  /\ (1 <= nextScale false s <= s /\ (1 < s -> nextScale false s < s)).
Proof.
  intros Hs. split; split.
  - apply pinch_rises. lra.
  - intros H. rewrite nextScale_pinch. unfold MathUtils.smooth. lra.
  - apply release_falls. lra.
  - intros H. rewrite nextScale_release. unfold MathUtils.smooth.
    destruct (Num.ltb _ _); lra.
Qed.

Lemma scale_moves_towards_its_target_witness :
  1 <= 5 <= 10
  /\ (5 <= nextScale true 5 <= 10 /\ (5 < 10 -> 5 < nextScale true 5))
  /\ (1 <= nextScale false 5 <= 5 /\ (1 < 5 -> nextScale false 5 < 5)).
Proof.
  assert (H : 1 <= 5 <= 10) by lra.
  split; [exact H | exact (scale_moves_towards_its_target 5 H)].
Defined.

End GestureModes.

(** ** The rotation of the tree *)

Section Rotation.
Import Types TreeGroup.

Lemma run_unbiased (ticks : list Tick) (r : R) :
  Forall (fun t => rotationMod t = 0) ticks ->
  run ticks r = r + 0.15 * elapsedAsTree ticks.
Proof.
  intros H. revert r. induction H as [| t rest Ht Hrest IH]; intros r; simpl.
  - lra.
  - rewrite IH. unfold frame, baseSpeed. rewrite Ht.
    destruct (treeState t); simpl; lra.
Qed.

(** With the bias a hand inside the image can give (between -2.5 and 2.5)
    and time running forwards, the tree turns by at most 2.65 and at least
    -2.5 radians per second; without bias it turns by 0.15 radians per
    second spent in Mode TREE_SHAPE and not at all in Mode SCATTERED. *)
Theorem tree_turn_rate (ticks : list Tick) (r : R) :
  Forall (fun t => 0 <= delta t /\ -2.5 <= rotationMod t <= 2.5) ticks ->
  r - 2.5 * elapsed ticks <= run ticks r <= r + 2.65 * elapsed ticks
  /\ (Forall (fun t => rotationMod t = 0) ticks ->
      run ticks r = r + 0.15 * elapsedAsTree ticks).
Proof.
  intros H. split; [| apply run_unbiased].
  revert r. induction H as [| t rest [Hd Hm] Hrest IH]; intros r; simpl.
  - lra.
  - specialize (IH (frame t r)). unfold frame, baseSpeed in *.
    destruct (treeState t); nra.
Qed.

Lemma tree_turn_rate_witness :
  Forall (fun t => 0 <= delta t /\ -2.5 <= rotationMod t <= 2.5)
         [{| delta := 0.016; treeState := TREE_SHAPE; rotationMod := 0 |}]
  /\ 0 - 2.5 * elapsed [{| delta := 0.016; treeState := TREE_SHAPE; rotationMod := 0 |}]
     <= run [{| delta := 0.016; treeState := TREE_SHAPE; rotationMod := 0 |}] 0
     <= 0 + 2.65 * elapsed [{| delta := 0.016; treeState := TREE_SHAPE;
                               rotationMod := 0 |}].
Proof.
  assert (H : Forall (fun t => 0 <= delta t /\ -2.5 <= rotationMod t <= 2.5)
                     [{| delta := 0.016; treeState := TREE_SHAPE; rotationMod := 0 |}]).
  { constructor; [simpl; lra | constructor]. }
  split; [exact H |].
  exact (proj1 (tree_turn_rate _ 0 H)).
Defined.

End Rotation.

(** ** The ornaments of a generation *)

Section OrnamentFields.
Import Types Cone Ornaments.

Variable rnd : Random.Stream.

(** The item a successful attempt returns is what [accept] builds from a
    sampled candidate. *)
Lemma attemptLoop_item (id0 : nat) (oy : option R) (remaining : nat) :
  forall (attempts : nat) (s : GenState) item n s',
    attemptLoop rnd remaining attempts id0 oy s = ((Some item, n), s') ->
    exists s0 s1,
      item = fst (accept rnd id0 (fst (fst (sample rnd oy s0)))
                         (snd (fst (sample rnd oy s0))) s1).
Proof.
  induction remaining as [| k IH]; intros attempts s item n s' H.
  - simpl in H. unfold ret in H. discriminate.
  - rewrite attemptLoop_succ in H.
    destruct (sample rnd oy s) as [cp s1] eqn:Es.
    destruct (isColliding (placedItems s1) (snd cp) (c_collisionRadius (fst cp))).
    + exact (IH _ _ _ _ _ H).
    + destruct (accept rnd id0 (fst cp) (snd cp) s1) as [it s2] eqn:Ea.
      injection H as <- _ _. exists s, s1. rewrite Es. cbn [fst snd].
      rewrite Ea. reflexivity.
Qed.

Lemma createItem_item (id0 : nat) (oy : option R) (s s' : GenState)
      (item : OrnamentData) :
  createItem rnd id0 oy s = (Some item, s') ->
  exists s0 s1,
    item = fst (accept rnd id0 (fst (fst (sample rnd oy s0)))
                       (snd (fst (sample rnd oy s0))) s1).
Proof.
  rewrite createItem_counting. intros H.
  destruct (createItemCounting rnd id0 oy s) as [[res n] s2] eqn:E.
  simpl in H. injection H as -> <-.
  exact (attemptLoop_item id0 oy maxAttempts 0 s item n s2 E).
Qed.

(** The first item of a generation is always placed. *)
Lemma createItem_first (id0 : nat) (oy : option R) (s : GenState) :
  placedItems s = [] ->
  exists item s', createItem rnd id0 oy s = (Some item, s').
Proof.
  intros Hempty. rewrite createItem_counting. unfold createItemCounting.
  replace maxAttempts with (S 49) by reflexivity.
  rewrite attemptLoop_succ.
  pose proof (sample_placed rnd oy s) as Hpl.
  destruct (sample rnd oy s) as [cp s1]. simpl in Hpl.
  rewrite Hpl, Hempty. cbn [isColliding].
  destruct (accept rnd id0 (fst cp) (snd cp) s1) as [item s2].
  exists item, s2. reflexivity.
Qed.

Hypothesis rnd_unit : Random.inUnit rnd.

Ltac draws s :=
  pose proof (rnd_unit (cursor s));
  pose proof (rnd_unit (S (cursor s)));
  pose proof (rnd_unit (S (S (cursor s))));
  pose proof (rnd_unit (S (S (S (cursor s)))));
  pose proof (rnd_unit (S (S (S (S (cursor s))))));
  pose proof (rnd_unit (S (S (S (S (S (cursor s)))))));
  pose proof (rnd_unit (S (S (S (S (S (S (cursor s))))))));
  pose proof (rnd_unit (S (S (S (S (S (S (S (cursor s))))))))).

Ltac branches :=
  repeat match goal with
         | |- context [if ?b then _ else _] => destruct b; simpl
         | |- context [match ?o with Some _ => _ | None => _ end] =>
             destruct o; simpl
         end.

(** The scale and the collision radius of a candidate. *)
Lemma sample_sizes (oy : option R) (s : GenState) :
  0.3 <= c_scale (fst (fst (sample rnd oy s))) < 1.1
  /\ 0.2 <= c_collisionRadius (fst (fst (sample rnd oy s))) < 0.7.
Proof.
  draws s.
  unfold sample, treePlacement, bellOverride, propertiesOf, random, bind, ret.
  simpl.
  destruct (chooseType (rnd (cursor s)) oy); simpl; branches; lra.
Qed.

(** The height of a candidate: the override, or a draw over the height of
    the tree. *)
Lemma treePlacement_height (oy : option R) (s : GenState) :
  match oy with
  | Some y0 => vy (fst (treePlacement rnd oy s)) = y0
  | None =>
      - (TREE_HEIGHT / 2) <= vy (fst (treePlacement rnd oy s)) < TREE_HEIGHT / 2
  end.
Proof.
  unfold treePlacement, random, bind, ret. destruct oy as [y0 |]; simpl.
  - reflexivity.
  - pose proof (rnd_unit (cursor s)). unfold TREE_HEIGHT. lra.
Qed.

Lemma sample_height (oy : option R) (s : GenState) :
  match oy with
  | Some y0 => vy (snd (fst (sample rnd oy s))) = y0
  | None =>
      - (TREE_HEIGHT / 2) <= vy (snd (fst (sample rnd oy s))) < TREE_HEIGHT / 2
  end.
Proof.
  destruct (sample_position rnd oy s) as (s1 & ->). apply treePlacement_height.
Qed.

End OrnamentFields.

Section GeneratedOrnaments.
Import Types Cone Ornaments.

Variable rnd : Random.Stream.

(** *** Each array holds its type *)

Lemma pushBell_sorted (item : OrnamentData) (a : Arrays) :
  type item = bell -> Layout.sorted a -> Layout.sorted (pushBell item a).
Proof.
  intros Ht (Hs & Hb & Hi & Hc & Hbell & Hsn). unfold Layout.sorted, pushBell. simpl.
  repeat split; try assumption.
  apply Forall_app. split; [exact Hbell | constructor; [exact Ht | constructor]].
Qed.

Lemma pushByType_sorted (item : OrnamentData) (a : Arrays) :
  Layout.sorted a -> Layout.sorted (pushByType item a).
Proof.
  intros Hsorted. unfold pushByType.
  destruct (type item) eqn:Et; try exact Hsorted;
    try (apply pushBell_sorted; assumption);
    destruct Hsorted as (Hs & Hb & Hi & Hc & Hbell & Hsn);
    unfold Layout.sorted; simpl; repeat split; try assumption;
    (apply Forall_app; split; [assumption | constructor; [exact Et | constructor]]).
Qed.

Lemma step_sorted (x y : Arrays * GenState) :
  Step rnd x y -> Layout.sorted (fst x) -> Layout.sorted (fst y).
Proof.
  intros Hstep Hx.
  destruct Hstep as [a s s' id0 item E | a s s' id0 k item c E
                    | a s s' id0 oy E | a s]; simpl in *; try exact Hx.
  - apply pushByType_sorted, Hx.
  - apply pushBell_sorted; [reflexivity | exact Hx].
Qed.

(** After the generation every array holds ornaments of its own type only:
    in particular the spheres that were turned into bells are among the
    bells, and so are the fillers. *)
Theorem arrays_hold_their_type (c : nat) :
  Layout.sorted (fst (generate rnd (start c))).
Proof.
  apply (steps_invariant rnd (fun x => Layout.sorted (fst x)) step_sorted
           _ _ (generate_steps rnd (start c))).
  unfold Layout.sorted. simpl. repeat split; constructor.
Qed.

(** *** How many ornaments *)

Lemma pushByType_length (item : OrnamentData) (a : Arrays) :
  (length (allItems (pushByType item a)) <= S (length (allItems a)))%nat.
Proof.
  unfold pushByType, pushBell, allItems.
  destruct (type item); simpl; rewrite ?length_app; simpl; rewrite ?length_app;
    simpl; lia.
Qed.

Lemma pushBell_length (item : OrnamentData) (a : Arrays) :
  length (allItems (pushBell item a)) = S (length (allItems a)).
Proof.
  rewrite (Permutation_length (allItems_pushBell item a)). reflexivity.
Qed.

Lemma mainLoop_count (k : nat) :
  forall (idCounter placedCount : nat) (a : Arrays) (s : GenState),
    (length (allItems (snd (fst (mainLoop rnd k idCounter placedCount a s))))
     <= length (allItems a) + (ORNAMENT_COUNT - placedCount))%nat.
Proof.
  induction k as [| k IH]; intros idCounter placedCount a s; cbn [mainLoop].
  - simpl. lia.
  - destruct (placedCount <? ORNAMENT_COUNT)%nat eqn:Elt; [| simpl; lia].
    apply Nat.ltb_lt in Elt. unfold bind.
    destruct (createItem rnd idCounter None s) as [[item |] s'].
    + specialize (IH (S idCounter) (S placedCount) (pushByType item a) s').
      pose proof (pushByType_length item a). lia.
    + specialize (IH (S idCounter) placedCount a s'). lia.
Qed.

Lemma fillerLoop_count (k : nat) :
  forall (idCounter extraPlaced : nat) (a : Arrays) (s : GenState),
    (length (allItems (snd (fst (fillerLoop rnd k idCounter extraPlaced a s))))
     <= length (allItems a) + (extraCount - extraPlaced))%nat.
Proof.
  induction k as [| k IH]; intros idCounter extraPlaced a s; cbn [fillerLoop].
  - simpl. lia.
  - destruct (extraPlaced <? extraCount)%nat eqn:Elt; [| simpl; lia].
    apply Nat.ltb_lt in Elt. unfold bind, random. cbn [fst snd].
    destruct (createItem rnd idCounter _ _) as [[item |] s'].
    + set (c := if Num.gtb (rnd (cursor s')) 0.5 then GOLD_METALLIC else GOLD_ROSE).
      specialize (IH (S idCounter) (S extraPlaced) (pushBell (asFiller item c) a)
                     {| cursor := S (cursor s'); placedItems := placedItems s' |}).
      rewrite pushBell_length in IH. lia.
    + specialize (IH (S idCounter) extraPlaced a s'). lia.
Qed.

(** A generation yields at least one ornament and at most 720: the main
    loop stops at 600 placements and the filler loop at 120, and the first
    attempt, with nothing placed yet, cannot collide. Every ornament has its
    placement. *)
Theorem ornament_count_bounds (c : nat) :
  (1 <= length (allItems (fst (generate rnd (start c)))) <= 720)%nat
  /\ length (placedItems (snd (generate rnd (start c))))
     = length (allItems (fst (generate rnd (start c)))).
Proof.
  split; [split |].
  - destruct (createItem_first rnd 0 None (start c) eq_refl) as (item & s1 & E1).
    destruct (createItem_spec rnd 0 None (start c) _ _ E1) as (s0 & Hacc).
    assert (Hin : In item (allItems (fst (generate rnd (start c))))).
    { unfold generate, bind, ret.
      replace (loopBound ORNAMENT_COUNT) with (S 899) by reflexivity.
      rewrite mainLoop_succ by (unfold ORNAMENT_COUNT; lia). rewrite E1.
      set (a1 := pushByType item noArrays).
      pose proof (mainLoop_steps rnd 899 1 1 a1 s1) as Hm.
      destruct (mainLoop rnd 899 1 1 a1 s1) as [[idc a2] s2]. cbn [fst snd] in *.
      pose proof (fillerLoop_steps rnd (loopBound extraCount) idc 0 a2 s2) as Hf.
      destruct (fillerLoop rnd (loopBound extraCount) idc 0 a2 s2)
        as [[idc' a3] s3].
      cbn [fst snd] in *.
      apply (steps_invariant rnd (fun x => In item (allItems (fst x)))
               (step_keeps rnd item) _ _ (steps_trans _ _ _ _ Hm Hf)).
      cbn [fst]. unfold a1.
      apply (Permutation_in _
               (Permutation_sym (allItems_pushByType item noArrays
                                   (accepted_not_star _ _ _ _ _ _ _ Hacc)))).
      left. reflexivity. }
    destruct (allItems (fst (generate rnd (start c)))); [destruct Hin | simpl; lia].
  - unfold generate, bind, ret.
    pose proof (mainLoop_count (loopBound ORNAMENT_COUNT) 0 0 noArrays (start c)) as Hm.
    destruct (mainLoop rnd (loopBound ORNAMENT_COUNT) 0 0 noArrays (start c))
      as [[idc a] s1].
    cbn [fst snd] in *.
    pose proof (fillerLoop_count (loopBound extraCount) idc 0 a s1) as Hf.
    destruct (fillerLoop rnd (loopBound extraCount) idc 0 a s1) as [[idc' a'] s2].
    cbn [fst snd] in *. unfold ORNAMENT_COUNT, extraCount in *.
    change (length (allItems noArrays)) with 0%nat in Hm. lia.
  - pose proof (generate_steps rnd (start c)) as Hsteps.
    revert Hsteps. generalize (generate rnd (start c)). intros g Hsteps.
    assert (Hperm : Permutation (map treePos (allItems (fst g)))
                                (map pos (placedItems (snd g)))).
    { apply (steps_invariant rnd
               (fun x => Permutation (map treePos (allItems (fst x)))
                                     (map pos (placedItems (snd x))))
               (step_placements rnd) _ _ Hsteps).
      constructor. }
    apply Permutation_length in Hperm. rewrite !length_map in Hperm.
    symmetry. exact Hperm.
Qed.

End GeneratedOrnaments.

Section GeneratedFields.
Import Types Cone Ornaments.

Variable rnd : Random.Stream.
Hypothesis rnd_unit : Random.inUnit rnd.

Lemma coneRadius_le (y0 : R) : - (TREE_HEIGHT / 2) <= y0 -> coneRadius y0 <= TREE_RADIUS.
Proof. unfold coneRadius, normalizedY, TREE_HEIGHT, TREE_RADIUS. intros H. lra. Qed.

Lemma createItem_inBounds (id0 : nat) (oy : option R) (s s' : GenState)
      (item : OrnamentData) :
  (oy = None \/ exists k, oy = Some (rnd k * 4.0 - TREE_HEIGHT / 2)) ->
  createItem rnd id0 oy s = (Some item, s') -> Layout.inBounds item.
Proof.
  intros Hoy E.
  destruct (createItem_item rnd id0 oy s s' item E) as (s0 & s1 & ->).
  assert (Hy : - (TREE_HEIGHT / 2) <= vy (snd (fst (sample rnd oy s0)))
               < TREE_HEIGHT / 2).
  { pose proof (sample_height rnd rnd_unit oy s0) as Hh.
    destruct Hoy as [-> | (k & ->)]; [exact Hh |].
    rewrite Hh. pose proof (rnd_unit k). unfold TREE_HEIGHT. lra. }
  assert (Hw : within 0.9 1.15 (snd (fst (sample rnd oy s0)))).
  { apply sample_within; [exact rnd_unit |].
    intros y0 Hy0. destruct Hoy as [-> | (k & ->)]; [discriminate |].
    injection Hy0 as <-. pose proof (rnd_unit k). unfold TREE_HEIGHT. lra. }
  pose proof (sample_sizes rnd rnd_unit oy s0) as [Hscale _].
  pose proof (rnd_unit (cursor s1)). pose proof (rnd_unit (S (cursor s1))).
  pose proof (rnd_unit (S (S (cursor s1)))).
  pose proof (rnd_unit (S (S (S (cursor s1))))).
  unfold Layout.inBounds, Layout.inCube, accept, push, random, bind, ret. simpl.
  split; [exact Hy | split; [| split; [| split; [exact Hscale |]]]].
  - destruct Hw as [_ Hhi].
    pose proof (coneRadius_le _ (proj1 Hy)). lra.
  - unfold SCATTER_RADIUS. lra.
  - lra.
Qed.

Lemma asFiller_inBounds (item : OrnamentData) (col : Color) :
  Layout.inBounds item -> Layout.inBounds (asFiller item col).
Proof.
  unfold Layout.inBounds, asFiller. simpl.
  intros (Hy & Hd & Hc & _ & Hr).
  split; [exact Hy | split; [exact Hd | split; [exact Hc | split; [lra | exact Hr]]]].
Qed.

(** Under draws from [0, 1), every generated ornament is on the tree
    between the foot and the apex and within 1.15 tree radii of the axis,
    its scatter position is in the cube of half side 26.25, its scale is in
    [0.3, 1.1) and its spin in [0, 2). *)
Theorem ornaments_in_bounds (c : nat) :
  Forall Layout.inBounds (allItems (fst (generate rnd (start c)))).
Proof.
  apply (steps_invariant rnd (fun x => Forall Layout.inBounds (allItems (fst x)))
           (step_items rnd Layout.inBounds createItem_inBounds asFiller_inBounds)
           _ _ (generate_steps rnd (start c))).
  constructor.
Qed.

End GeneratedFields.

Lemma ornaments_in_bounds_witness :
  Random.inUnit (Random.const 0)
  /\ Forall Layout.inBounds
       (Ornaments.allItems
          (fst (Ornaments.generate (Random.const 0) (Ornaments.start 0)))).
Proof.
  split; [exact zeros_unit | exact (ornaments_in_bounds (Random.const 0) zeros_unit 0)].
Defined.

Section GeneratedSpacing.
Import Types Cone Ornaments.

Variable rnd : Random.Stream.
Hypothesis rnd_unit : Random.inUnit rnd.

Let sized (x : Arrays * GenState) : Prop :=
  Forall (fun p => 0.2 <= radius p) (placedItems (snd x)).

Lemma accepted_sized (id0 : nat) (oy : option R) (s s' : GenState)
      (item : OrnamentData) :
  createItem rnd id0 oy s = (Some item, s') ->
  Forall (fun p => 0.2 <= radius p) (placedItems s) ->
  Forall (fun p => 0.2 <= radius p) (placedItems s').
Proof.
  intros E Hs.
  destruct (createItem_spec rnd id0 oy s _ _ E) as (s0 & _ & -> & _).
  apply Forall_app. split; [exact Hs |].
  constructor; [| constructor]. cbn [radius].
  exact (proj1 (proj2 (sample_sizes rnd rnd_unit oy s0))).
Qed.

Lemma step_sized (x y : Arrays * GenState) : Step rnd x y -> sized x -> sized y.
Proof.
  unfold sized. intros Hstep Hs.
  destruct Hstep as [a s s' id0 item E | a s s' id0 k item c E
                    | a s s' id0 oy E | a s]; simpl in *.
  - exact (accepted_sized _ _ _ _ _ E Hs).
  - exact (accepted_sized _ _ _ _ _ E Hs).
  - rewrite (createItem_spec rnd id0 oy s _ _ E). exact Hs.
  - exact Hs.
Qed.

Lemma spaced_distance (placed : list PlacedItem) :
  spaced placed -> Forall (fun p => 0.2 <= radius p) placed ->
  ForallOrdPairs (fun p q => 0.34 <= distanceTo p q) (map pos placed).
Proof.
  unfold spaced. intros Hs. induction Hs as [| a l Ha Hl IH]; intros Hr; simpl.
  - constructor.
  - inversion Hr as [| ? ? Hra Hrl]; subst. constructor; [| exact (IH Hrl)].
    apply Forall_map. rewrite Forall_forall in *. intros b Hb.
    destruct (Ha b Hb) as [Hab _]. specialize (Hrl b Hb). unfold apart in Hab. lra.
Qed.

Lemma distanceTo_self (p : Vector3) : distanceTo p p = 0.
Proof.
  unfold distanceTo, Num.hypot3.
  replace ((vx p - vx p) * (vx p - vx p) + (vy p - vy p) * (vy p - vy p)
           + (vz p - vz p) * (vz p - vz p)) with 0 by ring.
  exact sqrt_0.
Qed.

Lemma distant_nodup (l : list Vector3) :
  ForallOrdPairs (fun p q => 0.34 <= distanceTo p q) l -> NoDup l.
Proof.
  intros H. induction H as [| a l Ha Hl IH]; constructor; [| exact IH].
  intros Hin. rewrite Forall_forall in Ha. specialize (Ha a Hin).
  rewrite distanceTo_self in Ha. lra.
Qed.

(** Under draws from [0, 1), no two ornaments of a generation share their
    tree position, and any two tree positions are at least 0.34 apart: the
    collision test keeps the distance of two placements at 0.85 times the
    sum of their collision radii, and no radius is below 0.2. *)
Theorem ornaments_keep_their_distance (c : nat) :
  NoDup (map treePos (allItems (fst (generate rnd (start c)))))
  /\ forall p q : Vector3,
       In p (map treePos (allItems (fst (generate rnd (start c))))) ->
       In q (map treePos (allItems (fst (generate rnd (start c))))) ->
       p <> q -> 0.34 <= distanceTo p q.
Proof.
  pose proof (generate_steps rnd (start c)) as Hsteps.
  revert Hsteps. generalize (generate rnd (start c)). intros g Hsteps.
  assert (Hperm : Permutation (map treePos (allItems (fst g)))
                              (map pos (placedItems (snd g)))).
  { apply (steps_invariant rnd
             (fun x => Permutation (map treePos (allItems (fst x)))
                                   (map pos (placedItems (snd x))))
             (step_placements rnd) _ _ Hsteps).
    constructor. }
  assert (Hsp : spaced (placedItems (snd g))).
  { apply (steps_invariant rnd (fun x => spaced (placedItems (snd x)))
             (step_spaced rnd) _ _ Hsteps).
    constructor. }
  assert (Hsz : sized g).
  { apply (steps_invariant rnd sized step_sized _ _ Hsteps). constructor. }
  pose proof (spaced_distance _ Hsp Hsz) as Hd.
  split.
  - apply (Permutation_NoDup (Permutation_sym Hperm)), distant_nodup, Hd.
  - intros p q Hp Hq Hne.
    apply (Permutation_in _ Hperm) in Hp. apply (Permutation_in _ Hperm) in Hq.
    destruct (ForallOrdPairs_In Hd _ _ Hp Hq) as [Heq | [H | H]].
    + contradiction.
    + exact H.
    + rewrite distanceTo_sym. exact H.
Qed.

(** *** The bottom fillers *)



End GeneratedSpacing.

Lemma ornaments_keep_their_distance_witness :
  Random.inUnit (Random.const 0)
  /\ NoDup (map Types.treePos
              (Ornaments.allItems
                 (fst (Ornaments.generate (Random.const 0) (Ornaments.start 0)))))
  /\ forall p q : Types.Vector3,
       In p (map Types.treePos
               (Ornaments.allItems
                  (fst (Ornaments.generate (Random.const 0) (Ornaments.start 0))))) ->
       In q (map Types.treePos
               (Ornaments.allItems
                  (fst (Ornaments.generate (Random.const 0) (Ornaments.start 0))))) ->
       p <> q -> 0.34 <= Types.distanceTo p q.
Proof.
  split; [exact zeros_unit |].
  exact (ornaments_keep_their_distance (Random.const 0) zeros_unit 0).
Defined.


(** ** The ornaments, frame after frame *)

Section BatchFrames.
Import Types OrnamentsFrame.





(** *** The matrices a frame writes *)

Variable time : R.
Variable isTree : bool.

Lemma meshLoop_matrices (mode : RotationMode) (its : list OrnamentData) :
  forall (pre vs : list Vector3),
    length vs = length its ->
    let res := meshLoop time isTree mode its (length pre)
                        (Float32Array.ofVectors (pre ++ vs)) in
    snd (fst res)
    = map (fun iv => {| t_position := snd iv; t_scale := scale (fst iv);
                        t_rotation := rotationOf time isTree mode (fst iv) |})
          (combine its (moveAll isTree its vs))
    /\ snd res
       = map (fun iv =>
                {| t_position := snd iv;
                   t_scale := scale (fst iv)
                              * (1.0 + 0.015
                                       * (1.0 + sin (time * 2.5 + INR (id (fst iv)))));
                   t_rotation := rotationOf time isTree mode (fst iv) |})
             (combine its (moveAll isTree its vs)).
Proof.
  induction its as [| item its IH]; intros pre vs Hlen.
  - destruct vs; [split; reflexivity | discriminate].
  - destruct vs as [| v vs]; [discriminate |]. simpl in Hlen.
    cbv zeta. cbn [meshLoop moveAll combine map]. rewrite lerpPosition_vector.
    set (v' := lerpVector v (targetOf isTree item) (speedOf isTree item)).
    unfold matrixOf, ribbonOf. rewrite vectorAt_ofVectors.
    specialize (IH (pre ++ [v']) vs ltac:(lia)). cbv zeta in IH.
    rewrite <- !app_assoc in IH. simpl app in IH.
    replace (length (pre ++ [v'])) with (S (length pre)) in IH
      by (rewrite length_app; simpl; lia).
    destruct (meshLoop time isTree mode its (S (length pre))
                (Float32Array.ofVectors (pre ++ v' :: vs))) as [[p ms] rs].
    cbn [fst snd] in *. destruct IH as [-> ->]. split; reflexivity.
Qed.

(** A frame writes one matrix per ornament of a mounted batch: it holds the
    position the frame has just stored for that ornament, the ornament's
    scale and the rotation of its mode. With a ribbon mesh it writes one
    ribbon matrix per ornament as well, at the same position and rotation,
    whose scale is between the ornament's scale and 1.03 times it. *)
Theorem frame_writes_one_matrix_per_ornament (b : Batch) :
  wellShaped b ->
  let b' := updateMesh time isTree b in
  exists ms,
    mesh b' = Some ms
    /\ length ms = length (items b)
    /\ (forall i item,
           nth_error (items b) i = Some item ->
           nth_error ms i
           = Some {| t_position := currentPosition b' i;
                     t_scale := scale item;
                     t_rotation := rotationOf time isTree (rotationMode b) item |})
    /\ (secondaryMesh b = None -> secondaryMesh b' = None)
    /\ (secondaryMesh b <> None ->
        exists rs,
          secondaryMesh b' = Some rs
          /\ length rs = length (items b)
          /\ forall i item,
               nth_error (items b) i = Some item -> 0 <= scale item ->
               exists r,
                 nth_error rs i = Some r
                 /\ t_position r = currentPosition b' i
                 /\ t_rotation r = rotationOf time isTree (rotationMode b) item
                 /\ scale item <= t_scale r <= 1.03 * scale item).
Proof.
  intros [Hm Hlen] b'.
  destruct (ofVectors_onto (length (items b)) (posArr b) Hlen) as (vs & Hvs & Hp).
  pose proof (meshLoop_vectors time isTree (rotationMode b) (items b) [] vs Hvs) as Hv.
  pose proof (meshLoop_matrices (rotationMode b) (items b) [] vs Hvs) as Hmat.
  cbv zeta in Hmat. cbn [app length] in Hv, Hmat. rewrite <- Hp in Hv, Hmat.
  assert (Hcur : forall i item,
             nth_error (items b) i = Some item ->
             exists v,
               nth_error (combine (items b) (moveAll isTree (items b) vs)) i
               = Some (item, v)
               /\ (posArr b' = Float32Array.ofVectors (moveAll isTree (items b) vs)
                   -> currentPosition b' i = v)).
  { intros i item Hitem.
    destruct (nth_error vs i) as [v |] eqn:Ev.
    2:{ apply nth_error_None in Ev.
        assert (i < length (items b))%nat by (apply nth_error_Some; congruence).
        lia. }
    pose proof (moveAll_nth isTree (items b) vs i item v Hitem Ev) as Hmv.
    exists (lerpVector v (targetOf isTree item) (speedOf isTree item)). split.
    - revert Hitem Hmv. generalize (moveAll isTree (items b) vs).
      generalize (items b). clear. intros its. revert i.
      induction its as [| it its IH]; intros [| i] l Hitem Hmv;
        try discriminate; destruct l as [| w l]; try discriminate; simpl in *.
      + injection Hitem as <-. injection Hmv as <-. reflexivity.
      + apply IH; assumption.
    - intros Hp'. unfold currentPosition. rewrite Hp'.
      apply vectorAt_nth, Hmv. }
  assert (Hclen : length (combine (items b) (moveAll isTree (items b) vs))
                  = length (items b)).
  { rewrite length_combine, moveAll_length, Hvs. apply Nat.min_id. }
  unfold b', updateMesh in *.
  destruct (mesh b) as [m0 |] eqn:Em; [| contradiction].
  destruct (meshLoop time isTree (rotationMode b) (items b) 0 (posArr b))
    as [[p ms] rs].
  cbn [fst snd] in Hv, Hmat. destruct Hmat as [Hms Hrs]. subst p.
  cbn [mesh items posArr secondaryMesh rotationMode] in *.
  exists ms. split; [reflexivity | split; [| split; [| split]]].
  - rewrite Hms, length_map. exact Hclen.
  - intros i item Hitem.
    destruct (Hcur i item Hitem) as (v & Hc & Hpos).
    rewrite Hms. rewrite nth_error_map, Hc. cbn [option_map fst snd].
    rewrite <- (Hpos eq_refl). reflexivity.
  - intros ->. reflexivity.
  - intros Hsec. destruct (secondaryMesh b) as [r0 |]; [| contradiction].
    exists rs. split; [reflexivity | split].
    + rewrite Hrs, length_map. exact Hclen.
    + intros i item Hitem Hscale.
      destruct (Hcur i item Hitem) as (v & Hc & Hpos).
      eexists. rewrite Hrs, nth_error_map, Hc. cbn [option_map fst snd].
      split; [reflexivity |]. cbn [t_position t_rotation t_scale].
      split; [symmetry; exact (Hpos eq_refl) | split; [reflexivity |]].
      pose proof (SIN_bound (time * 2.5 + INR (id item))) as [Hlo Hhi].
      nra.
Qed.

End BatchFrames.


Lemma frame_writes_one_matrix_per_ornament_witness :
  OrnamentsFrame.wellShaped OrnamentsFrame.zeroBatch
  /\ forall (time : R) (isTree : bool),
       let b := OrnamentsFrame.zeroBatch in
       let b' := OrnamentsFrame.updateMesh time isTree b in
       exists ms,
         OrnamentsFrame.mesh b' = Some ms
         /\ length ms = length (OrnamentsFrame.items b)
         /\ (forall i item,
                nth_error (OrnamentsFrame.items b) i = Some item ->
                nth_error ms i
                = Some {| OrnamentsFrame.t_position :=
                            OrnamentsFrame.currentPosition b' i;
                          OrnamentsFrame.t_scale := Types.scale item;
                          OrnamentsFrame.t_rotation :=
                            OrnamentsFrame.rotationOf time isTree
                              (OrnamentsFrame.rotationMode b) item |})
         /\ (OrnamentsFrame.secondaryMesh b = None ->
             OrnamentsFrame.secondaryMesh b' = None)
         /\ (OrnamentsFrame.secondaryMesh b <> None ->
             exists rs,
               OrnamentsFrame.secondaryMesh b' = Some rs
               /\ length rs = length (OrnamentsFrame.items b)
               /\ forall i item,
                    nth_error (OrnamentsFrame.items b) i = Some item ->
                    0 <= Types.scale item ->
                    exists r,
                      nth_error rs i = Some r
                      /\ OrnamentsFrame.t_position r
                         = OrnamentsFrame.currentPosition b' i
                      /\ OrnamentsFrame.t_rotation r
                         = OrnamentsFrame.rotationOf time isTree
                             (OrnamentsFrame.rotationMode b) item
                      /\ Types.scale item <= OrnamentsFrame.t_scale r
                         <= 1.03 * Types.scale item).
Proof.
  split; [exact zeroBatch_wellShaped |].
  intros time isTree.
  exact (frame_writes_one_matrix_per_ornament time isTree OrnamentsFrame.zeroBatch
           zeroBatch_wellShaped).
Defined.

(** ** The foliage *)

Section FoliageAttributes.
Import Types Cone.

Variable rnd : Random.Stream.
Hypothesis rnd_unit : Random.inUnit rnd.






End FoliageAttributes.


Section FoliageMorph.
Import Types.

Lemma frame_morph_unit (time : R) (m : TreeState) (st : Foliage.State) :
  0 <= Foliage.uMorphFactor st <= 1 ->
  0 <= Foliage.uMorphFactor (Foliage.frame time m st) <= 1.
Proof.
  unfold Foliage.frame, MathUtils.lerp. cbn [Foliage.uMorphFactor].
  intros H. destruct (isTreeShape m); lra.
Qed.

Lemma run_morph_unit (history : list (R * TreeState)) :
  forall st, 0 <= Foliage.uMorphFactor st <= 1 ->
             0 <= Foliage.uMorphFactor (Foliage.run history st) <= 1.
Proof.
  induction history as [| [time m] history IH]; intros st H; cbn [Foliage.run];
    [exact H | apply IH, frame_morph_unit, H].
Qed.

Lemma easeOutCubic_unit (x : R) : 0 <= x <= 1 -> 0 <= Foliage.easeOutCubic x <= 1.
Proof.
  intros H. unfold Foliage.easeOutCubic. cbn [pow].
  assert (0 <= (1.0 - x) * (1.0 - x)) by nra.
  assert ((1.0 - x) * (1.0 - x) <= 1) by nra.
  nra.
Qed.

Lemma mix_between (a b t : R) :
  0 <= t <= 1 -> Rmin a b <= Foliage.mix a b t <= Rmax a b.
Proof.
  intros H. unfold Foliage.mix, Rmin, Rmax. destruct (Rle_dec a b); nra.
Qed.

Lemma run_geometry (history : list (R * TreeState)) :
  forall st, Foliage.geometry (Foliage.run history st) = Foliage.geometry st.
Proof.
  induction history as [| [time m] history IH]; intros st; cbn [Foliage.run];
    [reflexivity | rewrite IH; reflexivity].
Qed.

(** Whatever the frames since the mount, the morph factor stays between 0
    and 1, each frame moves it towards the target of its Mode and never
    across, and the blended position of a particle lies, coordinate by
    coordinate, between its scatter position and its tree position. *)
Theorem foliage_morph_stays_in_range (g : Foliage.Geometry)
        (history : list (R * TreeState)) (time : R) (m : TreeState) (i : nat) :
  let st := Foliage.run history (Foliage.mount g) in
  let st' := Foliage.frame time m st in
  let tree := Float32Array.vectorAt (Foliage.positions g) i in
  let scat := Float32Array.vectorAt (Foliage.scatterPositions g) i in
  0 <= Foliage.uMorphFactor st <= 1
  /\ (if isTreeShape m
      then Foliage.uMorphFactor st <= Foliage.uMorphFactor st' <= 1
      else 0 <= Foliage.uMorphFactor st' <= Foliage.uMorphFactor st)
  /\ Rmin (vx scat) (vx tree) <= vx (Foliage.blended st i) <= Rmax (vx scat) (vx tree)
  /\ Rmin (vy scat) (vy tree) <= vy (Foliage.blended st i) <= Rmax (vy scat) (vy tree)
  /\ Rmin (vz scat) (vz tree) <= vz (Foliage.blended st i) <= Rmax (vz scat) (vz tree).
Proof.
  intros st st' tree scat.
  assert (Hm : 0 <= Foliage.uMorphFactor st <= 1).
  { apply run_morph_unit. cbn [Foliage.mount Foliage.uMorphFactor]. lra. }
  split; [exact Hm | split].
  - unfold st', Foliage.frame, MathUtils.lerp. cbn [Foliage.uMorphFactor].
    destruct (isTreeShape m); lra.
  - pose proof (easeOutCubic_unit _ Hm) as Ht.
    unfold Foliage.blended. cbn [vx vy vz].
    unfold st. rewrite run_geometry. cbn [Foliage.mount Foliage.geometry].
    fold st. fold tree. fold scat.
    split; [| split]; apply mix_between, Ht.
Qed.

(** With a morph factor between 0 and 1 the shader draws a particle within
    0.2 of its blended position in x and y and within 0.08 in z; once the
    eased factor is 0.9 or more, within 0.08, 0.024 and 0.08. Its alpha is
    between 0.4 and 1. *)
Theorem foliage_vertex_stays_near_blend (uTime uMorphFactor : R)
        (v : FoliageShader.Vertex) :
  0 <= uMorphFactor <= 1 ->
  let p := FoliageShader.finalPos uTime uMorphFactor v in
  let q := FoliageShader.mixed uMorphFactor v in
  Rabs (vx p - vx q) <= 0.2 /\ Rabs (vy p - vy q) <= 0.2
  /\ Rabs (vz p - vz q) <= 0.08
  /\ (0.9 <= FoliageShader.t uMorphFactor ->
      Rabs (vx p - vx q) <= 0.08 /\ Rabs (vy p - vy q) <= 0.024)
  /\ 0.4 <= FoliageShader.vAlpha uTime v <= 1.
Proof.
  intros Hm p q.
  pose proof (easeOutCubic_unit _ Hm) as Ht. fold (FoliageShader.t uMorphFactor) in Ht.
  assert (Hb : -0.08 <= FoliageShader.breath uTime uMorphFactor v <= 0.08).
  { unfold FoliageShader.breath.
    pose proof (SIN_bound (uTime * 1.0 + vy (FoliageShader.mixed uMorphFactor v) * 0.5)).
    pose proof (SIN_bound (uTime * 2.5 + FoliageShader.aRandom v * 15.0)). lra. }
  pose proof (SIN_bound (uTime + FoliageShader.aRandom v * 100.0)) as Hs.
  pose proof (COS_bound (uTime * 0.5 + FoliageShader.aRandom v * 50.0)) as Hc.
  pose proof (SIN_bound (uTime + FoliageShader.aRandom v * 10.0)) as Ha.
  unfold p, q, FoliageShader.finalPos, FoliageShader.vAlpha.
  set (t := FoliageShader.t uMorphFactor) in *.
  set (br := FoliageShader.breath uTime uMorphFactor v) in *.
  set (mx := FoliageShader.mixed uMorphFactor v).
  set (sn := sin (uTime + FoliageShader.aRandom v * 100.0)) in *.
  set (cs := cos (uTime * 0.5 + FoliageShader.aRandom v * 50.0)) in *.
  destruct (Num.ltb t 0.9) eqn:E; cbn [vx vy vz].
  - apply ltb_lt in E.
    repeat match goal with |- _ /\ _ => split end;
      try (apply Rabs_le; split; nra); lra.
  - apply ltb_ge in E.
    repeat match goal with |- _ /\ _ => split end;
      try (apply Rabs_le; split; nra); try lra.
    intros _. split; apply Rabs_le; split; nra.
Qed.

End FoliageMorph.

Lemma foliage_vertex_stays_near_blend_witness :
  0 <= 0 <= 1
  /\ forall (uTime : R) (v : FoliageShader.Vertex),
       let p := FoliageShader.finalPos uTime 0 v in
       let q := FoliageShader.mixed 0 v in
       Rabs (Types.vx p - Types.vx q) <= 0.2 /\ Rabs (Types.vy p - Types.vy q) <= 0.2
       /\ Rabs (Types.vz p - Types.vz q) <= 0.08
       /\ (0.9 <= FoliageShader.t 0 ->
           Rabs (Types.vx p - Types.vx q) <= 0.08
           /\ Rabs (Types.vy p - Types.vy q) <= 0.024)
       /\ 0.4 <= FoliageShader.vAlpha uTime v <= 1.
Proof.
  split; [lra |].
  intros uTime v.
  apply (foliage_vertex_stays_near_blend uTime 0 v). lra.
Defined.

(** ** An uploaded photo *)

Section UploadedPhoto.
Import Types Cone.

Variable rnd : Random.Stream.
Hypothesis rnd_unit : Random.inUnit rnd.


(** The photo plane is 0.7 wide and has the proportions of the decoded
    image; the gold frame exceeds it by 0.1 and the backing by 0.05, in
    width and in height. *)
Theorem photo_plane_keeps_proportions (now : nat) (w h0 : R)
        (photos : list (PhotoItem Vector3)) (c : nat) :
  0 < w -> 0 < h0 ->
  let ar := aspectRatio (fst (App.newPhoto rnd now w h0 photos c)) in
  let plane := FrameGeometry.photoPlane ar in
  let gold := FrameGeometry.goldFrame ar in
  let back := FrameGeometry.backing ar in
  FrameGeometry.sizeX plane = 0.7
  /\ FrameGeometry.sizeY plane = 0.7 * h0 / w
  /\ FrameGeometry.sizeX plane * h0 = FrameGeometry.sizeY plane * w
  /\ FrameGeometry.sizeX gold = FrameGeometry.sizeX plane + 0.1
  /\ FrameGeometry.sizeY gold = FrameGeometry.sizeY plane + 0.1
  /\ FrameGeometry.sizeX back = FrameGeometry.sizeX plane + 0.05
  /\ FrameGeometry.sizeY back = FrameGeometry.sizeY plane + 0.05.
Proof.
  intros Hw Hh. cbv zeta.
  unfold App.newPhoto, App.calculateTreePos, Random.bind, Random.next, Random.ret.
  cbn [fst snd aspectRatio].
  unfold FrameGeometry.photoPlane, FrameGeometry.goldFrame, FrameGeometry.backing,
    FrameGeometry.height, FrameGeometry.width, FrameGeometry.borderSize.
  cbn [FrameGeometry.sizeX FrameGeometry.sizeY].
  assert (Hy : 0.7 / (w / h0) = 0.7 * h0 / w) by (field; lra).
  rewrite Hy.
  split; [reflexivity | split; [reflexivity | split; [field; lra |]]].
  repeat split; lra.
Qed.

End UploadedPhoto.


Lemma photo_plane_keeps_proportions_witness :
  0 < 4 /\ 0 < 3
  /\ let ar := Types.aspectRatio (fst (App.newPhoto (Random.const 0) 0%nat 4 3 [] 0%nat)) in
     let plane := FrameGeometry.photoPlane ar in
     let gold := FrameGeometry.goldFrame ar in
     let back := FrameGeometry.backing ar in
     FrameGeometry.sizeX plane = 0.7
     /\ FrameGeometry.sizeY plane = 0.7 * 3 / 4
     /\ FrameGeometry.sizeX plane * 3 = FrameGeometry.sizeY plane * 4
     /\ FrameGeometry.sizeX gold = FrameGeometry.sizeX plane + 0.1
     /\ FrameGeometry.sizeY gold = FrameGeometry.sizeY plane + 0.1
     /\ FrameGeometry.sizeX back = FrameGeometry.sizeX plane + 0.05
     /\ FrameGeometry.sizeY back = FrameGeometry.sizeY plane + 0.05.
Proof.
  split; [lra | split; [lra |]].
  apply (photo_plane_keeps_proportions (Random.const 0) 0%nat 4 3 [] 0%nat); lra.
Defined.

(** ** A photo frame, frame after frame *)

Section PhotoFramesRun.
Import Types.

Variable Orientation : Type.
Variable slerp : Orientation -> Orientation -> R -> Orientation.
Variable lookAt : Vector3 -> Vector3 -> Orientation.
Variable tumble : Orientation -> R -> R -> R -> Orientation.

Let FrameMesh : Type := PhotoFrames.FrameMesh Orientation.
Let Input : Type := PhotoFrames.Input Orientation.
Let frameMesh := PhotoFrames.frameMesh Orientation slerp lookAt tumble.
Let frames := PhotoRun.frames Orientation slerp lookAt tumble.

(** Every branch of the callback eases the scale of the group towards the
    signal and keeps the photo and the position object. *)
Lemma frameMesh_scale (inp : Input) (fm : FrameMesh) (h : PhotoFrames.Heap)
      (g : PhotoFrames.Group Orientation) :
  PhotoFrames.group fm = Some g ->
  exists g',
    PhotoFrames.group (fst (frameMesh inp fm h)) = Some g'
    /\ PhotoFrames.photo (fst (frameMesh inp fm h)) = PhotoFrames.photo fm
    /\ PhotoFrames.position g' = PhotoFrames.position g
    /\ PhotoFrames.scale g'
       = MathUtils.lerp (PhotoFrames.scale g) (PhotoFrames.globalScale inp) 0.1.
Proof.
  intros Hg. unfold frameMesh, PhotoFrames.frameMesh. rewrite Hg.
  destruct (if Num.gtb (PhotoFrames.globalScale inp) 2.0
            then PhotoFrames.parent inp else None) as [parent |];
    [| destruct (isTreeShape (PhotoFrames.treeState inp))];
    cbn [fst PhotoFrames.group PhotoFrames.photo];
    eexists; (split; [reflexivity | split; [reflexivity | split; reflexivity]]).
Qed.

(** One frame on the tree: the position eases towards the tree position at
    rate 0.08, then sways in height by at most 0.002. *)
Lemma frameMesh_onTree (inp : Input) (fm : FrameMesh) (h : PhotoFrames.Heap)
      (g : PhotoFrames.Group Orientation) :
  PhotoRun.onTree Orientation inp ->
  PhotoFrames.group fm = Some g ->
  PhotoFrames.position g <> photoTreePos (PhotoFrames.photo fm) ->
  let h' := snd (frameMesh inp fm h) in
  let target := h (photoTreePos (PhotoFrames.photo fm)) in
  let p := h (PhotoFrames.position g) in
  h' (photoTreePos (PhotoFrames.photo fm)) = target
  /\ h' (PhotoFrames.position g)
     = mkVector3 (MathUtils.smooth (vx p) (vx target) 0.08)
                 (MathUtils.smooth (vy p) (vy target) 0.08
                  + sin (PhotoFrames.time inp * 2
                         + INR (photoId (PhotoFrames.photo fm))) * 0.002)
                 (MathUtils.smooth (vz p) (vz target) 0.08).
Proof.
  intros [Hmode Hstd] Hg Hne. unfold frameMesh, PhotoFrames.frameMesh.
  rewrite Hg, Hmode. cbn [isTreeShape].
  assert (Hnone : (if Num.gtb (PhotoFrames.globalScale inp) 2.0
                   then PhotoFrames.parent inp else None) = None).
  { destruct Hstd as [Hle | ->].
    - unfold Num.gtb. rewrite ltb_false by lra. reflexivity.
    - destruct (Num.gtb _ _); reflexivity. }
  rewrite Hnone. cbn [snd]. cbv zeta.
  unfold PhotoFrames.addY, PhotoFrames.approach, PhotoFrames.lerp.
  cbn [PhotoFrames.position].
  split.
  - rewrite !write_other by congruence. reflexivity.
  - rewrite !write_same. cbn [vx vy vz]. reflexivity.
Qed.

(** While a photo is on the tree and outside the presentation, its frame
    hovers at its tree position: after [n] frames the horizontal gap is the
    initial gap times [0.92 ^ n], and the gap in height is at most the
    initial one times [0.92 ^ n] plus [0.025 * (1 - 0.92 ^ n)]; the tree
    position itself is not written. *)
Theorem photo_hovers_at_tree_position (inputs : list Input) :
  forall (fm : FrameMesh) (h : PhotoFrames.Heap) (g : PhotoFrames.Group Orientation),
    Forall (PhotoRun.onTree Orientation) inputs ->
    PhotoFrames.group fm = Some g ->
    PhotoFrames.position g <> photoTreePos (PhotoFrames.photo fm) ->
    let h' := snd (frames inputs fm h) in
    let target := h (photoTreePos (PhotoFrames.photo fm)) in
    let p := h (PhotoFrames.position g) in
    let p' := h' (PhotoFrames.position g) in
    let q := 0.92 ^ length inputs in
    h' (photoTreePos (PhotoFrames.photo fm)) = target
    /\ vx p' - vx target = q * (vx p - vx target)
    /\ vz p' - vz target = q * (vz p - vz target)
    /\ Rabs (vy p' - vy target) <= q * Rabs (vy p - vy target) + 0.025 * (1 - q).
Proof.
  induction inputs as [| inp inputs IH]; intros fm h g Hall Hg Hne; cbv zeta.
  - unfold frames. cbn [PhotoRun.frames snd length pow].
    split; [reflexivity | split; [ring | split; [ring | lra]]].
  - inversion Hall as [| ? ? Hinp Hrest]; subst.
    unfold frames. cbn [PhotoRun.frames length pow]. fold frameMesh.
    destruct (frameMesh_scale inp fm h g Hg) as (g1 & Hg1 & Hph & Hpos & _).
    destruct (frameMesh_onTree inp fm h g Hinp Hg Hne) as [Ht Hp]. cbv zeta in Ht, Hp.
    destruct (frameMesh inp fm h) as [fm1 h1]. cbn [fst snd] in *.
    assert (Hne1 : PhotoFrames.position g1 <> photoTreePos (PhotoFrames.photo fm1))
      by (rewrite Hpos, Hph; exact Hne).
    specialize (IH fm1 h1 g1 Hrest Hg1 Hne1). cbv zeta in IH.
    unfold frames in IH. rewrite Hpos, Hph in IH. rewrite Ht in IH.
    destruct IH as (Ht' & Hx & Hz & Hy).
    rewrite Hp in Hx, Hz, Hy. cbn [vx vy vz] in Hx, Hz, Hy.
    unfold MathUtils.smooth in Hx, Hz, Hy.
    set (q := 0.92 ^ length inputs) in *.
    assert (Hq : 0 <= q) by (apply pow_le; lra).
    clearbody q.
    split; [exact Ht' | split; [rewrite Hx; nra | split; [rewrite Hz; nra |]]].
    eapply Rle_trans; [exact Hy |].
    set (s := sin (PhotoFrames.time inp * 2 + INR (photoId (PhotoFrames.photo fm)))).
    assert (Hs : -1 <= s <= 1) by apply SIN_bound.
    set (y := vy (h (PhotoFrames.position g))) in *.
    set (ty := vy (h (photoTreePos (PhotoFrames.photo fm)))) in *.
    assert (Hstep : Rabs (y + (ty - y) * 0.08 + s * 0.002 - ty)
                    <= 0.92 * Rabs (y - ty) + 0.002).
    { replace (y + (ty - y) * 0.08 + s * 0.002 - ty)
        with (0.92 * (y - ty) + s * 0.002) by lra.
      eapply Rle_trans; [apply Rabs_triang |].
      rewrite !Rabs_mult, (Rabs_pos_eq 0.92), (Rabs_pos_eq 0.002) by lra.
      assert (Rabs s <= 1) by (apply Rabs_le; lra). pose proof (Rabs_pos s). nra. }
    pose proof (Rabs_pos (y - ty)).
    nra.
Qed.

(** Whatever the Mode and the branch, the scale of a frame's group eases
    towards the scale signal: with a constant signal [s] the gap is the
    initial gap times [0.9 ^ n] after [n] frames, and with signals between 1
    and 10 a scale between 1 and 10 stays between 1 and 10. *)
Theorem photo_scale_tracks_signal (inputs : list Input) :
  forall (fm : FrameMesh) (h : PhotoFrames.Heap) (g : PhotoFrames.Group Orientation),
    PhotoFrames.group fm = Some g ->
    exists g',
      PhotoFrames.group (fst (frames inputs fm h)) = Some g'
      /\ (forall s,
             Forall (fun inp => PhotoFrames.globalScale inp = s) inputs ->
             PhotoFrames.scale g' - s
             = 0.9 ^ length inputs * (PhotoFrames.scale g - s))
      /\ (Forall (fun inp => 1 <= PhotoFrames.globalScale inp <= 10) inputs ->
          1 <= PhotoFrames.scale g <= 10 ->
          1 <= PhotoFrames.scale g' <= 10).
Proof.
  induction inputs as [| inp inputs IH]; intros fm h g Hg.
  - exists g. unfold frames. cbn [PhotoRun.frames fst length pow].
    split; [exact Hg | split; [intros; ring | intros _ H; exact H]].
  - unfold frames. cbn [PhotoRun.frames length pow]. fold frameMesh.
    destruct (frameMesh_scale inp fm h g Hg) as (g1 & Hg1 & _ & _ & Hs1).
    destruct (frameMesh inp fm h) as [fm1 h1]. cbn [fst] in *.
    destruct (IH fm1 h1 g1 Hg1) as (g' & Hg' & Hconst & Hrange).
    exists g'. split; [exact Hg' | split].
    + intros s Hall. inversion Hall as [| ? ? Hinp Hrest]; subst.
      rewrite (Hconst _ Hrest), Hs1. unfold MathUtils.lerp.
      generalize (0.9 ^ length inputs). intros q. nra.
    + intros Hall Hin. inversion Hall as [| ? ? Hinp Hrest]; subst.
      apply (Hrange Hrest). rewrite Hs1. unfold MathUtils.lerp. lra.
Qed.

End PhotoFramesRun.

Lemma photo_hovers_at_tree_position_witness :
  Forall (PhotoRun.onTree unit) [PhotoSample.input]
  /\ PhotoFrames.group PhotoSample.frameMesh = Some PhotoSample.group
  /\ PhotoFrames.position PhotoSample.group
     <> Types.photoTreePos (PhotoFrames.photo PhotoSample.frameMesh)
  /\ let inputs := [PhotoSample.input] in
     let fm := PhotoSample.frameMesh in
     let h := PhotoSample.heap in
     let g := PhotoSample.group in
     let h' :=
       snd (PhotoRun.frames unit PhotoSample.slerp PhotoSample.lookAt
              PhotoSample.tumble inputs fm h) in
     let target := h (Types.photoTreePos (PhotoFrames.photo fm)) in
     let p := h (PhotoFrames.position g) in
     let p' := h' (PhotoFrames.position g) in
     let q := 0.92 ^ length inputs in
     h' (Types.photoTreePos (PhotoFrames.photo fm)) = target
     /\ Types.vx p' - Types.vx target = q * (Types.vx p - Types.vx target)
     /\ Types.vz p' - Types.vz target = q * (Types.vz p - Types.vz target)
     /\ Rabs (Types.vy p' - Types.vy target)
        <= q * Rabs (Types.vy p - Types.vy target) + 0.025 * (1 - q).
Proof.
  assert (H1 : Forall (PhotoRun.onTree unit) [PhotoSample.input]).
  { constructor; [| constructor]. split; [reflexivity | right; reflexivity]. }
  assert (H3 : PhotoFrames.position PhotoSample.group
               <> Types.photoTreePos (PhotoFrames.photo PhotoSample.frameMesh))
    by (cbn; discriminate).
  split; [exact H1 | split; [reflexivity | split; [exact H3 |]]].
  exact (photo_hovers_at_tree_position unit PhotoSample.slerp PhotoSample.lookAt
           PhotoSample.tumble [PhotoSample.input] PhotoSample.frameMesh
           PhotoSample.heap PhotoSample.group H1 eq_refl H3).
Defined.

Lemma photo_scale_tracks_signal_witness :
  PhotoFrames.group PhotoSample.frameMesh = Some PhotoSample.group
  /\ forall inputs : list (PhotoFrames.Input unit),
       exists g',
         PhotoFrames.group
           (fst (PhotoRun.frames unit PhotoSample.slerp PhotoSample.lookAt
                   PhotoSample.tumble inputs PhotoSample.frameMesh PhotoSample.heap))
         = Some g'
         /\ (forall s,
                Forall (fun inp => PhotoFrames.globalScale inp = s) inputs ->
                PhotoFrames.scale g' - s
                = 0.9 ^ length inputs * (PhotoFrames.scale PhotoSample.group - s))
         /\ (Forall (fun inp => 1 <= PhotoFrames.globalScale inp <= 10) inputs ->
             1 <= PhotoFrames.scale PhotoSample.group <= 10 ->
             1 <= PhotoFrames.scale g' <= 10).
Proof.
  split; [reflexivity |].
  intros inputs.
  exact (photo_scale_tracks_signal unit PhotoSample.slerp PhotoSample.lookAt
           PhotoSample.tumble inputs PhotoSample.frameMesh PhotoSample.heap
           PhotoSample.group eq_refl).
Defined.

(** ** The star *)

Section Star.
Import Types.

Lemma shapePoint_radius (i : nat) :
  Num.hypot2 (fst (TopStar.shapePoint i)) (snd (TopStar.shapePoint i))
  = if Nat.even i then 1.2 else 0.5.
Proof.
  unfold TopStar.shapePoint. cbn [fst snd].
  set (a := INR i / INR (TopStar.numPoints * 2) * PI * 2 + PI / 2).
  set (r := if Nat.even i then TopStar.outerRadius else TopStar.innerRadius).
  assert (Hr : 0 <= r).
  { unfold r, TopStar.outerRadius, TopStar.innerRadius. destruct (Nat.even i); lra. }
  pose proof (axis_distance a r 0 Hr) as H.
  unfold Cone.distanceFromAxis in H. cbn [vx vz] in H. rewrite H.
  unfold r, TopStar.outerRadius, TopStar.innerRadius. reflexivity.
Qed.

(** The outline of the star has ten points; their distance from the centre
    alternates between 1.2 and 0.5, beginning with a tip straight above the
    centre, and the outline is its own mirror image about the vertical
    axis: point [10 - i] is point [i] with the opposite abscissa. *)
Theorem star_outline :
  length TopStar.starShape = 10%nat
  /\ nth_error TopStar.starShape 0 = Some (TopStar.shapePoint 0)
  /\ fst (TopStar.shapePoint 0) = 0 /\ snd (TopStar.shapePoint 0) = 1.2
  /\ forall i p,
       nth_error TopStar.starShape i = Some p ->
       p = TopStar.shapePoint i
       /\ Num.hypot2 (fst p) (snd p) = (if Nat.even i then 1.2 else 0.5)
       /\ fst (TopStar.shapePoint (10 - i)) = - fst p
       /\ snd (TopStar.shapePoint (10 - i)) = snd p.
Proof.
  split; [reflexivity | split; [reflexivity | split; [| split]]].
  - unfold TopStar.shapePoint. cbn [fst INR Nat.even].
    replace (0 / INR (TopStar.numPoints * 2) * PI * 2 + PI / 2) with (PI / 2)
      by (unfold Rdiv; ring).
    rewrite cos_PI2. ring.
  - unfold TopStar.shapePoint. cbn [snd INR Nat.even].
    replace (0 / INR (TopStar.numPoints * 2) * PI * 2 + PI / 2) with (PI / 2)
      by (unfold Rdiv; ring).
    rewrite sin_PI2. unfold TopStar.outerRadius. lra.
  - intros i p Hi.
    assert (Hlt : (i < 10)%nat).
    { assert (Hn : nth_error TopStar.starShape i <> None) by congruence.
      apply nth_error_Some in Hn. exact Hn. }
    assert (Hp : p = TopStar.shapePoint i).
    { unfold TopStar.starShape in Hi. rewrite nth_error_map in Hi.
      rewrite nth_error_seq in Hi.
      replace (i <? TopStar.numPoints * 2)%nat with true in Hi
        by (symmetry; apply Nat.ltb_lt; exact Hlt).
      cbn [option_map Nat.add] in Hi. congruence. }
    subst p. split; [reflexivity | split; [apply shapePoint_radius |]].
    unfold TopStar.shapePoint. cbn [fst snd].
    assert (He : Nat.even (10 - i) = Nat.even i).
    { do 10 (destruct i as [| i]; [reflexivity |]). lia. }
    rewrite He.
    assert (Ha : INR (10 - i) / INR (TopStar.numPoints * 2) * PI * 2 + PI / 2
                 = 2 * PI + (PI / 2 - INR i / INR (TopStar.numPoints * 2) * PI * 2)).
    { rewrite minus_INR by lia.
      change (INR (TopStar.numPoints * 2)) with (INR 10).
      replace (INR 10) with 10 by (simpl; lra). lra. }
    rewrite Ha.
    set (a := INR i / INR (TopStar.numPoints * 2) * PI * 2).
    set (r := if Nat.even i then TopStar.outerRadius else TopStar.innerRadius).
    rewrite !cos_plus, !sin_plus, cos_minus, sin_minus.
    rewrite cos_2PI, sin_2PI, cos_PI2, sin_PI2.
    split; ring.
Qed.

End Star.

Section StarFrames.
Import Types.

Variable scatter : Vector3.

Lemma star_run_app (h1 h2 : list (R * TreeState)) (st : TopStar.State) :
  TopStar.run scatter (h1 ++ h2) st
  = TopStar.run scatter h2 (TopStar.run scatter h1 st).
Proof.
  revert st. induction h1 as [| [t m] h1 IH]; intros st; simpl;
    [reflexivity | apply IH].
Qed.

Lemma star_run_succ (m : TreeState) (clock : nat -> R) (n : nat)
      (st : TopStar.State) :
  TopStar.run scatter (OrnamentsFrame.phase m clock (S n)) st
  = TopStar.frame scatter (clock n) m
      (TopStar.run scatter (OrnamentsFrame.phase m clock n) st).
Proof. rewrite phase_succ, star_run_app. reflexivity. Qed.

(** The star hovers at the target of the current Mode: after [n] frames in
    that Mode the horizontal gap to the target is the initial gap times
    [(1 - rate) ^ n], with rate 0.05 on the tree and 0.015 scattered, and
    the gap in height is at most the initial one times that power plus
    [0.005 / rate * (1 - (1 - rate) ^ n)], the room the floating bob takes:
    0.1 on the tree, a third scattered. *)
Theorem star_hovers_at_its_target (m : TreeState) (clock : nat -> R)
        (st : TopStar.State) (n : nat) :
  let target := if isTreeShape m then TopStar.treePos else scatter in
  let rate := if isTreeShape m then 0.05 else 0.015 in
  let q := (1 - rate) ^ n in
  let p := TopStar.position st in
  let p' := TopStar.position
              (TopStar.run scatter (OrnamentsFrame.phase m clock n) st) in
  vx p' - vx target = q * (vx p - vx target)
  /\ vz p' - vz target = q * (vz p - vz target)
  /\ Rabs (vy p' - vy target)
     <= q * Rabs (vy p - vy target) + 0.005 / rate * (1 - q).
Proof.
  cbv zeta. induction n as [| n IH].
  - cbn [OrnamentsFrame.phase seq map TopStar.run pow].
    split; [lra | split; [lra |]]. destruct (isTreeShape m); lra.
  - rewrite star_run_succ. destruct IH as (Hx & Hz & Hy).
    set (st' := TopStar.run scatter (OrnamentsFrame.phase m clock n) st) in *.
    set (target := if isTreeShape m then TopStar.treePos else scatter) in *.
    assert (Hpos :
              TopStar.position (TopStar.frame scatter (clock n) m st')
              = mkVector3
                  (MathUtils.smooth (vx (TopStar.position st')) (vx target)
                     (if isTreeShape m then 0.05 else 0.015))
                  (MathUtils.smooth (vy (TopStar.position st')) (vy target)
                     (if isTreeShape m then 0.05 else 0.015)
                   + sin (clock n * 2.0) * 0.005)
                  (MathUtils.smooth (vz (TopStar.position st')) (vz target)
                     (if isTreeShape m then 0.05 else 0.015))).
    { unfold TopStar.frame, target. destruct (isTreeShape m); reflexivity. }
    rewrite Hpos. cbn [vx vy vz pow]. unfold MathUtils.smooth.
    pose proof (SIN_bound (clock n * 2.0)) as Hs.
    set (s := sin (clock n * 2.0)) in *.
    set (x' := vx (TopStar.position st')) in *.
    set (y' := vy (TopStar.position st')) in *.
    set (z' := vz (TopStar.position st')) in *.
    set (gy := Rabs (vy (TopStar.position st) - vy target)) in *.
    assert (Hgy : 0 <= gy) by apply Rabs_pos.
    destruct (isTreeShape m).
    + set (q := (1 - 0.05) ^ n) in *.
      assert (Hq : 0 <= q) by (apply pow_le; lra). clearbody q.
      split; [nra | split; [nra |]].
      assert (Hstep : Rabs (y' + (vy target - y') * 0.05 + s * 0.005 - vy target)
                      <= 0.95 * Rabs (y' - vy target) + 0.005).
      { replace (y' + (vy target - y') * 0.05 + s * 0.005 - vy target)
          with (0.95 * (y' - vy target) + s * 0.005) by lra.
        eapply Rle_trans; [apply Rabs_triang |].
        rewrite !Rabs_mult, (Rabs_pos_eq 0.95), (Rabs_pos_eq 0.005) by lra.
        assert (Rabs s <= 1) by (apply Rabs_le; lra). pose proof (Rabs_pos s). nra. }
      nra.
    + set (q := (1 - 0.015) ^ n) in *.
      assert (Hq : 0 <= q) by (apply pow_le; lra). clearbody q.
      split; [nra | split; [nra |]].
      assert (Hstep : Rabs (y' + (vy target - y') * 0.015 + s * 0.005 - vy target)
                      <= 0.985 * Rabs (y' - vy target) + 0.005).
      { replace (y' + (vy target - y') * 0.015 + s * 0.005 - vy target)
          with (0.985 * (y' - vy target) + s * 0.005) by lra.
        eapply Rle_trans; [apply Rabs_triang |].
        rewrite !Rabs_mult, (Rabs_pos_eq 0.985), (Rabs_pos_eq 0.005) by lra.
        assert (Rabs s <= 1) by (apply Rabs_le; lra). pose proof (Rabs_pos s). nra. }
      nra.
Qed.

(** On the tree the star turns about the vertical by 0.01 per frame while
    its tilt about the other two axes dies out: the roll shrinks by the
    factor 0.95 per frame, and the pitch ends within 0.1 of upright.
    Scattered, the three angles grow by 0.005, 0.005 and 0.002 per frame. *)
Theorem star_rotation (clock : nat -> R) (st : TopStar.State) (n : nat) :
  let onTree := TopStar.run scatter (OrnamentsFrame.phase TREE_SHAPE clock n) st in
  let loose := TopStar.run scatter (OrnamentsFrame.phase SCATTERED clock n) st in
  TopStar.rotY onTree = TopStar.rotY st + 0.01 * INR n
  /\ TopStar.rotZ onTree = 0.95 ^ n * TopStar.rotZ st
  /\ Rabs (TopStar.rotX onTree)
     <= 0.95 ^ n * Rabs (TopStar.rotX st) + 0.1 * (1 - 0.95 ^ n)
  /\ TopStar.rotX loose = TopStar.rotX st + 0.005 * INR n
  /\ TopStar.rotY loose = TopStar.rotY st + 0.005 * INR n
  /\ TopStar.rotZ loose = TopStar.rotZ st + 0.002 * INR n.
Proof.
  cbv zeta. induction n as [| n IH].
  - cbn [OrnamentsFrame.phase seq map TopStar.run pow INR].
    repeat split; lra.
  - rewrite !star_run_succ. destruct IH as (Hy & Hz & Hx & Lx & Ly & Lz).
    rewrite S_INR.
    unfold TopStar.frame at 1 2 3 4 5 6.
    cbn [isTreeShape TopStar.rotX TopStar.rotY TopStar.rotZ pow].
    unfold MathUtils.lerp.
    set (q := 0.95 ^ n) in *.
    assert (Hq : 0 <= q) by (apply pow_le; lra). clearbody q.
    pose proof (SIN_bound (clock n * 0.5)) as Hs.
    set (s := sin (clock n * 0.5)) in *.
    split; [lra | split; [nra | split; [| split; [lra | split; lra]]]].
    set (rx := TopStar.rotX
                 (TopStar.run scatter (OrnamentsFrame.phase TREE_SHAPE clock n) st))
      in *.
    assert (Hstep : Rabs ((1 - 0.05) * rx + 0.05 * (s * 0.1))
                    <= 0.95 * Rabs rx + 0.005).
    { eapply Rle_trans; [apply Rabs_triang |].
      rewrite !Rabs_mult, (Rabs_pos_eq (1 - 0.05)), (Rabs_pos_eq 0.05),
        (Rabs_pos_eq 0.1) by lra.
      assert (Rabs s <= 1) by (apply Rabs_le; lra). pose proof (Rabs_pos s). nra. }
    pose proof (Rabs_pos (TopStar.rotX st)).
    nra.
Qed.

End StarFrames.

(** ** The snow *)

Section SnowFall.
Import Types.

Lemma floor_bounds (x : R) : GLSL.floor x <= x < GLSL.floor x + 1.
Proof.
  unfold GLSL.floor. destruct (base_Int_part x) as [Hlo Hhi]. lra.
Qed.

Lemma floor_shift (x : R) : GLSL.floor (x - 1) = GLSL.floor x - 1.
Proof.
  unfold GLSL.floor. rewrite <- minus_IZR. f_equal. symmetry.
  apply Int_part_spec. rewrite minus_IZR.
  destruct (base_Int_part x) as [Hlo Hhi]. lra.
Qed.

(** [mod] by a positive number lands in [0, y). *)
Lemma mod_range (x y : R) : 0 < y -> 0 <= GLSL.mod_ x y < y.
Proof.
  intros Hy. unfold GLSL.mod_.
  pose proof (floor_bounds (x / y)) as [Hlo Hhi].
  assert (Hx : x = y * (x / y)) by (field; lra).
  set (k := GLSL.floor (x / y)) in *. clearbody k.
  set (d := x / y) in *. clearbody d. subst x. nra.
Qed.

Lemma mod_shift (x y : R) : 0 < y -> GLSL.mod_ (x - y) y = GLSL.mod_ x y.
Proof.
  intros Hy. unfold GLSL.mod_.
  replace ((x - y) / y) with (x / y - 1) by (field; lra).
  rewrite floor_shift. ring.
Qed.

Lemma clamp_unit (x : R) : 0 <= GLSL.clamp x 0.0 1.0 <= 1.
Proof.
  unfold GLSL.clamp, Rmin, Rmax.
  destruct (Rle_dec x 0.0); destruct (Rle_dec _ 1.0); lra.
Qed.

Lemma smoothstep_unit (e0 e1 x : R) : 0 <= GLSL.smoothstep e0 e1 x <= 1.
Proof.
  unfold GLSL.smoothstep. cbv zeta.
  pose proof (clamp_unit ((x - e0) / (e1 - e0))) as Ht.
  set (t := GLSL.clamp ((x - e0) / (e1 - e0)) 0.0 1.0) in *.
  split.
  - assert (0 <= t * t) by nra. nra.
  - assert (0 <= (1 - t) * (1 - t)) by nra.
    assert (0 <= (1 - t) * (1 - t) * (1 + 2 * t)) by (apply Rmult_le_pos; lra).
    nra.
Qed.

(** Whatever the time and the attributes of a flake, the shader draws it
    inside the box of the snow, 50 by 60 by 50 about the origin, and its
    alpha is between 0 and 1. *)
Theorem snow_stays_in_its_box (uTime : R) (f : Snow.Flake) (mvz : R) :
  Snow.inBox (Snow.shaded uTime f)
  /\ 0 <= Snow.vAlpha uTime f mvz <= 1.
Proof.
  split.
  - unfold Snow.inBox, Snow.shaded, Snow.fallenY. cbv zeta. cbn [vx vy vz].
    unfold Snow.uRange, Snow.uHeight.
    repeat match goal with
           | |- context [GLSL.mod_ ?a ?b] =>
               let H := fresh "H" in
               assert (H : 0 <= GLSL.mod_ a b < b) by (apply mod_range; lra);
               generalize dependent (GLSL.mod_ a b); intros
           end.
    lra.
  - unfold Snow.vAlpha. cbv zeta.
    pose proof (smoothstep_unit 0.4 0.5 (Rabs (Snow.fallenY uTime f / Snow.uHeight))).
    pose proof (smoothstep_unit 20.0 70.0 (- mvz)).
    nra.
Qed.

(** A flake that falls at all comes back to the same height after
    [20 / aSpeed] seconds: the wrapping makes its fall periodic. *)
Theorem snow_fall_is_periodic (uTime : R) (f : Snow.Flake) :
  0 < Snow.aSpeed f ->
  Snow.fallenY (uTime + 20 / Snow.aSpeed f) f = Snow.fallenY uTime f.
Proof.
  intros Ha. unfold Snow.fallenY. cbv zeta. f_equal.
  unfold Snow.uSpeed, Snow.uHeight.
  rewrite <- (mod_shift (vy (Snow.position f) - uTime * 3.0 * Snow.aSpeed f
                         + 60 / 2.0) 60) by lra.
  f_equal.
  assert (H20 : 20 / Snow.aSpeed f * Snow.aSpeed f = 20) by (field; lra).
  set (a := Snow.aSpeed f) in *. set (d := 20 / a) in *. nra.
Qed.

End SnowFall.

Section SnowAttributes.
Import Types.

Variable rnd : Random.Stream.
Hypothesis rnd_unit : Random.inUnit rnd.

Lemma flake_inRange (c : nat) : Snow.inRange (fst (Snow.flake rnd c)).
Proof.
  unfold Snow.inRange, Snow.inBox, Snow.flake, Random.bind, Random.next, Random.ret.
  cbn [fst snd Snow.position Snow.aSpeed Snow.aRandom Snow.aSize Snow.aVelocity
       vx vy vz].
  unfold Snow.range, Snow.uRange, Snow.uHeight.
  pose proof (rnd_unit c). pose proof (rnd_unit (S c)).
  pose proof (rnd_unit (S (S c))). pose proof (rnd_unit (S (S (S c)))).
  pose proof (rnd_unit (S (S (S (S c))))).
  pose proof (rnd_unit (S (S (S (S (S c)))))).
  pose proof (rnd_unit (S (S (S (S (S (S c))))))).
  pose proof (rnd_unit (S (S (S (S (S (S (S c)))))))).
  repeat match goal with |- _ /\ _ => split end; lra.
Qed.

Lemma flakes_inRange (n : nat) :
  forall c,
    Forall Snow.inRange (fst (Snow.flakes rnd n c))
    /\ length (fst (Snow.flakes rnd n c)) = n.
Proof.
  induction n as [| n IH]; intros c; cbn [Snow.flakes].
  - split; [constructor | reflexivity].
  - unfold Random.bind, Random.ret.
    pose proof (flake_inRange c) as Hp.
    destruct (Snow.flake rnd c) as [p c1].
    destruct (IH c1) as [Hall Hlen].
    destruct (Snow.flakes rnd n c1) as [rest c2].
    simpl in *. split; [constructor; assumption | f_equal; exact Hlen].
Qed.

(** Under draws from [0, 1), the geometry of the snow holds 2500 flakes,
    and each of them starts inside the box, with a fall speed in
    [0.5, 1.3), a size in [1.5, 4) and a horizontal drift in [-1, 1) along x
    and z and none in height. *)
Theorem snow_attributes_in_range (c : nat) :
  let g := fst (Snow.generate rnd c) in
  length (Snow.positions g) = (3 * 2500)%nat
  /\ length (Snow.speeds g) = 2500%nat
  /\ length (Snow.randoms g) = 2500%nat
  /\ length (Snow.sizes g) = 2500%nat
  /\ length (Snow.velocities g) = (3 * 2500)%nat
  /\ forall i, (i < 2500)%nat -> Snow.inRange (Snow.flakeAt g i).
Proof.
  unfold Snow.generate, Random.bind, Random.ret.
  destruct (flakes_inRange Snow.count c) as [Hall Hlen].
  destruct (Snow.flakes rnd Snow.count c) as [fs c1].
  cbn [fst snd] in *. cbv zeta. unfold Snow.geometryOf.
  cbn [Snow.positions Snow.speeds Snow.randoms Snow.sizes Snow.velocities].
  rewrite !ofVectors_length, !length_map, Hlen.
  change Snow.count with 2500%nat.
  split; [reflexivity | split; [reflexivity | split; [reflexivity |
    split; [reflexivity | split; [reflexivity |]]]]].
  intros i Hi.
  destruct (nth_error fs i) as [fl |] eqn:E;
    [| apply nth_error_None in E; unfold Snow.count in Hlen; lia].
  unfold Snow.flakeAt.
  cbn [Snow.positions Snow.speeds Snow.randoms Snow.sizes Snow.velocities].
  rewrite (vectorAt_nth (map Snow.position fs) i (Snow.position fl))
    by (rewrite nth_error_map, E; reflexivity).
  rewrite (vectorAt_nth (map Snow.aVelocity fs) i (Snow.aVelocity fl))
    by (rewrite nth_error_map, E; reflexivity).
  unfold Float32Array.get.
  rewrite (nth_error_nth (map Snow.aSpeed fs) i 0
             (eq_trans (nth_error_map _ _ _) (f_equal (option_map _) E))).
  rewrite (nth_error_nth (map Snow.aRandom fs) i 0
             (eq_trans (nth_error_map _ _ _) (f_equal (option_map _) E))).
  rewrite (nth_error_nth (map Snow.aSize fs) i 0
             (eq_trans (nth_error_map _ _ _) (f_equal (option_map _) E))).
  rewrite Forall_forall in Hall.
  pose proof (Hall fl (nth_error_In _ _ E)) as Hfl.
  destruct fl; exact Hfl.
Qed.

End SnowAttributes.

Lemma snow_fall_is_periodic_witness :
  0 < Snow.aSpeed (Snow.mkFlake (Types.mkVector3 0 0 0) 1 0 2 (Types.mkVector3 0 0 0))
  /\ forall uTime : R,
       Snow.fallenY
         (uTime
          + 20 / Snow.aSpeed (Snow.mkFlake (Types.mkVector3 0 0 0) 1 0 2
                                (Types.mkVector3 0 0 0)))
         (Snow.mkFlake (Types.mkVector3 0 0 0) 1 0 2 (Types.mkVector3 0 0 0))
       = Snow.fallenY uTime
           (Snow.mkFlake (Types.mkVector3 0 0 0) 1 0 2 (Types.mkVector3 0 0 0)).
Proof.
  assert (H : 0 < Snow.aSpeed (Snow.mkFlake (Types.mkVector3 0 0 0) 1 0 2
                                 (Types.mkVector3 0 0 0))) by (simpl; lra).
  split; [exact H |].
  intros uTime. exact (snow_fall_is_periodic uTime _ H).
Defined.

Lemma snow_attributes_in_range_witness :
  Random.inUnit (Random.const 0)
  /\ forall c : nat,
       let g := fst (Snow.generate (Random.const 0) c) in
       length (Snow.positions g) = (3 * 2500)%nat
       /\ length (Snow.speeds g) = 2500%nat
       /\ length (Snow.randoms g) = 2500%nat
       /\ length (Snow.sizes g) = 2500%nat
       /\ length (Snow.velocities g) = (3 * 2500)%nat
       /\ forall i, (i < 2500)%nat -> Snow.inRange (Snow.flakeAt g i).
Proof.
  split; [exact zeros_unit |].
  exact (snow_attributes_in_range (Random.const 0) zeros_unit).
Defined.

(** ** Merged geometries *)

Section Merged.
Import Types Merge.

Lemma store_app_right {A : Type} (l1 l2 : list A) (k : nat) (v : A) :
  TypedArray.store (l1 ++ l2) (length l1 + k) v = l1 ++ TypedArray.store l2 k v.
Proof.
  induction l1 as [| a l1 IH]; simpl; [reflexivity |].
  rewrite IH. reflexivity.
Qed.

(** Writing a source at the end of what is written so far, into an array
    with room for it. *)
Lemma set_fresh {A : Type} (z : A) (pre src : list A) (m : nat) :
  TypedArray.set (pre ++ repeat z (length src + m)) src (length pre)
  = Some ((pre ++ src) ++ repeat z m).
Proof.
  unfold TypedArray.set.
  replace (length pre + length src <=? length (pre ++ repeat z (length src + m)))%nat
    with true
    by (symmetry; apply Nat.leb_le; rewrite length_app, repeat_length; lia).
  f_equal. rewrite <- app_assoc. f_equal.
  - rewrite firstn_app, Nat.sub_diag, firstn_all. simpl. apply app_nil_r.
  - f_equal. rewrite skipn_app.
    rewrite (skipn_all2 pre) by lia.
    replace (length pre + length src - length pre)%nat with (length src) by lia.
    rewrite repeat_app, skipn_app, repeat_length, Nat.sub_diag.
    rewrite skipn_all2 by (rewrite repeat_length; lia). reflexivity.
Qed.

Lemma indexLoop_fresh (src : list nat) :
  forall (pre done : list nat) (vOff m : nat),
    indexLoop src (length done) (length pre) vOff
              (pre ++ done ++ repeat 0%nat (length src + m))
    = pre ++ done ++ map (fun v => TypedArray.toUint16 (v + vOff)) src
          ++ repeat 0%nat m.
Proof.
  induction src as [| v src IH]; intros pre done vOff m; cbn [indexLoop map length].
  - reflexivity.
  - rewrite app_assoc.
    replace (length pre + length done)%nat with (length (pre ++ done) + 0)%nat
      by (rewrite length_app; lia).
    rewrite store_app_right. cbn [Nat.add repeat TypedArray.store].
    rewrite <- app_assoc.
    specialize (IH pre (done ++ [TypedArray.toUint16 (v + vOff)]) vOff m).
    rewrite length_app in IH. cbn [length] in IH.
    replace (length done + 1)%nat with (S (length done)) in IH by lia.
    rewrite <- !app_assoc in IH. cbn [app] in IH. exact IH.
Qed.

Lemma fold_sum {A : Type} (f : A -> nat) (l : list A) :
  forall a, fold_left (fun n g => (n + f g)%nat) l a = (a + list_sum (map f l))%nat.
Proof.
  induction l as [| g l IH]; intros a; simpl; [lia | rewrite IH; lia].
Qed.

Lemma sum_cons (a : nat) (l : list nat) : list_sum (a :: l) = (a + list_sum l)%nat.
Proof. reflexivity. Qed.

Let indexLength (g : BufferGeometry) : nat :=
  match index g with Some idx => length idx | None => 0%nat end.

Lemma indexFold_sum (geoms : list BufferGeometry) :
  forall a,
    fold_left (fun n g => match index g with
                          | Some idx => (n + length idx)%nat
                          | None => n
                          end) geoms a
    = (a + list_sum (map indexLength geoms))%nat.
Proof.
  induction geoms as [| g geoms IH]; intros a; simpl; [lia |].
  rewrite IH. unfold indexLength at 2. destruct (index g); lia.
Qed.

Lemma indexCount_sum (geoms : list BufferGeometry) :
  indexCount geoms = list_sum (map indexLength geoms).
Proof. apply (indexFold_sum geoms 0%nat). Qed.

Lemma shifted_length (geoms : list BufferGeometry) :
  forall vOff, length (shifted vOff geoms) = list_sum (map indexLength geoms).
Proof.
  induction geoms as [| g geoms IH]; intros vOff;
    cbn [shifted map]; rewrite ?sum_cons; [reflexivity |].
  rewrite length_app, IH. f_equal. unfold indexLength.
  destruct (index g); [apply length_map | reflexivity].
Qed.

(** The second [forEach], from arrays written up to the offsets and zero
    beyond: no write is out of range, and each array ends as what was
    written followed by the attributes of the geometries, the index as the
    shifted indices. *)
Lemma steps_spec (geoms : list BufferGeometry) :
  forall (P N U : list R) (I : list nat) (vOff : nat),
    exists acc',
      steps {| pOffset := length P; nOffset := length N; uOffset := length U;
               iOffset := length I; vOffset := vOff;
               posArray :=
                 P ++ repeat 0 (list_sum (map (fun g => length (position g)) geoms));
               normArray :=
                 N ++ repeat 0 (list_sum (map (fun g => length (normal g)) geoms));
               uvArray :=
                 U ++ repeat 0 (list_sum (map (fun g => length (uv g)) geoms));
               indexArray :=
                 I ++ repeat 0%nat (list_sum (map indexLength geoms)) |} geoms
      = Some acc'
      /\ posArray acc' = P ++ concat (map position geoms)
      /\ normArray acc' = N ++ concat (map normal geoms)
      /\ uvArray acc' = U ++ concat (map uv geoms)
      /\ indexArray acc' = I ++ shifted vOff geoms.
Proof.
  induction geoms as [| g geoms IH]; intros P N U I vOff;
    cbn [steps map concat shifted]; rewrite ?sum_cons.
  - eexists. split; [reflexivity |]. cbn [posArray normArray uvArray indexArray].
    repeat split; reflexivity.
  - unfold step.
    cbn [posArray normArray uvArray indexArray pOffset nOffset uOffset iOffset
         vOffset].
    rewrite !set_fresh.
    set (idxs := match index g with
                 | Some idx => map (fun v => TypedArray.toUint16 (v + vOff)) idx
                 | None => []
                 end).
    assert (Hia :
              match index g with
              | Some idx =>
                  indexLoop idx 0 (length I) vOff
                    (I ++ repeat 0%nat (indexLength g + list_sum (map indexLength geoms)))
              | None =>
                  I ++ repeat 0%nat (indexLength g + list_sum (map indexLength geoms))
              end
              = (I ++ idxs) ++ repeat 0%nat (list_sum (map indexLength geoms))).
    { unfold idxs, indexLength. destruct (index g) as [idx |].
      - pose proof (indexLoop_fresh idx I [] vOff
                      (list_sum (map indexLength geoms))) as H.
        cbn [app length] in H. etransitivity; [exact H | apply app_assoc].
      - cbn [Nat.add]. rewrite app_nil_r. reflexivity. }
    rewrite Hia.
    assert (Hio : match index g with
                  | Some idx => (length I + length idx)%nat
                  | None => length I
                  end = length (I ++ idxs)).
    { unfold idxs. destruct (index g) as [idx |];
        rewrite length_app; [rewrite length_map | simpl]; lia. }
    rewrite Hio, <- !length_app.
    destruct (IH (P ++ position g) (N ++ normal g) (U ++ uv g) (I ++ idxs)
                 (vOff + count g)%nat)
      as (acc' & Hsteps & Hp & Hn & Hu & Hi).
    exists acc'. split; [exact Hsteps |].
    rewrite Hp, Hn, Hu, Hi, <- !app_assoc. repeat split; reflexivity.
Qed.


(** What [merge] returns, as far as the triangles go. *)
Lemma merge_result (geoms : list BufferGeometry) :
  exists g,
    merge geoms = Some g
    /\ position g = concat (map position geoms)
    /\ index g = match shifted 0 geoms with
                 | [] => None
                 | idx => Some idx
                 end.
Proof.
  unfold merge. unfold posCount, normCount, uvCount.
  rewrite !fold_sum, indexCount_sum. cbn [Nat.add].
  destruct (steps_spec geoms [] [] [] [] 0%nat) as (acc' & Hsteps & Hp & _ & _ & Hi).
  cbn [app length] in Hsteps. rewrite Hsteps.
  eexists. split; [reflexivity |].
  cbn [position index]. cbn [app] in Hp, Hi.
  split; [exact Hp |].
  rewrite Hi, <- (shifted_length geoms 0%nat). destruct (shifted 0 geoms); reflexivity.
Qed.

Lemma vectorAt_app_right (pre rest : list R) (k v : nat) :
  length pre = (3 * k)%nat ->
  Float32Array.vectorAt (pre ++ rest) (k + v) = Float32Array.vectorAt rest v.
Proof.
  intros Hlen. unfold Float32Array.vectorAt.
  replace ((k + v) * 3)%nat with (length pre + v * 3)%nat by lia.
  rewrite <- !Nat.add_assoc, !get_app_right. reflexivity.
Qed.

Lemma vectorAt_app_left (arr rest : list R) (v : nat) :
  (3 * v + 2 < length arr)%nat ->
  Float32Array.vectorAt (arr ++ rest) v = Float32Array.vectorAt arr v.
Proof.
  intros Hlen. unfold Float32Array.vectorAt, Float32Array.get.
  rewrite !app_nth1 by lia. reflexivity.
Qed.

Lemma positions_length (geoms : list BufferGeometry) :
  Forall wellFormed geoms ->
  length (concat (map position geoms)) = (3 * vertices geoms)%nat.
Proof.
  unfold vertices. induction 1 as [| g geoms [Hg _] _ IH]; [reflexivity |].
  cbn [map concat]. rewrite sum_cons, length_app, IH, Hg. lia.
Qed.

(** The shifted indices name, in the joined positions, the vertices the
    indices name in their own geometries. *)
Lemma shifted_corners (geoms : list BufferGeometry) :
  Forall wellFormed geoms ->
  forall (pre : list R) (vOff : nat),
    length pre = (3 * vOff)%nat ->
    (vOff + vertices geoms <= 2 ^ 16)%nat ->
    map (Float32Array.vectorAt (pre ++ concat (map position geoms)))
        (shifted vOff geoms)
    = concat (map corners geoms)
    /\ Forall (fun v => (v < vOff + vertices geoms)%nat) (shifted vOff geoms).
Proof.
  unfold vertices.
  induction 1 as [| g geoms [Hg Hidx] _ IH]; intros pre vOff Hpre Hfit;
    cbn [map concat shifted].
  - split; [reflexivity | constructor].
  - cbn [map] in Hfit. rewrite sum_cons in Hfit. rewrite ?sum_cons.
    destruct (IH (pre ++ position g) (vOff + count g)%nat) as [Hc Hv].
    { rewrite length_app, Hpre, Hg. lia. }
    { lia. }
    rewrite <- app_assoc in Hc. rewrite map_app, Hc. split.
    + f_equal. unfold corners. destruct (index g) as [idx |]; [| reflexivity].
      rewrite map_map. apply map_ext_in. intros v Hin.
      rewrite Forall_forall in Hidx. specialize (Hidx v Hin).
      unfold TypedArray.toUint16. rewrite Nat.mod_small by lia.
      rewrite (Nat.add_comm v vOff), (vectorAt_app_right pre _ vOff v Hpre).
      apply vectorAt_app_left. lia.
    + apply Forall_app. split.
      * destruct (index g) as [idx |]; [| constructor].
        apply Forall_map. rewrite Forall_forall in *. intros v Hin.
        specialize (Hidx v Hin). unfold TypedArray.toUint16.
        rewrite Nat.mod_small by lia. lia.
      * eapply Forall_impl; [| exact Hv]. cbv beta. intros v Hlt. lia.
Qed.

(** When every geometry holds three numbers per vertex and indices that
    name its own vertices, and the vertices are 65536 at most, the merged
    geometry has the vertices of all, each of its indices names one of
    them, and its triangles have the corners of the triangles of the
    geometries, in their order. *)
Theorem merge_keeps_triangles (geoms : list BufferGeometry) (g : BufferGeometry) :
  Forall wellFormed geoms ->
  (vertices geoms <= 2 ^ 16)%nat ->
  merge geoms = Some g ->
  count g = vertices geoms
  /\ wellFormed g
  /\ corners g = concat (map corners geoms).
Proof.
  intros Hwf Hfit Hmerge.
  destruct (merge_result geoms) as (g' & Hg' & Hp & Hi).
  rewrite Hmerge in Hg'. injection Hg' as <-.
  destruct (shifted_corners geoms Hwf [] 0%nat eq_refl Hfit) as [Hc Hv].
  cbn [app Nat.add] in Hc, Hv.
  assert (Hcount : count g = vertices geoms).
  { unfold count. rewrite Hp, (positions_length geoms Hwf).
    rewrite Nat.mul_comm. apply Nat.div_mul. discriminate. }
  split; [exact Hcount | split].
  - split.
    + rewrite Hcount, Hp. apply positions_length, Hwf.
    + rewrite Hi, Hcount. destruct (shifted 0 geoms); [exact I | exact Hv].
  - unfold corners at 1. rewrite Hi, Hp, <- Hc.
    destruct (shifted 0 geoms); reflexivity.
Qed.

End Merged.

Lemma merge_keeps_triangles_witness :
  Forall Merge.wellFormed [Merge.triangle; Merge.triangle]
  /\ (Merge.vertices [Merge.triangle; Merge.triangle] <= 2 ^ 16)%nat
  /\ forall g,
       Merge.merge [Merge.triangle; Merge.triangle] = Some g ->
       Merge.count g = Merge.vertices [Merge.triangle; Merge.triangle]
       /\ Merge.wellFormed g
       /\ Merge.corners g = concat (map Merge.corners [Merge.triangle; Merge.triangle]).
Proof.
  assert (Hwf : Forall Merge.wellFormed [Merge.triangle; Merge.triangle]).
  { assert (H : Merge.wellFormed Merge.triangle).
    { split; [reflexivity |]. cbn. repeat constructor. }
    repeat constructor; exact H. }
  assert (Hfit : (Merge.vertices [Merge.triangle; Merge.triangle] <= 2 ^ 16)%nat).
  { change (Merge.vertices [Merge.triangle; Merge.triangle]) with 6%nat.
    apply Nat.lt_le_incl, (Nat.le_lt_trans _ 16);
      [lia | apply Nat.pow_gt_lin_r; lia]. }
  split; [exact Hwf | split; [exact Hfit |]].
  intros g Hg.
  exact (merge_keeps_triangles [Merge.triangle; Merge.triangle] g Hwf Hfit Hg).
Defined.

(** ** The look and the ids of the ornaments *)

Section OrnamentStyle.
Import Types Ornaments.

Variable rnd : Random.Stream.
Hypothesis rnd_unit : Random.inUnit rnd.

Lemma sample_styled (id0 : nat) (oy : option R) (s0 s1 : GenState) :
  Style.styled (fst (accept rnd id0 (fst (fst (sample rnd oy s0)))
                            (snd (fst (sample rnd oy s0))) s1)).
Proof.
  pose proof (chooseType_not_star (rnd (cursor s0)) oy) as Hns.
  pose proof (rnd_unit (S (cursor s0))) as H1.
  pose proof (rnd_unit (S (S (cursor s0)))) as H2.
  pose proof (rnd_unit (S (S (S (cursor s0))))) as H3.
  pose proof (rnd_unit (S (S (S (S (cursor s0)))))) as H4.
  unfold Style.styled, accept, push, sample, treePlacement, bellOverride,
    propertiesOf, random, bind, ret.
  cbn [fst snd cursor placedItems].
  destruct (chooseType (rnd (cursor s0)) oy); try contradiction;
    cbn [fst snd cursor placedItems isBell c_type c_weight c_scale c_color
         c_secondaryColor c_collisionRadius];
    repeat match goal with
           | |- context [if Num.ltb ?a ?b then _ else _] =>
               destruct (Num.ltb a b);
               cbn [fst snd cursor placedItems isBell isGoldMetallic c_type c_weight
                    c_scale c_color c_secondaryColor c_collisionRadius]
           | |- context [match ?o with Some _ => _ | None => _ end] =>
               destruct o;
               cbn [fst snd cursor placedItems isBell isGoldMetallic c_type c_weight
                    c_scale c_color c_secondaryColor c_collisionRadius]
           end;
    cbn [type weight scale color secondaryColor In];
    repeat match goal with
           | |- _ /\ _ => split
           | |- exists _, _ => eexists
           end;
    try reflexivity; try lra; try discriminate; auto 6.
Qed.

Lemma createItem_styled (id0 : nat) (oy : option R) (s s' : GenState)
      (item : OrnamentData) :
  (oy = None \/ exists k, oy = Some (rnd k * 4.0 - TREE_HEIGHT / 2)) ->
  createItem rnd id0 oy s = (Some item, s') -> Style.styled item.
Proof.
  intros _ E.
  destruct (createItem_item rnd id0 oy s s' item E) as (s0 & s1 & ->).
  apply sample_styled.
Qed.


End OrnamentStyle.

Section LoopInvariants.
Import Types Ornaments.

Variable rnd : Random.Stream.

(** A property of the id counter and the arrays that each iteration of the
    main loop keeps holds when the loop ends. *)
Lemma mainLoop_invariant (Q : nat -> Arrays -> Prop) :
  (forall idc a s item s',
      Q idc a -> createItem rnd idc None s = (Some item, s') ->
      Q (S idc) (pushByType item a)) ->
  (forall idc a, Q idc a -> Q (S idc) a) ->
  forall k idc pc a s,
    Q idc a ->
    Q (fst (fst (mainLoop rnd k idc pc a s))) (snd (fst (mainLoop rnd k idc pc a s))).
Proof.
  intros Hput Hskip. induction k as [| k IH]; intros idc pc a s HQ; cbn [mainLoop].
  - exact HQ.
  - destruct (pc <? ORNAMENT_COUNT)%nat; [| exact HQ]. unfold bind.
    destruct (createItem rnd idc None s) as [[item |] s'] eqn:E.
    + apply IH, (Hput idc a s item s' HQ E).
    + apply IH, Hskip, HQ.
Qed.

Lemma fillerLoop_invariant (Q : nat -> Arrays -> Prop) :
  (forall idc a s k item s' col,
      Q idc a -> In col [GOLD_METALLIC; GOLD_ROSE] ->
      createItem rnd idc (Some (rnd k * 4.0 - TREE_HEIGHT / 2)) s = (Some item, s') ->
      Q (S idc) (pushBell (asFiller item col) a)) ->
  (forall idc a, Q idc a -> Q (S idc) a) ->
  forall k idc pc a s,
    Q idc a ->
    Q (fst (fst (fillerLoop rnd k idc pc a s)))
      (snd (fst (fillerLoop rnd k idc pc a s))).
Proof.
  intros Hput Hskip. induction k as [| k IH]; intros idc pc a s HQ; cbn [fillerLoop].
  - exact HQ.
  - destruct (pc <? extraCount)%nat; [| exact HQ]. unfold bind, random.
    cbn [fst snd].
    destruct (createItem rnd idc _ _) as [[item |] s'] eqn:E.
    + apply IH. eapply (Hput idc a _ (cursor s) item s' _ HQ); [| exact E].
      destruct (Num.gtb _ _); [left | right; left]; reflexivity.
    + apply IH, Hskip, HQ.
Qed.

Lemma generate_invariant (Q : nat -> Arrays -> Prop) (c : nat) :
  (forall idc a s item s',
      Q idc a -> createItem rnd idc None s = (Some item, s') ->
      Q (S idc) (pushByType item a)) ->
  (forall idc a s k item s' col,
      Q idc a -> In col [GOLD_METALLIC; GOLD_ROSE] ->
      createItem rnd idc (Some (rnd k * 4.0 - TREE_HEIGHT / 2)) s = (Some item, s') ->
      Q (S idc) (pushBell (asFiller item col) a)) ->
  (forall idc a, Q idc a -> Q (S idc) a) ->
  Q 0%nat noArrays ->
  exists idc, Q idc (fst (generate rnd (start c))).
Proof.
  intros Hmain Hfill Hskip H0. unfold generate, bind, ret.
  pose proof (mainLoop_invariant Q Hmain Hskip
                (loopBound ORNAMENT_COUNT) 0%nat 0%nat noArrays (start c) H0) as Hm.
  destruct (mainLoop rnd (loopBound ORNAMENT_COUNT) 0 0 noArrays (start c))
    as [[idc a] s1].
  cbn [fst snd] in *.
  pose proof (fillerLoop_invariant Q Hfill Hskip (loopBound extraCount) idc 0%nat a s1
                Hm) as Hf.
  destruct (fillerLoop rnd (loopBound extraCount) idc 0 a s1) as [[idc' a'] s2].
  cbn [fst snd] in *. exists idc'. exact Hf.
Qed.

Lemma mainLoop_counter (k : nat) :
  forall idc pc a s,
    (fst (fst (mainLoop rnd k idc pc a s)) <= idc + k)%nat.
Proof.
  induction k as [| k IH]; intros idc pc a s; cbn [mainLoop].
  - simpl. lia.
  - destruct (pc <? ORNAMENT_COUNT)%nat; [| simpl; lia]. unfold bind.
    destruct (createItem rnd idc None s) as [[item |] s'].
    + specialize (IH (S idc) (S pc) (pushByType item a) s'). lia.
    + specialize (IH (S idc) pc a s'). lia.
Qed.

Lemma fillerLoop_counter (k : nat) :
  forall idc pc a s,
    (fst (fst (fillerLoop rnd k idc pc a s)) <= idc + k)%nat.
Proof.
  induction k as [| k IH]; intros idc pc a s; cbn [fillerLoop].
  - simpl. lia.
  - destruct (pc <? extraCount)%nat; [| simpl; lia]. unfold bind, random.
    cbn [fst snd].
    destruct (createItem rnd idc _ _) as [[item |] s'].
    + match goal with
      | |- (fst (fst (fillerLoop _ _ _ _ ?a1 ?s1)) <= _)%nat =>
          specialize (IH (S idc) (S pc) a1 s1)
      end. lia.
    + specialize (IH (S idc) pc a s'). lia.
Qed.

Lemma numbered_cons (idc : nat) (item : OrnamentData) (l l' : list OrnamentData) :
  Permutation l' (item :: l) -> id item = idc ->
  Style.numbered idc l -> Style.numbered (S idc) l'.
Proof.
  intros Hperm Hid [Hnd Hlt]. split.
  - apply (Permutation_NoDup (Permutation_sym (Permutation_map id Hperm))).
    cbn [map]. constructor; [| exact Hnd].
    intros Hin. apply in_map_iff in Hin. destruct Hin as (it & Heq & Hit).
    rewrite Forall_forall in Hlt. specialize (Hlt it Hit). lia.
  - apply (Permutation_Forall (Permutation_sym Hperm)).
    constructor; [lia |]. eapply Forall_impl; [| exact Hlt]. cbv beta. intros; lia.
Qed.

(** The ornaments of a generation carry distinct ids, all below 1080: the
    id counter advances at every call of [createItem], placed or not, over
    the 900 and 180 iterations at most of the two loops. *)
Theorem ornament_ids_are_distinct (c : nat) :
  NoDup (map id (allItems (fst (generate rnd (start c)))))
  /\ Forall (fun item => (id item < 1080)%nat)
            (allItems (fst (generate rnd (start c)))).
Proof.
  assert (Hinv : exists idc,
             (idc <= 1080)%nat
             /\ Style.numbered idc (allItems (fst (generate rnd (start c))))).
  { unfold generate, bind, ret.
    pose proof (mainLoop_counter (loopBound ORNAMENT_COUNT) 0 0 noArrays (start c))
      as Hc1.
    pose proof (mainLoop_invariant (fun idc a => Style.numbered idc (allItems a)))
      as Hm.
    specialize (Hm
      (fun idc a s item s' HQ E =>
         numbered_cons idc item _ _
           (allItems_pushByType item a
              (match createItem_spec rnd idc None s _ _ E with
               | ex_intro _ s0 Hacc => accepted_not_star rnd _ _ _ _ _ _ Hacc
               end))
           (match createItem_spec rnd idc None s _ _ E with
            | ex_intro _ s0 (conj _ (conj _ (conj _ (conj _ (conj _ Hid))))) => Hid
            end) HQ)).
    assert (Hskip : forall idc a,
               Style.numbered idc (allItems a) -> Style.numbered (S idc) (allItems a)).
    { intros idc a [Hnd Hlt]. split; [exact Hnd |].
      eapply Forall_impl; [| exact Hlt]. cbv beta. intros; lia. }
    specialize (Hm Hskip (loopBound ORNAMENT_COUNT) 0%nat 0%nat noArrays (start c)).
    assert (H0 : Style.numbered 0 (allItems noArrays))
      by (split; constructor).
    specialize (Hm H0).
    destruct (mainLoop rnd (loopBound ORNAMENT_COUNT) 0 0 noArrays (start c))
      as [[idc a] s1].
    cbn [fst snd] in *.
    pose proof (fillerLoop_counter (loopBound extraCount) idc 0 a s1) as Hc2.
    pose proof (fillerLoop_invariant (fun idc a => Style.numbered idc (allItems a)))
      as Hf.
    specialize (Hf
      (fun idc a s k item s' col HQ _ E =>
         numbered_cons idc (asFiller item col) _ _
           (allItems_pushBell (asFiller item col) a)
           (match createItem_spec rnd idc _ s _ _ E with
            | ex_intro _ s0 (conj _ (conj _ (conj _ (conj _ (conj _ Hid))))) => Hid
            end) HQ)
      Hskip (loopBound extraCount) idc 0%nat a s1 Hm).
    destruct (fillerLoop rnd (loopBound extraCount) idc 0 a s1) as [[idc' a'] s2].
    cbn [fst snd] in *. exists idc'. split; [| exact Hf].
    change (loopBound ORNAMENT_COUNT) with 900%nat in Hc1.
    change (loopBound extraCount) with 180%nat in Hc2. lia. }
  destruct Hinv as (idc & Hle & Hnd & Hlt).
  split; [exact Hnd |].
  eapply Forall_impl; [| exact Hlt]. cbv beta. intros; lia.
Qed.

Hypothesis rnd_unit : Random.inUnit rnd.



End LoopInvariants.


(** ** The ribbons *)

Section Ribbons.
Import Types Ornaments.

Variable rnd : Random.Stream.
Hypothesis rnd_unit : Random.inUnit rnd.

Let ribboned (d : OrnamentData) : Prop :=
  exists ribbon, secondaryColor d = Some ribbon /\ ribbon <> color d.

Lemma boxes_ribboned (c : nat) :
  Forall ribboned (boxes (fst (generate rnd (start c)))).
Proof.
  destruct (generate_invariant rnd (fun _ a => Forall ribboned (boxes a)) c)
    as (idc & H); [| | | | exact H].
  - intros idc a s item s' HQ E.
    pose proof (createItem_styled rnd rnd_unit idc None s s' item
                  (or_introl eq_refl) E) as Hst.
    unfold pushByType, pushBell. unfold Style.styled in Hst.
    destruct (type item); cbn [boxes]; try exact HQ.
    apply Forall_app. split; [exact HQ |].
    constructor; [| constructor]. destruct Hst as (_ & _ & Hr). exact Hr.
  - intros idc a s k item s' col HQ _ _. exact HQ.
  - intros idc a HQ. exact HQ.
  - constructor.
Qed.

(** Under draws from [0, 1), every gift box of a generation has a ribbon
    colour of its own, so that the golden default is never used, and the
    ribbon mesh is coloured, instance by instance, in a colour other than
    that of the box it wraps. *)
Theorem ribbons_contrast_with_boxes (c : nat) :
  let bs := boxes (fst (generate rnd (start c))) in
  Forall (fun d => secondaryColor d <> None) bs
  /\ length (OrnamentColors.ribbonColors bs) = length (OrnamentColors.bodyColors bs)
  /\ forall i body ribbon,
       nth_error (OrnamentColors.bodyColors bs) i = Some body ->
       nth_error (OrnamentColors.ribbonColors bs) i = Some ribbon ->
       ribbon <> body.
Proof.
  cbv zeta. pose proof (boxes_ribboned c) as H.
  revert H. generalize (boxes (fst (generate rnd (start c)))). intros bs H.
  split; [| split].
  - eapply Forall_impl; [| exact H]. intros d (ribbon & Hs & _). congruence.
  - unfold OrnamentColors.ribbonColors, OrnamentColors.bodyColors.
    rewrite !length_map. reflexivity.
  - intros i body ribbon Hb Hr.
    unfold OrnamentColors.ribbonColors, OrnamentColors.bodyColors in *.
    rewrite nth_error_map in Hb, Hr.
    destruct (nth_error bs i) as [d |] eqn:E; [| discriminate].
    cbn [option_map] in Hb, Hr. injection Hb as <-. injection Hr as <-.
    rewrite Forall_forall in H.
    destruct (H d (nth_error_In _ _ E)) as (ribbon & -> & Hne). exact Hne.
Qed.

End Ribbons.

Lemma ribbons_contrast_with_boxes_witness :
  Random.inUnit (Random.const 0)
  /\ let bs := Ornaments.boxes
                 (fst (Ornaments.generate (Random.const 0) (Ornaments.start 0))) in
     Forall (fun d => Types.secondaryColor d <> None) bs
     /\ length (OrnamentColors.ribbonColors bs) = length (OrnamentColors.bodyColors bs)
     /\ forall i body ribbon,
          nth_error (OrnamentColors.bodyColors bs) i = Some body ->
          nth_error (OrnamentColors.ribbonColors bs) i = Some ribbon ->
          ribbon <> body.
Proof.
  split; [exact zeros_unit |].
  exact (ribbons_contrast_with_boxes (Random.const 0) zeros_unit 0).
Defined.

(** ** Hands without their landmarks, and the zoom button *)

Section Controls.
Import GestureController.

Lemma handPoints_None (hand : Hand) :
  handPoints hand = None <-> (length hand < 21)%nat.
Proof.
  unfold handPoints. split.
  - intros H.
    destruct (nth_error hand 20) eqn:E20;
      [| apply nth_error_None in E20; lia].
    assert (H20 : (20 < length hand)%nat) by (apply nth_error_Some; congruence).
    destruct (nth_error hand 0) eqn:E0; [| apply nth_error_None in E0; lia].
    destruct (nth_error hand 4) eqn:E4; [| apply nth_error_None in E4; lia].
    destruct (nth_error hand 8) eqn:E8; [| apply nth_error_None in E8; lia].
    destruct (nth_error hand 12) eqn:E12; [| apply nth_error_None in E12; lia].
    destruct (nth_error hand 16) eqn:E16; [| apply nth_error_None in E16; lia].
    discriminate.
  - intros Hlt.
    assert (E : nth_error hand 20 = None) by (apply nth_error_None; lia).
    rewrite E.
    destruct (nth_error hand 0), (nth_error hand 4), (nth_error hand 8),
      (nth_error hand 12), (nth_error hand 16); reflexivity.
Qed.

Lemma handStep_None (f : Flags) (hand : Hand) :
  handStep f hand = None <-> (length hand < 21)%nat.
Proof.
  rewrite <- handPoints_None. unfold handStep.
  destruct (handPoints hand) as [[[[[[w t] i] m] r] p] |].
  - split; [| discriminate].
    destruct (Num.ltb _ 0.25); [discriminate |].
    destruct (Num.gtb _ 0.4); discriminate.
  - split; reflexivity.
Qed.

Lemma handLoop_None (hands : list Hand) :
  forall f, handLoop f hands = None
            <-> Exists (fun hand => (length hand < 21)%nat) hands.
Proof.
  induction hands as [| hand hands IH]; intros f; cbn [handLoop].
  - split; [discriminate | intros H; inversion H].
  - destruct (handStep f hand) as [f' |] eqn:E.
    + rewrite IH. split.
      * intros H. right. exact H.
      * intros H. inversion H as [? ? Hh | ? ? Ht]; subst; [| exact Ht].
        apply (handStep_None f hand) in Hh. congruence.
    + split; [| reflexivity].
      intros _. left. apply (handStep_None f hand), E.
Qed.

(** [processLandmarks] throws exactly when a hand comes with fewer than 21
    landmarks; a frame with such a hand ends the polling, whatever frames
    follow, and a repeated frame is skipped before its hands are read. *)
Theorem malformed_hand_ends_the_polling (hands : list Hand) (st : State) :
  (processLandmarks hands st = None
   <-> Exists (fun hand => (length hand < 21)%nat) hands)
  /\ forall (t : R) (rest : list VideoFrame),
       Exists (fun hand => (length hand < 21)%nat) hands ->
       predictAll ({| currentTime := t; landmarks := Some hands |} :: rest) st
       = if Num.neqb (lastVideoTime st) t then None else predictAll rest st.
Proof.
  assert (Hp : processLandmarks hands st = None
               <-> Exists (fun hand => (length hand < 21)%nat) hands).
  { unfold processLandmarks. destruct hands as [| hand hands].
    - split; [discriminate | intros H; inversion H].
    - rewrite <- (handLoop_None (hand :: hands) noFlags).
      destruct (handLoop noFlags (hand :: hands)); split;
        (discriminate || reflexivity). }
  split; [exact Hp |].
  intros t rest Hex. cbn [predictAll]. unfold predict. cbn [currentTime landmarks].
  destruct (Num.neqb (lastVideoTime st) t); [| reflexivity].
  assert (Hp' : processLandmarks hands (setLastVideoTime t st) = None).
  { revert Hex. clear. unfold processLandmarks. destruct hands as [| hand hands].
    - intros H; inversion H.
    - intros H. apply (handLoop_None (hand :: hands) noFlags) in H.
      rewrite H. reflexivity. }
  rewrite Hp'. reflexivity.
Qed.

(** Each click on the zoom button flips what the button shows: it asks for
    10 when the scale is 1.5 or less and for 1 otherwise, and the scale it
    asks for pins the photo frames to the screen exactly when it is 10. *)
Theorem zoom_button_flips (photoScale : R) :
  UI.zoomShown (UI.toggleZoom photoScale) = negb (UI.zoomShown photoScale)
  /\ Signals.isZooming (UI.toggleZoom photoScale) = negb (UI.zoomShown photoScale)
  /\ UI.toggleZoom (UI.toggleZoom (UI.toggleZoom photoScale)) = UI.toggleZoom photoScale.
Proof.
  unfold UI.zoomShown, UI.toggleZoom, Signals.isZooming, Num.gtb.
  destruct (Num.ltb 1.5 photoScale) eqn:E; cbn [negb].
  - rewrite (ltb_false 1.5 1.0), (ltb_false 2.0 1.0) by lra.
    rewrite (ltb_true 1.5 10.0) by lra. repeat split.
  - rewrite (ltb_true 1.5 10.0), (ltb_true 2.0 10.0) by lra.
    rewrite (ltb_false 1.5 1.0) by lra. repeat split.
Qed.

End Controls.
